(** * DataCleaner: the document cleaning and deduplication pipeline

    Shallow embedding of [week2/Data Cleaning & Deduplication/main.py]
    (class [DataCleaner]) and the properties of its stages.

    Character model.  A Python [str] is a sequence of code points; documents
    are modelled here as lists of [ascii], each standing for the code point
    of the same number (0..255, the Latin-1 range).  The character tables
    below ([is_space], [is_digit], [is_word]) are those of CPython for that
    range.

    External collaborators.  BeautifulSoup, langdetect and datasketch are
    third-party libraries; they enter the model as the fields of the record
    [Libs], and the stages are functions of such a record. *)

From Stdlib Require Import Ascii String.
From Stdlib Require Import List Bool Arith Lia ZArith QArith.
From Stdlib Require DecimalString DecimalNat.
Import ListNotations.
Close Scope Q_scope.

(* ================================================================= *)
(** * Part I: definitions                                             *)
(* ================================================================= *)

(** ** Strings and characters *)

Definition str := list ascii.

Definition lit (s : string) : str := list_ascii_of_string s.

Definition code (c : ascii) : nat := nat_of_ascii c.

Definition in_range (lo hi : nat) (c : ascii) : bool :=
  (lo <=? code c)%nat && (code c <=? hi)%nat.

(** [str.isspace] on one character, which is also what [str.split()] and the
    regex escape [\s] use: TAB..CR, FS..US, SPACE, NEL and NBSP. *)
Definition is_space (c : ascii) : bool :=
  in_range 9 13 c || in_range 28 32 c ||
  (code c =? 133)%nat || (code c =? 160)%nat.

(** [\d] and [[0-9]]: the only decimal digits below 256 are the ASCII ones. *)
Definition is_digit (c : ascii) : bool := in_range 48 57 c.

Definition is_upper_az (c : ascii) : bool := in_range 65 90 c.
Definition is_lower_az (c : ascii) : bool := in_range 97 122 c.

(** [str.isalnum] on one character below 256: ASCII letters and digits, the
    ordinal indicators, superscript digits, micro sign, vulgar fractions and
    the Latin-1 letters. *)
Definition is_alnum (c : ascii) : bool :=
  is_digit c || is_upper_az c || is_lower_az c ||
  (code c =? 170)%nat || in_range 178 179 c || (code c =? 181)%nat ||
  in_range 185 186 c || in_range 188 190 c ||
  in_range 192 214 c || in_range 216 246 c || in_range 248 255 c.

(** The word characters of [\w] and [\b]: alphanumerics and underscore. *)
Definition is_word (c : ascii) : bool := is_alnum c || (code c =? 95)%nat.

(** [str.lower] on one character below 256. *)
Definition lower_char (c : ascii) : ascii :=
  if is_upper_az c || (in_range 192 222 c && negb (code c =? 215)%nat)
  then ascii_of_nat (code c + 32) else c.

Definition lower (s : str) : str := map lower_char s.

(** [str.upper] on the ASCII letters; it is only applied to the keys of
    [pii_patterns], which are ASCII identifiers. *)
Definition upper_char (c : ascii) : ascii :=
  if is_lower_az c then ascii_of_nat (code c - 32) else c.

Definition upper (s : str) : str := map upper_char s.

Definition str_eqb (a b : str) : bool :=
  if list_eq_dec ascii_dec a b then true else false.

Definition is_nil {A} (l : list A) : bool :=
  match l with [] => true | _ => false end.

(** [s.startswith(p)] *)
Fixpoint starts_with (p s : str) : bool :=
  match p, s with
  | [], _ => true
  | a :: p', b :: s' => if ascii_dec a b then starts_with p' s' else false
  | _ :: _, [] => false
  end.

(** [sep.join(parts)] *)
Fixpoint join (sep : str) (parts : list str) : str :=
  match parts with
  | [] => []
  | [p] => p
  | p :: rest => p ++ sep ++ join sep rest
  end.

(** [s.split()] with no argument: the maximal runs of non-space characters.
    [cur] is the token being read. *)
Fixpoint split_ws_from (cur : str) (s : str) : list str :=
  match s with
  | [] => if is_nil cur then [] else [cur]
  | c :: tl =>
      if is_space c
      then (if is_nil cur then split_ws_from [] tl
            else cur :: split_ws_from [] tl)
      else split_ws_from (cur ++ [c]) tl
  end.

Definition split_ws (s : str) : list str := split_ws_from [] s.

(** [s.split(sep)] for a non-empty [sep]: the pieces between the
    non-overlapping occurrences of [sep], found from left to right.  [cur] is
    the piece being read and [skip] the number of characters of the last
    occurrence still to be passed over.  (Python raises [ValueError] on an
    empty separator; the compressor never passes one, see
    [ngram_str_not_nil].) *)
Fixpoint split_sep_from (sep cur s : str) (skip : nat) : list str :=
  match s with
  | [] => [cur]
  | c :: tl =>
      match skip with
      | S k => split_sep_from sep cur tl k
      | O => if starts_with sep s
             then cur :: split_sep_from sep [] tl (length sep - 1)
             else split_sep_from sep (cur ++ [c]) tl 0
      end
  end.

Definition split_sep (sep s : str) : list str := split_sep_from sep [] s 0.

(** [re.sub(r'\s+', ' ', text)]: every maximal run of spaces becomes one
    blank.  [inrun] tells that the previous character was a space. *)
Fixpoint collapse_ws_from (inrun : bool) (s : str) : str :=
  match s with
  | [] => []
  | c :: tl =>
      if is_space c
      then (if inrun then collapse_ws_from true tl
            else " "%char :: collapse_ws_from true tl)
      else c :: collapse_ws_from false tl
  end.

Definition collapse_ws (s : str) : str := collapse_ws_from false s.

Fixpoint lstrip (s : str) : str :=
  match s with
  | c :: tl => if is_space c then lstrip tl else s
  | [] => []
  end.

Definition rstrip (s : str) : str := rev (lstrip (rev s)).

(** [s.strip()] *)
Definition strip (s : str) : str := rstrip (lstrip s).

(** ** The repetition compressor ([remove_repetitive_ngrams]) *)

(** An n-gram is a tuple of words. *)
Definition ngram := list str.

Definition ngram_eqb (a b : ngram) : bool :=
  if list_eq_dec (list_eq_dec ascii_dec) a b then true else false.

(** [collections.Counter]: the keys in the order of their first insertion,
    which is the order [items()] yields them in. *)
Definition Counter := list (ngram * nat).

(** [counts[k] += 1] *)
Fixpoint counter_incr (k : ngram) (counts : Counter) : Counter :=
  match counts with
  | [] => [(k, 1)]
  | (k', n) :: rest =>
      if ngram_eqb k' k then (k', S n) :: rest
      else (k', n) :: counter_incr k rest
  end.

(** [words[i:i+n]] *)
Definition slice {A} (l : list A) (i n : nat) : list A := firstn n (skipn i l).

(** [[tuple(words[i:i+n]) for i in range(len(words) - n + 1)]] *)
Definition ngrams_of (words : list str) (n : nat) : list ngram :=
  map (fun i => slice words i n) (seq 0 (length words + 1 - n)).

(** The loop [for ngram in ngrams: ngram_counts[ngram] += 1]. *)
Definition count_ngrams (grams : list ngram) : Counter :=
  fold_left (fun counts g => counter_incr g counts) grams [].

(** [range(lo, hi)] *)
Definition py_range (lo hi : Z) : list Z :=
  map (fun k => (lo + Z.of_nat k)%Z) (seq 0 (Z.to_nat (hi - lo))).

Definition ngram_str_of (g : ngram) : str := join (lit " ") g.

(** Lines 295-297: [parts = doc.split(ngram_str)] and, when there is more
    than one part, [doc = parts[0] + ngram_str + ''.join(parts[1:])]. *)
Definition rewrite_ngram (doc ngram_str : str) : str :=
  let parts := split_sep ngram_str doc in
  if (1 <? length parts)%nat
  then hd [] parts ++ ngram_str ++ concat (tl parts)
  else doc.

(** The body of [for ngram, count in ngram_counts.items()]. *)
Definition rewrite_if_frequent (threshold : Z) (doc : str)
    (item : ngram * nat) : str :=
  if (threshold <=? Z.of_nat (snd item))%Z
  then rewrite_ngram doc (ngram_str_of (fst item))
  else doc.

(** One iteration of [for n in range(2, max_ngram + 1)]: the n-grams are
    counted over [words], the rewriting acts on [doc]. *)
Definition ngram_pass (threshold : Z) (words : list str) (doc : str)
    (n : Z) : str :=
  fold_left (rewrite_if_frequent threshold)
            (count_ngrams (ngrams_of words (Z.to_nat n))) doc.

(** The body of [for doc in documents] (lines 277-300): [words] is computed
    once, before the passes. *)
Definition remove_repetitive_ngrams_doc (max_ngram threshold : Z)
    (doc : str) : str :=
  let words := split_ws doc in
  if (Z.of_nat (length words) <? max_ngram)%Z then doc
  else fold_left (ngram_pass threshold words)
                 (py_range 2 (max_ngram + 1)) doc.

(** The variant the specification describes, for comparison: each pass
    tokenizes the text as the preceding passes have rewritten it. *)
Definition remove_repetitive_ngrams_doc_retokenizing (max_ngram threshold : Z)
    (doc : str) : str :=
  if (Z.of_nat (length (split_ws doc)) <? max_ngram)%Z then doc
  else fold_left (fun d n => ngram_pass threshold (split_ws d) d n)
                 (py_range 2 (max_ngram + 1)) doc.

(** [len(doc.split())], summed by [count_tokens]. *)
Definition token_count (doc : str) : nat := length (split_ws doc).

Definition count_tokens (documents : list str) : nat :=
  fold_left (fun total doc => total + token_count doc) documents 0.

(** ** Regular expressions ([re]) as used by [pii_patterns] *)

(** The fragment of the pattern syntax the four patterns are written in. *)
Inductive regex : Type :=
| Eps                                   (* the empty pattern *)
| Cls (p : ascii -> bool)               (* one character of a class *)
| Bnd                                   (* \b *)
| Seq (a b : regex)                     (* ab *)
| Opt (a : regex)                       (* a? (greedy) *)
| Many (k : nat) (p : ascii -> bool).   (* [class]{k,} (greedy) *)

(** [a{n}] *)
Fixpoint rep (n : nat) (a : regex) : regex :=
  match n with
  | O => Eps
  | S n' => Seq a (rep n' a)
  end.

Definition opt_word (c : option ascii) : bool :=
  match c with Some c => is_word c | None => false end.

(** [\b] holds between two positions when exactly one side is a word
    character; outside the text counts as a non-word character. *)
Definition boundary (prev next : option ascii) : bool :=
  xorb (opt_word prev) (opt_word next).

(** The character before the position reached after reading [x]. *)
Fixpoint last_of (x : str) (prev : option ascii) : option ascii :=
  match x with
  | [] => prev
  | c :: tl => last_of tl (Some c)
  end.

(** All the ways a greedy class repetition can read a prefix of [rest],
    longest first: the order a backtracking matcher tries them in. *)
Fixpoint many_splits (p : ascii -> bool) (rest : str) : list (str * str) :=
  match rest with
  | c :: tl =>
      if p c
      then map (fun xy => (c :: fst xy, snd xy)) (many_splits p tl)
           ++ [([], rest)]
      else [([], rest)]
  | [] => [([], [])]
  end.

(** The backtracking matcher as a list of successes: every way [r] can match
    a prefix of [rest] when [prev] is the character before it, as pairs
    (matched text, remaining text), in the order of preference of [re]. *)
Fixpoint matches (r : regex) (prev : option ascii) (rest : str)
    : list (str * str) :=
  match r with
  | Eps => [([], rest)]
  | Cls p =>
      match rest with
      | c :: tl => if p c then [([c], tl)] else []
      | [] => []
      end
  | Bnd => if boundary prev (hd_error rest) then [([], rest)] else []
  | Seq a b =>
      flat_map (fun xy =>
                  map (fun xy' => (fst xy ++ fst xy', snd xy'))
                      (matches b (last_of (fst xy) prev) (snd xy)))
               (matches a prev rest)
  | Opt a => matches a prev rest ++ [([], rest)]
  | Many k p =>
      filter (fun xy => (k <=? length (fst xy))%nat) (many_splits p rest)
  end.

(** [pattern.match] at one position: the preferred match, if any. *)
Definition match_here (r : regex) (prev : option ascii) (rest : str)
    : option str :=
  match matches r prev rest with
  | (x, _) :: _ => Some x
  | [] => None
  end.

(** The segments a left-to-right scan for non-overlapping matches cuts a
    text into: a character outside every match, or a match. *)
Inductive segment : Type :=
| Keep (c : ascii)
| Hit (x : str).

(** The scan shared by [findall] and [sub].  At a position where the pattern
    matches a non-empty text the match is taken and the scan resumes after
    it ([skip] counts the characters of the match still to be passed over);
    elsewhere the character is kept.  The rules of [re] for matches of the
    empty text are left out: none of the patterns of [pii_patterns] can match
    the empty text (see [pii_match_not_nil]). *)
Fixpoint scan (r : regex) (prev : option ascii) (rest : str) (skip : nat)
    : list segment :=
  match rest with
  | [] => []
  | c :: tl =>
      match skip with
      | S k => scan r (Some c) tl k
      | O =>
          match match_here r prev rest with
          | Some (_ :: x') => Hit (c :: x') :: scan r (Some c) tl (length x')
          | _ => Keep c :: scan r (Some c) tl 0
          end
      end
  end.

(** [pattern.findall(doc)] for a pattern without groups. *)
Definition findall (r : regex) (doc : str) : list str :=
  flat_map (fun sg => match sg with Hit x => [x] | Keep _ => [] end)
           (scan r None doc 0).

(** The text a scan was made from, and the text with every match replaced. *)
Definition original (segs : list segment) : str :=
  flat_map (fun sg => match sg with Hit x => x | Keep c => [c] end) segs.

Definition render (repl : str) (segs : list segment) : str :=
  flat_map (fun sg => match sg with Hit _ => repl | Keep c => [c] end) segs.

(** [pattern.sub(repl, doc)] for a replacement without escapes. *)
Definition sub (r : regex) (repl : str) (doc : str) : str :=
  render repl (scan r None doc 0).

(** ** The PII redactor ([remove_pii]) *)

Definition chr_in (s : string) (c : ascii) : bool :=
  existsb (fun d => if ascii_dec d c then true else false) (lit s).

Definition chr_is (d : ascii) : regex :=
  Cls (fun c => if ascii_dec d c then true else false).

(** [[A-Za-z0-9._%+-]] *)
Definition email_local (c : ascii) : bool :=
  is_upper_az c || is_lower_az c || is_digit c || chr_in "._%+-" c.

(** [[A-Za-z0-9.-]] *)
Definition email_domain (c : ascii) : bool :=
  is_upper_az c || is_lower_az c || is_digit c || chr_in ".-" c.

(** [[A-Z|a-z]]: the bar is a member of the class. *)
Definition email_tld (c : ascii) : bool :=
  is_upper_az c || is_lower_az c || chr_in "|" c.

(** [[-\s]] and [[-.\s]] *)
Definition dash_space (c : ascii) : bool := chr_in "-" c || is_space c.
Definition dash_dot_space (c : ascii) : bool := chr_in "-." c || is_space c.

(** [[A-Za-z0-9._%+-]+@[A-Za-z0-9.-]+\.[A-Z|a-z]{2,}] *)
Definition email_core : regex :=
  Seq (Many 1 email_local)
 (Seq (chr_is "@")
 (Seq (Many 1 email_domain)
 (Seq (chr_is ".")
      (Many 2 email_tld)))).

(** [(?:\d{4}[-\s]?){3}\d{4}] *)
Definition credit_card_core : regex :=
  Seq (rep 3 (Seq (rep 4 (Cls is_digit)) (Opt (Cls dash_space))))
      (rep 4 (Cls is_digit)).

(** [(?:\+?1[-.\s]?)?\(?[0-9]{3}\)?[-.\s]?[0-9]{3}[-.\s]?[0-9]{4}] *)
Definition phone_core : regex :=
  Seq (Opt (Seq (Opt (chr_is "+")) (Seq (chr_is "1") (Opt (Cls dash_dot_space)))))
 (Seq (Opt (chr_is "("))
 (Seq (rep 3 (Cls is_digit))
 (Seq (Opt (chr_is ")"))
 (Seq (Opt (Cls dash_dot_space))
 (Seq (rep 3 (Cls is_digit))
 (Seq (Opt (Cls dash_dot_space))
      (rep 4 (Cls is_digit)))))))).

(** [\d{3}-\d{2}-\d{4}] *)
Definition ssn_core : regex :=
  Seq (rep 3 (Cls is_digit))
 (Seq (chr_is "-")
 (Seq (rep 2 (Cls is_digit))
 (Seq (chr_is "-")
      (rep 4 (Cls is_digit))))).

(** Each pattern is its core between two [\b]. *)
Definition bounded (core : regex) : regex := Seq Bnd (Seq core Bnd).

(** [self.pii_patterns] (lines 66-71), in the insertion order of the dict,
    which is the order [items()] yields. *)
Definition pii_patterns : list (str * regex) :=
  [ (lit "email",       bounded email_core);
    (lit "credit_card", bounded credit_card_core);
    (lit "phone",       bounded phone_core);
    (lit "ssn",         bounded ssn_core) ].

(** [f'[{pii_type.upper()}_REMOVED]'] *)
Definition placeholder (pii_type : str) : str :=
  lit "[" ++ upper pii_type ++ lit "_REMOVED]".

(** The body of [for pii_type, pattern in self.pii_patterns.items()]
    (lines 246-249), on the document alone. *)
Definition redact_one (doc : str) (entry : str * regex) : str :=
  let matches_found := findall (snd entry) doc in
  if is_nil matches_found then doc
  else sub (snd entry) (placeholder (fst entry)) doc.

(** The body of [for doc in documents] of [remove_pii] (lines 242-251). *)
Definition remove_pii_doc (doc : str) : str :=
  fold_left redact_one pii_patterns doc.

(** ** The cleaner object, its statistics and its methods *)

(** The eight counters of [self.stats]. *)
Record Stats : Type := mkStats {
  initial_docs : nat;
  initial_tokens : nat;
  after_language_detection : nat;
  after_html_cleaning : nat;
  after_deduplication : nat;
  after_pii_removal : nat;
  after_ngram_removal : nat;
  final_tokens : nat
}.

(** The attributes [__init__] sets.  [pii_patterns] is the same table for
    every cleaner and no method assigns it, so it stays the constant above.
    The threshold is a Python float; the model keeps it as a rational. *)
Record DataCleaner : Type := mkDataCleaner {
  similarity_threshold : Q;
  target_languages : list str;
  stats : Stats
}.

Inductive exn : Type :=
| ValueError (msg : str).

(** How a call ends: it returns a value or raises. *)
Inductive outcome (A : Type) : Type :=
| Returned (a : A)
| Raised (e : exn).

Arguments Returned {A} a.
Arguments Raised {A} e.

(** A method reads and updates [self] and returns or raises; what it wrote
    before raising stays written. *)
Definition method (A : Type) : Type := DataCleaner -> outcome A * DataCleaner.

Definition ret {A} (a : A) : method A := fun self => (Returned a, self).

Definition bind {A B} (m : method A) (k : A -> method B) : method B :=
  fun self =>
    match m self with
    | (Returned a, self') => k a self'
    | (Raised e, self') => (Raised e, self')
    end.

Definition lift {A} (o : outcome A) : method A := fun self => (o, self).

Definition get_self : method DataCleaner := fun self => (Returned self, self).

Definition update_stats (f : Stats -> Stats) : method unit :=
  fun self =>
    (Returned tt,
     mkDataCleaner (similarity_threshold self) (target_languages self)
                   (f (stats self))).

Notation "x <- m ;; k" := (bind m (fun x => k))
  (at level 61, m at next level, right associativity).
Notation "m ;;; k" := (bind m (fun _ => k))
  (at level 61, right associativity).

Definition set_initial_docs (n : nat) (s : Stats) : Stats :=
  mkStats n (initial_tokens s) (after_language_detection s)
          (after_html_cleaning s) (after_deduplication s)
          (after_pii_removal s) (after_ngram_removal s) (final_tokens s).
Definition set_initial_tokens (n : nat) (s : Stats) : Stats :=
  mkStats (initial_docs s) n (after_language_detection s)
          (after_html_cleaning s) (after_deduplication s)
          (after_pii_removal s) (after_ngram_removal s) (final_tokens s).
Definition set_after_language_detection (n : nat) (s : Stats) : Stats :=
  mkStats (initial_docs s) (initial_tokens s) n
          (after_html_cleaning s) (after_deduplication s)
          (after_pii_removal s) (after_ngram_removal s) (final_tokens s).
Definition set_after_html_cleaning (n : nat) (s : Stats) : Stats :=
  mkStats (initial_docs s) (initial_tokens s) (after_language_detection s)
          n (after_deduplication s)
          (after_pii_removal s) (after_ngram_removal s) (final_tokens s).
Definition set_after_deduplication (n : nat) (s : Stats) : Stats :=
  mkStats (initial_docs s) (initial_tokens s) (after_language_detection s)
          (after_html_cleaning s) n
          (after_pii_removal s) (after_ngram_removal s) (final_tokens s).
Definition set_after_pii_removal (n : nat) (s : Stats) : Stats :=
  mkStats (initial_docs s) (initial_tokens s) (after_language_detection s)
          (after_html_cleaning s) (after_deduplication s)
          n (after_ngram_removal s) (final_tokens s).
Definition set_after_ngram_removal (n : nat) (s : Stats) : Stats :=
  mkStats (initial_docs s) (initial_tokens s) (after_language_detection s)
          (after_html_cleaning s) (after_deduplication s)
          (after_pii_removal s) n (final_tokens s).
Definition set_final_tokens (n : nat) (s : Stats) : Stats :=
  mkStats (initial_docs s) (initial_tokens s) (after_language_detection s)
          (after_html_cleaning s) (after_deduplication s)
          (after_pii_removal s) (after_ngram_removal s) n.

(** [DataCleaner.__init__] (lines 40-71): the two arguments are stored as
    given and the counters start at zero; nothing is checked, nothing is
    raised.  (The two [os.makedirs] calls act on the file system only.) *)
Definition __init__ (similarity_threshold : Q) (target_languages : list str)
    : outcome DataCleaner :=
  Returned (mkDataCleaner similarity_threshold target_languages
                          (mkStats 0 0 0 0 0 0 0 0)).

(** The third-party libraries the methods call. *)
Record Libs : Type := mkLibs {
  (* bs4 *)
  soup : Type;
  BeautifulSoup : str -> soup;            (* BeautifulSoup(doc, 'html.parser') *)
  get_text : soup -> str;                 (* soup.get_text() *)
  decompose_all : list str -> soup -> soup;
      (* for tag in soup(names): tag.decompose() *)
  (* langdetect: [None] stands for LangDetectException.  The detector is
     randomized, so its answer may depend on the call, numbered here by the
     position of the document in the list. *)
  detect : nat -> str -> option str;
  (* datasketch *)
  MinHash : Type;
  MinHash_new : nat -> MinHash;           (* MinHash(num_perm=...) *)
  MinHash_update : MinHash -> str -> MinHash;
      (* update(token.encode('utf8')) *)
  MinHashLSH : Type;
  MinHashLSH_new : Q -> nat -> outcome MinHashLSH;
      (* MinHashLSH(threshold=..., num_perm=...), which may raise *)
  lsh_query : MinHashLSH -> MinHash -> list str;
  lsh_insert : MinHashLSH -> str -> MinHash -> MinHashLSH
      (* insert(key, minhash); it raises on a key already present, which
         cannot happen here: see [dedup_keys_NoDup] *)
}.

(** [[x for i, x in enumerate(l, start) if f(i, x)]] *)
Fixpoint filter_indexed {A} (f : nat -> A -> bool) (start : nat) (l : list A)
    : list A :=
  match l with
  | [] => []
  | x :: tl =>
      if f start x then x :: filter_indexed f (S start) tl
      else filter_indexed f (S start) tl
  end.

Section Methods.

Variable L : Libs.

(** The body of the loop of [detect_language] (lines 116-129): whether the
    document is appended to [filtered_docs]. *)
Definition language_accepted (targets : list str) (i : nat) (doc : str)
    : bool :=
  let clean_text := get_text L (BeautifulSoup L doc) in
  if (length (strip clean_text) <? 10)%nat then false
  else match detect L i clean_text with
       | Some lang => existsb (str_eqb lang) targets
       | None => false
       end.

(** [detect_language] (lines 102-133) *)
Definition detect_language (documents : list str) : method (list str) :=
  self <- get_self ;;
  let filtered_docs :=
    filter_indexed (language_accepted (target_languages self)) 0 documents in
  update_stats (set_after_language_detection (length filtered_docs)) ;;;
  ret filtered_docs.

(** The text [clean_html] extracts from one document (lines 150-160). *)
Definition html_text (doc : str) : str :=
  let soup0 := BeautifulSoup L doc in
  let soup1 := decompose_all L [lit "script"; lit "style"] soup0 in
  strip (collapse_ws (get_text L soup1)).

(** [clean_html] (lines 135-167) *)
Definition clean_html (documents : list str) : method (list str) :=
  let cleaned_docs :=
    flat_map (fun doc => let text := html_text doc in
                         if is_nil text then [] else [text]) documents in
  update_stats (set_after_html_cleaning (length cleaned_docs)) ;;;
  ret cleaned_docs.

(** [create_minhash] (lines 169-188) *)
Definition create_minhash (text : str) (num_perm : nat) : MinHash L :=
  let tokens := split_ws (lower text) in
  fold_left (MinHash_update L) tokens (MinHash_new L num_perm).

(** [f"doc_{i}"] *)
Definition doc_id (i : nat) : str :=
  lit "doc_" ++ lit (DecimalString.NilEmpty.string_of_uint (Nat.to_uint i)).

(** The local variables of the loop of [deduplicate_minhash]. *)
Record dedup_state : Type := mkDedup {
  lsh : MinHashLSH L;
  doc_hashes : list (str * MinHash L);
  unique_docs : list str
}.

(** [d[k] = v] on a dict kept as an association list. *)
Fixpoint dict_set {V} (k : str) (v : V) (d : list (str * V))
    : list (str * V) :=
  match d with
  | [] => [(k, v)]
  | (k', v') :: rest =>
      if str_eqb k' k then (k', v) :: rest else (k', v') :: dict_set k v rest
  end.

(** The body of [for i, doc in enumerate(documents)] (lines 210-221). *)
Definition dedup_step (st : dedup_state) (i : nat) (doc : str)
    : dedup_state :=
  let minhash := create_minhash doc 128 in
  let similar_docs := lsh_query L (lsh st) minhash in
  if is_nil similar_docs
  then mkDedup (lsh_insert L (lsh st) (doc_id i) minhash)
               (dict_set (doc_id i) minhash (doc_hashes st))
               (unique_docs st ++ [doc])
  else st.

Fixpoint dedup_loop (st : dedup_state) (i : nat) (documents : list str)
    : dedup_state :=
  match documents with
  | [] => st
  | doc :: tl => dedup_loop (dedup_step st i doc) (S i) tl
  end.

(** [deduplicate_minhash] (lines 190-225) *)
Definition deduplicate_minhash (documents : list str) : method (list str) :=
  self <- get_self ;;
  index <- lift (MinHashLSH_new L (similarity_threshold self) 128) ;;
  let final := dedup_loop (mkDedup index [] []) 0 documents in
  update_stats (set_after_deduplication (length (unique_docs final))) ;;;
  ret (unique_docs final).

(** [remove_pii] (lines 227-259); the counts of [pii_counts] are only
    logged. *)
Definition remove_pii (documents : list str) : method (list str) :=
  let cleaned_docs := map remove_pii_doc documents in
  update_stats (set_after_pii_removal (length cleaned_docs)) ;;;
  ret cleaned_docs.

(** [remove_repetitive_ngrams] (lines 261-304) *)
Definition remove_repetitive_ngrams (documents : list str)
    (max_ngram threshold : Z) : method (list str) :=
  let cleaned_docs :=
    map (remove_repetitive_ngrams_doc max_ngram threshold) documents in
  update_stats (set_after_ngram_removal (length cleaned_docs)) ;;;
  ret cleaned_docs.

(** [process_pipeline] (lines 321-362) on a given list of documents; the
    compressor is called with its defaults [max_ngram=3], [threshold=3]. *)
Definition process_pipeline (input_documents : list str)
    : method (list str) :=
  let documents := input_documents in
  update_stats (set_initial_docs (length documents)) ;;;
  update_stats (set_initial_tokens (count_tokens documents)) ;;;
  documents <- detect_language documents ;;
  documents <- clean_html documents ;;
  documents <- deduplicate_minhash documents ;;
  documents <- remove_pii documents ;;
  documents <- remove_repetitive_ngrams documents 3 3 ;;
  update_stats (set_final_tokens (count_tokens documents)) ;;;
  ret documents.

End Methods.

(** ** A small instance of the libraries

    A stand-in for the three libraries that can be run: a tag stripper for
    bs4, whose text leaves script and style content out as that of bs4 does,
    a detector that answers English on any text with an ASCII lower-case
    letter, token sets compared for equality for datasketch.  It shows that
    the assumptions made on the libraries below can be met, and serves to
    run the methods on concrete documents. *)
Module Toy.

(** The strings of a document, each with the tag it stands in. *)
Definition soup : Type := list (str * str).

Definition flush (cur text : str) : soup :=
  if is_nil text then [] else [(cur, text)].

(** [intag]: reading a tag, whose name so far is [name]; [cur] is the tag the
    text being read ([text]) stands in.  A closing tag returns to the top. *)
Fixpoint parse (s : str) (intag : bool) (name cur text : str) : soup :=
  match s with
  | [] => flush cur text
  | c :: tl =>
      if intag
      then if ascii_dec c ">"
           then parse tl false []
                      (if starts_with (lit "/") name then [] else name) []
           else parse tl true (name ++ [c]) cur text
      else if ascii_dec c "<"
           then flush cur text ++ parse tl true [] cur []
           else parse tl false [] cur (text ++ [c])
  end.

Definition BeautifulSoup (doc : str) : soup := parse doc false [] [] [].

(** The tags whose strings [get_text()] leaves out (bs4 from 4.9 on keeps
    the content of script, style and template elements in string classes of
    their own, which [get_text()] skips). *)
Definition hidden_tags : list str :=
  [lit "script"; lit "style"; lit "template"].

Definition visible (e : str * str) : bool :=
  negb (existsb (str_eqb (fst e)) hidden_tags).

Definition get_text (sp : soup) : str := flat_map snd (filter visible sp).

Definition decompose_all (names : list str) (sp : soup) : soup :=
  filter (fun e => negb (existsb (str_eqb (fst e)) names)) sp.

Definition detect (_ : nat) (text : str) : option str :=
  if existsb is_lower_az text then Some (lit "en") else None.

Definition MinHash : Type := list str.

Definition MinHash_update (m : MinHash) (token : str) : MinHash :=
  if existsb (str_eqb token) m then m else m ++ [token].

Definition MinHashLSH : Type := list (str * MinHash).

Definition MinHashLSH_new (threshold : Q) (_ : nat) : outcome MinHashLSH :=
  if (Qle_bool 0 threshold && Qle_bool threshold 1)%bool
  then Returned []
  else Raised (ValueError (lit "threshold must be in [0.0, 1.0]")).

Definition minhash_eqb (a b : MinHash) : bool :=
  if list_eq_dec (list_eq_dec ascii_dec) a b then true else false.

Definition lsh_query (index : MinHashLSH) (m : MinHash) : list str :=
  map fst (filter (fun e => minhash_eqb (snd e) m) index).

Definition lsh_insert (index : MinHashLSH) (key : str) (m : MinHash)
    : MinHashLSH :=
  index ++ [(key, m)].

Definition libs : Libs :=
  mkLibs soup BeautifulSoup get_text decompose_all detect
         MinHash (fun _ => []) MinHash_update
         MinHashLSH MinHashLSH_new lsh_query lsh_insert.

End Toy.

(** ** Notions the statements use *)

(** [l1] is [l2] with some elements left out: the elements of [l1] stand in
    [l2] in the same relative order. *)
Inductive Subseq {A : Type} : list A -> list A -> Prop :=
| Subseq_nil : Subseq [] []
| Subseq_skip x l1 l2 : Subseq l1 l2 -> Subseq l1 (x :: l2)
| Subseq_take x l1 l2 : Subseq l1 l2 -> Subseq (x :: l1) (x :: l2).

(** What a method returns and the object it leaves, when run on [self]. *)
Definition result_of {A} (m : method A) (self : DataCleaner) : outcome A :=
  fst (m self).

Definition self_after {A} (m : method A) (self : DataCleaner) : DataCleaner :=
  snd (m self).

(** Number of tokens of [s] when the character before [s] is ([inword]) or is
    not part of a token: every token start counts once. *)
Fixpoint ntok (inword : bool) (s : str) : nat :=
  match s with
  | [] => 0
  | c :: tl =>
      if is_space c then ntok false tl
      else (if inword then 0 else 1) + ntok true tl
  end.

(** Whether a text read after [inword] ends inside a token. *)
Fixpoint ends_inword (inword : bool) (s : str) : bool :=
  match s with
  | [] => inword
  | c :: tl => ends_inword (negb (is_space c)) tl
  end.

(** A text that begins and ends with a character that is not a space. *)
Definition solid (s : str) : Prop :=
  match s with
  | c :: _ => is_space c = false /\ ends_inword false s = true
  | [] => False
  end.

(** A token: a non-empty text without spaces. *)
Definition is_token (t : str) : Prop :=
  t <> [] /\ forallb (fun c => negb (is_space c)) t = true.

(** ** What a pattern matches, stated without the matcher *)

(** [lang r prev x y]: the pattern [r] matches the text [x] when [prev] is
    the character before [x] and [y] the text after it. *)
Fixpoint lang (r : regex) (prev : option ascii) (x y : str) : Prop :=
  match r with
  | Eps => x = []
  | Cls p => exists c, x = [c] /\ p c = true
  | Bnd => x = [] /\ boundary prev (hd_error y) = true
  | Seq a b =>
      exists x1 x2, x = x1 ++ x2 /\ lang a prev x1 (x2 ++ y) /\
                    lang b (last_of x1 prev) x2 y
  | Opt a => lang a prev x y \/ x = []
  | Many k p => k <= length x /\ forallb p x = true
  end.

(** No match of [r] begins in [text], read after [prev]. *)
Definition no_match (r : regex) (prev : option ascii) (text : str) : Prop :=
  forall a x b, text = a ++ x ++ b -> ~ lang r (last_of a prev) x b.

(** The segments of a scan of [r]: every kept character stands where no
    match begins, every hit is a match. *)
Inductive well_scanned (r : regex) : option ascii -> list segment -> Prop :=
| ws_nil prev : well_scanned r prev []
| ws_keep prev c s :
    (forall x y, c :: original s = x ++ y -> ~ lang r prev x y) ->
    well_scanned r (Some c) s ->
    well_scanned r prev (Keep c :: s)
| ws_hit prev x s :
    x <> [] ->
    lang r prev x (original s) ->
    well_scanned r (last_of x prev) s ->
    well_scanned r prev (Hit x :: s).

(** ** Static checks on patterns *)

Definition all_ascii : list ascii := map ascii_of_nat (seq 0 256).

(** Every character of the class [p] is in the class [q]. *)
Definition class_sub (p q : ascii -> bool) : bool :=
  forallb (fun c => implb (p c) (q c)) all_ascii.

Fixpoint bnd_free (r : regex) : bool :=
  match r with
  | Bnd => false
  | Seq a b => bnd_free a && bnd_free b
  | Opt a => bnd_free a
  | _ => true
  end.

(** [r] may match the empty text. *)
Fixpoint nullable (r : regex) : bool :=
  match r with
  | Eps | Bnd | Opt _ => true
  | Cls _ => false
  | Seq a b => nullable a && nullable b
  | Many k _ => (k =? 0)%nat
  end.

(** Every character [r] can read is in [q]. *)
Fixpoint chars_in (q : ascii -> bool) (r : regex) : bool :=
  match r with
  | Eps | Bnd => true
  | Cls p | Many _ p => class_sub p q
  | Seq a b => chars_in q a && chars_in q b
  | Opt a => chars_in q a
  end.

(** Every non-empty match of [r] begins with a character of [q]. *)
Fixpoint first_in (q : ascii -> bool) (r : regex) : bool :=
  match r with
  | Eps | Bnd => true
  | Cls p | Many _ p => class_sub p q
  | Seq a b => first_in q a && (if nullable a then first_in q b else true)
  | Opt a => first_in q a
  end.

(** Every non-empty match of [r] ends with a character of [q]. *)
Fixpoint last_in (q : ascii -> bool) (r : regex) : bool :=
  match r with
  | Eps | Bnd => true
  | Cls p | Many _ p => class_sub p q
  | Seq a b => last_in q b && (if nullable b then last_in q a else true)
  | Opt a => last_in q a
  end.

(** Every match of [r] has a character of [q]. *)
Fixpoint must_have (q : ascii -> bool) (r : regex) : bool :=
  match r with
  | Eps | Bnd | Opt _ => false
  | Cls p => class_sub p q
  | Seq a b => must_have q a || must_have q b
  | Many k p => (1 <=? k)%nat && class_sub p q
  end.

Definition not_space (c : ascii) : bool := negb (is_space c).
Definition not_bracket (c : ascii) : bool := negb (chr_in "[]" c).
Definition digit_or_at (c : ascii) : bool := is_digit c || chr_in "@" c.

(** What the four cores have in common: no [\b] inside, no empty match,
    no bracket read, a digit or an at sign in every match, and no space at
    either end of a match. *)
Definition good_core (core : regex) : bool :=
  bnd_free core && negb (nullable core) && chars_in not_bracket core &&
  must_have digit_or_at core &&
  first_in not_space core && last_in not_space core.

(** What the four placeholders have in common: bracketed, one token, without
    digit or at sign. *)
Definition good_placeholder (p : str) : bool :=
  match p with
  | c :: _ => chr_in "[" c
  | [] => false
  end &&
  match last_of p None with
  | Some d => chr_in "]" d
  | None => false
  end &&
  forallb (fun c => negb (digit_or_at c) && not_space c) p.

(** An entry whose pattern and placeholder pass the checks. *)
Definition good_entry (e : str * regex) : Prop :=
  exists core, snd e = bounded core /\ good_core core = true /\
               good_placeholder (placeholder (fst e)) = true.

(** The number of characters of [q] in every match of [r], when the shape of
    [r] fixes it. *)
Fixpoint count_exact (q : ascii -> bool) (r : regex) : option nat :=
  match r with
  | Eps | Bnd => Some 0
  | Cls p =>
      if class_sub p q then Some 1
      else if class_sub p (fun c => negb (q c)) then Some 0 else None
  | Seq a b =>
      match count_exact q a, count_exact q b with
      | Some m, Some n => Some (m + n)
      | _, _ => None
      end
  | Opt a =>
      match count_exact q a with
      | Some 0 => Some 0
      | _ => None
      end
  | Many _ p => if class_sub p (fun c => negb (q c)) then Some 0 else None
  end.

(** The least and, when there is one, the greatest length of a match. *)
Fixpoint min_len (r : regex) : nat :=
  match r with
  | Eps | Bnd | Opt _ => 0
  | Cls _ => 1
  | Seq a b => min_len a + min_len b
  | Many k _ => k
  end.

Fixpoint max_len (r : regex) : option nat :=
  match r with
  | Eps | Bnd => Some 0
  | Cls _ => Some 1
  | Seq a b =>
      match max_len a, max_len b with
      | Some m, Some n => Some (m + n)
      | _, _ => None
      end
  | Opt a => max_len a
  | Many _ _ => None
  end.

(** The keys under which signatures have been stored after the documents
    before position [i] are keys of positions before [i], without
    repetition. *)
Definition keys_below (L : Libs) (st : dedup_state L) (i : nat) : Prop :=
  NoDup (map fst (doc_hashes L st)) /\
  forall k, In k (map fst (doc_hashes L st)) ->
            exists j, j < i /\ k = doc_id j.

(** ** The texts the credit-card pattern matches, stated without patterns *)

(** Four digits. *)
Definition four_digits (g : str) : Prop :=
  length g = 4 /\ forallb is_digit g = true.

(** Nothing, or one hyphen or one white-space character. *)
Definition optional_separator (s : str) : Prop :=
  s = [] \/ exists c, s = [c] /\ dash_space c = true.

(** Four digits and the separator that may follow them. *)
Definition card_group (x : str) : Prop :=
  exists g s, x = g ++ s /\ four_digits g /\ optional_separator s.

(** Sixteen digits in four groups of four, each of the first three groups
    followed by at most one separator. *)
Definition card_shape (x : str) : Prop :=
  exists x1 x2 x3 g4,
    x = x1 ++ x2 ++ x3 ++ g4 /\
    card_group x1 /\ card_group x2 /\ card_group x3 /\ four_digits g4.

(** ** Keeping the first occurrence only, stated without [split] *)

(** The first occurrence of [s] in [t], from the left: the text before it
    and the text after it. *)
Fixpoint find_first (s t : str) {struct t} : option (str * str) :=
  if starts_with s t then Some ([], skipn (length s) t)
  else match t with
       | [] => None
       | c :: tl =>
           match find_first s tl with
           | Some (pre, post) => Some (c :: pre, post)
           | None => None
           end
       end.

(** [t] without the occurrences of [s], found from the left, an occurrence
    beginning only after the end of the one before; [skip] is the number of
    characters of the current occurrence still to be deleted. *)
Fixpoint delete_all_from (s t : str) (skip : nat) : str :=
  match t with
  | [] => []
  | c :: tl =>
      match skip with
      | S k => delete_all_from s tl k
      | O => if starts_with s t then delete_all_from s tl (length s - 1)
             else c :: delete_all_from s tl 0
      end
  end.

Definition delete_all (s t : str) : str := delete_all_from s t 0.

(** The document with the first occurrence of [s] kept and every later one
    deleted; the document itself when [s] does not occur. *)
Definition keep_first_only (s doc : str) : str :=
  match find_first s doc with
  | None => doc
  | Some (pre, post) => pre ++ s ++ delete_all s post
  end.

(** The texts of the n-grams that occur at least [threshold] times among
    the n-grams of [words], for n from 2 up to [max_ngram], in the order the
    passes meet them. *)
Definition frequent_phrases (max_ngram threshold : Z) (words : list str)
    : list str :=
  flat_map
    (fun n =>
       map (fun item => ngram_str_of (fst item))
           (filter (fun item => (threshold <=? Z.of_nat (snd item))%Z)
                   (count_ngrams (ngrams_of words (Z.to_nat n)))))
    (py_range 2 (max_ngram + 1)).

(** ** Notions for the further properties *)

(** Equality of n-grams is decidable. *)
Definition ngram_dec : forall a b : ngram, {a = b} + {a <> b} :=
  list_eq_dec (list_eq_dec ascii_dec).

(** [counts[g]], which is 0 for a key that is absent. *)
Fixpoint counter_get (g : ngram) (counts : Counter) : nat :=
  match counts with
  | [] => 0
  | (k, n) :: rest => if ngram_eqb k g then n else counter_get g rest
  end.

(** The least and, when there is one, the greatest number of characters of
    [q] in a match of [r]. *)
Fixpoint count_min (q : ascii -> bool) (r : regex) : nat :=
  match r with
  | Eps | Bnd | Opt _ => 0
  | Cls p => if class_sub p q then 1 else 0
  | Seq a b => count_min q a + count_min q b
  | Many k p => if class_sub p q then k else 0
  end.

Fixpoint count_max (q : ascii -> bool) (r : regex) : option nat :=
  match r with
  | Eps | Bnd => Some 0
  | Cls p => if class_sub p (fun c => negb (q c)) then Some 0 else Some 1
  | Seq a b =>
      match count_max q a, count_max q b with
      | Some m, Some n => Some (m + n)
      | _, _ => None
      end
  | Opt a => count_max q a
  | Many _ p => if class_sub p (fun c => negb (q c)) then Some 0 else None
  end.

(** What the stages after language detection make of one document that they
    keep: its extracted text, redacted, then compressed with the defaults. *)
Definition cleaned_text (L : Libs) (doc : str) : str :=
  remove_repetitive_ngrams_doc 3 3 (remove_pii_doc (html_text L doc)).

(** The signature the detector computes for a document. *)
Definition signature (L : Libs) (doc : str) : MinHash L :=
  create_minhash L doc 128.

(** The greedy pass in the words of the specification, to compare the loop
    of [deduplicate_minhash] with: [greedy_pass L index i docs out final]
    says that, going through [docs] in order from position [i] with the
    index [index], the documents accepted are [out] and the index at the end
    is [final].  A document whose query returns something is rejected and
    the index stays as it is; one whose query returns nothing is accepted
    and its signature inserted under the key of its position. *)
Inductive greedy_pass (L : Libs)
    : MinHashLSH L -> nat -> list str -> list str -> MinHashLSH L -> Prop :=
| greedy_done index i : greedy_pass L index i [] [] index
| greedy_reject index i doc docs out final :
    lsh_query L index (signature L doc) <> [] ->
    greedy_pass L index (S i) docs out final ->
    greedy_pass L index i (doc :: docs) out final
| greedy_accept index i doc docs out final :
    lsh_query L index (signature L doc) = [] ->
    greedy_pass L (lsh_insert L index (doc_id i) (signature L doc)) (S i)
                docs out final ->
    greedy_pass L index i (doc :: docs) (doc :: out) final.

(** What the loop of [deduplicate_minhash] keeps true, on an index that
    finds what was inserted: every accepted document is found by a query for
    its signature, and the signatures of the accepted documents are pairwise
    different. *)
Definition dedup_invariant (L : Libs) (st : dedup_state L) : Prop :=
  (forall d, In d (unique_docs L st) ->
             lsh_query L (lsh L st) (signature L d) <> []) /\
  NoDup (map (signature L) (unique_docs L st)).

(** The stored signatures are those of the accepted documents, in order. *)
Definition hashes_match (L : Libs) (st : dedup_state L) : Prop :=
  map snd (doc_hashes L st) = map (signature L) (unique_docs L st).

(** The documents each stage hands on, when the index is created. *)
Definition after_detect (L : Libs) (self : DataCleaner) (docs : list str)
    : list str :=
  filter_indexed (language_accepted L (target_languages self)) 0 docs.

Definition after_clean (L : Libs) (self : DataCleaner) (docs : list str)
    : list str :=
  filter (fun text => negb (is_nil text))
         (map (html_text L) (after_detect L self docs)).

Definition after_dedup (L : Libs) (self : DataCleaner) (index : MinHashLSH L)
    (docs : list str) : list str :=
  unique_docs L (dedup_loop L (mkDedup L index [] []) 0
                            (after_clean L self docs)).

Definition after_compress (L : Libs) (self : DataCleaner)
    (index : MinHashLSH L) (docs : list str) : list str :=
  map (remove_repetitive_ngrams_doc 3 3)
      (map remove_pii_doc (after_dedup L self index docs)).

(* ================================================================= *)
(** * Part II: lemmas and theorems                                    *)
(* ================================================================= *)

(** ** Lists and strings *)

Lemma starts_with_app (p r : str) : starts_with p (p ++ r) = true.
Proof.
  induction p as [|a p IH]; simpl; [reflexivity|].
  destruct (ascii_dec a a); [exact IH | congruence].
Qed.

Lemma starts_with_inv (p s : str) :
  starts_with p s = true -> exists r, s = p ++ r.
Proof.
  revert s; induction p as [|a p IH]; intros s H.
  - exists s; reflexivity.
  - destruct s as [|b s]; simpl in H; [discriminate|].
    destruct (ascii_dec a b) as [->|]; [|discriminate].
    destruct (IH _ H) as [r ->]. exists r; reflexivity.
Qed.

Lemma split_sep_from_not_nil (sep cur s : str) (k : nat) :
  split_sep_from sep cur s k <> [].
Proof.
  revert cur k; induction s as [|c tl IH]; intros cur k; simpl.
  - discriminate.
  - destruct k; [|apply IH].
    destruct (starts_with sep (c :: tl)); [discriminate | apply IH].
Qed.

Lemma join_cons (sep p : str) (rest : list str) :
  rest <> [] -> join sep (p :: rest) = p ++ sep ++ join sep rest.
Proof. destruct rest; [congruence | reflexivity]. Qed.

(** Joining the pieces with the separator gives the text back. *)
Lemma join_split_sep_from (sep : str) :
  sep <> [] ->
  forall s cur k, k <= length s ->
    join sep (split_sep_from sep cur s k) = cur ++ skipn k s.
Proof.
  intros Hsep.
  induction s as [|c tl IH]; intros cur k Hk; simpl in *.
  - replace k with 0 by lia. simpl. rewrite app_nil_r. reflexivity.
  - destruct k as [|k].
    + destruct (starts_with sep (c :: tl)) eqn:Hs.
      * apply starts_with_inv in Hs. destruct Hs as [r Hr].
        rewrite join_cons by apply split_sep_from_not_nil.
        destruct sep as [|a sep']; [congruence|].
        simpl in Hr. injection Hr as -> ->.
        replace (length (a :: sep') - 1) with (length sep')
          by (simpl; lia).
        rewrite IH by (rewrite length_app; lia).
        rewrite skipn_app, Nat.sub_diag, skipn_all. reflexivity.
      * rewrite IH by lia. simpl. rewrite <- app_assoc. reflexivity.
    + apply IH. lia.
Qed.

Lemma join_split_sep (sep s : str) :
  sep <> [] -> join sep (split_sep sep s) = s.
Proof.
  intros Hsep. unfold split_sep.
  rewrite join_split_sep_from by (auto; lia). reflexivity.
Qed.

Lemma length_join_cons (sep p : str) (rest : list str) :
  length (join sep (p :: rest)) + length sep =
  length p + length (concat rest) + (length (p :: rest)) * length sep.
Proof.
  revert p; induction rest as [|q rest IH]; intros p.
  - simpl. lia.
  - rewrite join_cons by discriminate.
    rewrite !length_app. specialize (IH q).
    simpl concat. rewrite length_app. simpl length in *. lia.
Qed.

(** ** Counting tokens *)

Lemma split_ws_from_length (s cur : str) :
  length (split_ws_from cur s) =
  (if is_nil cur then 0 else 1) + ntok (negb (is_nil cur)) s.
Proof.
  revert cur; induction s as [|c tl IH]; intros cur; simpl.
  - destruct cur; reflexivity.
  - destruct (is_space c).
    + destruct cur; simpl; rewrite IH; reflexivity.
    + rewrite IH. destruct cur; simpl; reflexivity.
Qed.

Lemma token_count_ntok (s : str) : token_count s = ntok false s.
Proof. unfold token_count, split_ws. rewrite split_ws_from_length. reflexivity. Qed.

Lemma ntok_app (x y : str) (b : bool) :
  ntok b (x ++ y) = ntok b x + ntok (ends_inword b x) y.
Proof.
  revert b; induction x as [|c x IH]; intros b; simpl; [reflexivity|].
  destruct (is_space c); simpl; rewrite IH; lia.
Qed.

Lemma ends_inword_app (x y : str) (b : bool) :
  ends_inword b (x ++ y) = ends_inword (ends_inword b x) y.
Proof. revert b; induction x as [|c x IH]; intros b; simpl; auto. Qed.

Lemma ntok_inword_bounds (s : str) (b : bool) :
  ntok true s <= ntok b s /\ ntok b s <= (if b then 0 else 1) + ntok true s.
Proof.
  destruct s as [|c s]; simpl; [destruct b; lia|].
  destruct (is_space c); destruct b; lia.
Qed.

Lemma solid_ends (m : str) (b : bool) : solid m -> ends_inword b m = true.
Proof.
  destruct m as [|c m]; simpl; [tauto|]. intros [_ H]. exact H.
Qed.

Lemma solid_ntok_lower (m : str) (b : bool) :
  solid m -> (if b then 0 else 1) <= ntok b m.
Proof.
  destruct m as [|c m]; simpl; [tauto|]. intros [Hc _]. rewrite Hc.
  destruct b; lia.
Qed.

(** Taking a solid text out of a document does not add tokens. *)
Lemma ntok_remove_solid (x m y : str) (b : bool) :
  solid m -> ntok b (x ++ y) <= ntok b (x ++ m ++ y).
Proof.
  intros Hm. rewrite !ntok_app. rewrite (solid_ends _ _ Hm).
  pose proof (solid_ntok_lower _ (ends_inword b x) Hm).
  pose proof (ntok_inword_bounds y (ends_inword b x)).
  destruct (ends_inword b x); lia.
Qed.

Lemma token_ntok (p : str) (b : bool) :
  is_token p -> ntok b p = (if b then 0 else 1) /\ ends_inword b p = true.
Proof.
  intros [Hne Hall]. revert b.
  induction p as [|c p IH]; intros b; [congruence|].
  simpl in Hall. apply andb_prop in Hall. destruct Hall as [Hc Hall].
  apply negb_true_iff in Hc. simpl. rewrite Hc. simpl.
  destruct p as [|d p].
  - simpl. split; [lia | reflexivity].
  - destruct (IH ltac:(discriminate) Hall true) as [E1 E2].
    rewrite E1. split; [lia | exact E2].
Qed.

(** Replacing a solid text by a single token does not add tokens. *)
Lemma ntok_replace_solid (x m p y : str) (b : bool) :
  solid m -> is_token p -> ntok b (x ++ p ++ y) <= ntok b (x ++ m ++ y).
Proof.
  intros Hm Hp. rewrite !ntok_app. rewrite (solid_ends _ _ Hm).
  destruct (token_ntok _ (ends_inword b x) Hp) as [E1 E2]. rewrite E1, E2.
  pose proof (solid_ntok_lower _ (ends_inword b x) Hm). lia.
Qed.

Lemma ntok_concat_join (sep : str) (rest : list str) (a : str) (b : bool) :
  solid sep -> ntok b (a ++ concat rest) <= ntok b (a ++ join sep rest).
Proof.
  intros Hsep. revert a; induction rest as [|r rest IH]; intros a.
  - simpl. lia.
  - destruct rest as [|r2 rest'].
    + simpl. rewrite app_nil_r. lia.
    + rewrite join_cons by discriminate.
      change (concat (r :: r2 :: rest')) with (r ++ concat (r2 :: rest')).
      specialize (IH (a ++ r ++ sep)).
      rewrite <- !app_assoc in IH.
      etransitivity; [|exact IH].
      replace (a ++ r ++ concat (r2 :: rest'))
        with ((a ++ r) ++ concat (r2 :: rest')) by (rewrite app_assoc; reflexivity).
      replace (a ++ r ++ sep ++ concat (r2 :: rest'))
        with ((a ++ r) ++ sep ++ concat (r2 :: rest')) by (rewrite <- app_assoc; reflexivity).
      apply ntok_remove_solid. exact Hsep.
Qed.

(** One rewriting step of the compressor does not add tokens. *)
Lemma rewrite_ngram_tokens (doc s : str) :
  solid s -> token_count (rewrite_ngram doc s) <= token_count doc.
Proof.
  intros Hs. unfold rewrite_ngram.
  assert (Hne : s <> []) by (destruct s; [simpl in Hs; tauto | discriminate]).
  pose proof (join_split_sep s doc Hne) as Hj.
  destruct (split_sep s doc) as [|p0 rest] eqn:Hp; simpl; [lia|].
  destruct rest as [|p1 rest]; simpl; [lia|].
  rewrite !token_count_ntok.
  rewrite <- Hj. rewrite join_cons by discriminate.
  rewrite !(app_assoc p0 s).
  apply (ntok_concat_join s (p1 :: rest) (p0 ++ s) false Hs).
Qed.

(** ** The words and n-grams of a document *)

Lemma is_token_snoc (cur : str) (c : ascii) :
  cur = [] \/ is_token cur -> is_space c = false -> is_token (cur ++ [c]).
Proof.
  intros Hcur Hc. split.
  - destruct cur; discriminate.
  - rewrite forallb_app. simpl. rewrite Hc. simpl.
    destruct Hcur as [->|[_ H]]; [reflexivity | rewrite H; reflexivity].
Qed.

Lemma split_ws_from_tokens (s cur : str) :
  cur = [] \/ is_token cur -> Forall is_token (split_ws_from cur s).
Proof.
  revert cur; induction s as [|c tl IH]; intros cur Hcur; simpl.
  - destruct cur; simpl; [constructor|].
    destruct Hcur as [|H]; [discriminate|]. constructor; [exact H | constructor].
  - destruct (is_space c) eqn:Hc.
    + destruct cur; simpl.
      * apply IH. left; reflexivity.
      * destruct Hcur as [|H]; [discriminate|].
        constructor; [exact H|]. apply IH. left; reflexivity.
    + apply IH. right. apply is_token_snoc; assumption.
Qed.

Lemma split_ws_tokens (s : str) : Forall is_token (split_ws s).
Proof. apply split_ws_from_tokens. left; reflexivity. Qed.

Lemma slice_Forall {A} (P : A -> Prop) (l : list A) (i n : nat) :
  Forall P l -> Forall P (slice l i n).
Proof.
  intros H. unfold slice. apply Forall_forall. intros x Hx.
  rewrite Forall_forall in H. apply H.
  rewrite <- (firstn_skipn i l). apply in_or_app. right.
  rewrite <- (firstn_skipn n (skipn i l)). apply in_or_app. left. exact Hx.
Qed.

Lemma slice_length {A} (l : list A) (i n : nat) :
  i + n <= length l -> length (slice l i n) = n.
Proof.
  intros H. unfold slice. rewrite length_firstn, length_skipn. lia.
Qed.

Lemma ngrams_of_spec (words : list str) (n : nat) (g : ngram) :
  In g (ngrams_of words n) ->
  length g = n /\ forall P, Forall P words -> Forall P g.
Proof.
  unfold ngrams_of. rewrite in_map_iff. intros [i [<- Hi]].
  apply in_seq in Hi. split.
  - apply slice_length. lia.
  - intros P HP. apply slice_Forall. exact HP.
Qed.

Lemma token_solid (t : str) : is_token t -> solid t.
Proof.
  intros Ht. destruct (token_ntok t false Ht) as [_ He].
  destruct Ht as [Hne Hall]. destruct t as [|c t]; [congruence|].
  simpl in Hall. apply andb_prop in Hall. destruct Hall as [Hc _].
  apply negb_true_iff in Hc. split; assumption.
Qed.

Lemma solid_app (x y z : str) : solid x -> solid z -> solid (x ++ y ++ z).
Proof.
  intros Hx Hz. destruct x as [|c x]; [simpl in Hx; tauto|].
  destruct Hx as [Hc _]. split; [exact Hc|].
  change ((c :: x) ++ y ++ z) with ((c :: x) ++ (y ++ z)).
  rewrite !ends_inword_app. apply solid_ends. exact Hz.
Qed.

(** The text of an n-gram of tokens begins and ends with a token. *)
Lemma ngram_str_solid (g : ngram) :
  g <> [] -> Forall is_token g -> solid (ngram_str_of g).
Proof.
  unfold ngram_str_of. induction g as [|t g IH]; intros Hne Hall; [congruence|].
  inversion Hall as [|? ? Ht Hg]; subst.
  destruct g as [|t2 g].
  - simpl. apply token_solid. exact Ht.
  - rewrite join_cons by discriminate.
    apply solid_app; [apply token_solid; exact Ht|].
    apply IH; [discriminate | exact Hg].
Qed.

Lemma counter_incr_keys (k g : ngram) (c : nat) (counts : Counter) :
  In (g, c) (counter_incr k counts) ->
  g = k \/ exists c', In (g, c') counts.
Proof.
  induction counts as [|[k' n] rest IH]; simpl.
  - intros [H|[]]. injection H as <- _. left; reflexivity.
  - destruct (ngram_eqb k' k); simpl.
    + intros [H|H].
      * injection H as <- _. right. exists n. left; reflexivity.
      * right. exists c. right; exact H.
    + intros [H|H].
      * injection H as <- <-. right. exists n. left; reflexivity.
      * destruct (IH H) as [->|[c' Hc']]; [left; reflexivity|].
        right. exists c'. right; exact Hc'.
Qed.

Lemma count_ngrams_keys (grams : list ngram) (g : ngram) (c : nat) :
  In (g, c) (count_ngrams grams) -> In g grams.
Proof.
  unfold count_ngrams.
  assert (G : forall init,
             In (g, c) (fold_left (fun counts g0 => counter_incr g0 counts)
                                  grams init) ->
             In g grams \/ exists c', In (g, c') init).
  { induction grams as [|k grams IH]; intros init H; simpl in *.
    - right. exists c. exact H.
    - destruct (IH _ H) as [Hin|[c' Hc']]; [left; right; exact Hin|].
      destruct (counter_incr_keys _ _ _ _ Hc') as [->|Hex].
      + left; left; reflexivity.
      + right; exact Hex. }
  intros H. destruct (G [] H) as [Hin|[c' []]]. exact Hin.
Qed.

Lemma py_range_In (lo hi n : Z) :
  In n (py_range lo hi) -> (lo <= n < hi)%Z.
Proof.
  unfold py_range. rewrite in_map_iff. intros [k [<- Hk]].
  apply in_seq in Hk. lia.
Qed.

(** Every phrase the compressor looks for is the text of an n-gram of at
    least one token, hence begins and ends with a token. *)
Lemma frequent_ngram_solid (doc : str) (n : nat) (g : ngram) (c : nat) :
  1 <= n ->
  In (g, c) (count_ngrams (ngrams_of (split_ws doc) n)) ->
  solid (ngram_str_of g).
Proof.
  intros Hn Hin. apply count_ngrams_keys in Hin.
  apply ngrams_of_spec in Hin. destruct Hin as [Hlen Hall].
  apply ngram_str_solid.
  - destruct g; [simpl in Hlen; lia | discriminate].
  - apply Hall. apply split_ws_tokens.
Qed.

(** The separator given to [split] is never empty. *)
Lemma ngram_str_not_nil (doc : str) (n : nat) (g : ngram) (c : nat) :
  1 <= n ->
  In (g, c) (count_ngrams (ngrams_of (split_ws doc) n)) ->
  ngram_str_of g <> [].
Proof.
  intros Hn Hin. pose proof (frequent_ngram_solid doc n g c Hn Hin) as Hs.
  destruct (ngram_str_of g); [simpl in Hs; tauto | discriminate].
Qed.

Lemma fold_rewrite_tokens (threshold : Z) (items : Counter) (doc : str) :
  (forall g c, In (g, c) items -> solid (ngram_str_of g)) ->
  token_count (fold_left (rewrite_if_frequent threshold) items doc)
  <= token_count doc.
Proof.
  revert doc; induction items as [|[g c] items IH]; intros doc H; simpl.
  - lia.
  - etransitivity.
    + apply IH. intros g' c' Hin. apply (H g' c'). right; exact Hin.
    + unfold rewrite_if_frequent. simpl.
      destruct (threshold <=? Z.of_nat c)%Z; [|lia].
      apply rewrite_ngram_tokens. apply (H g c). left; reflexivity.
Qed.

Lemma compressor_tokens (max_ngram threshold : Z) (doc : str) :
  token_count (remove_repetitive_ngrams_doc max_ngram threshold doc)
  <= token_count doc.
Proof.
  unfold remove_repetitive_ngrams_doc.
  destruct (Z.of_nat (length (split_ws doc)) <? max_ngram)%Z; [lia|].
  set (words := split_ws doc).
  assert (G : forall ns d,
             (forall n, In n ns -> (2 <= n)%Z) ->
             token_count (fold_left (ngram_pass threshold words) ns d)
             <= token_count d).
  { induction ns as [|n ns IH]; intros d Hns; simpl; [lia|].
    etransitivity.
    - apply IH. intros n' Hn'. apply Hns. right; exact Hn'.
    - unfold ngram_pass. apply fold_rewrite_tokens.
      intros g c Hin. apply (frequent_ngram_solid doc (Z.to_nat n) g c).
      + specialize (Hns n (or_introl eq_refl)). lia.
      + exact Hin. }
  apply G. intros n Hn. apply py_range_In in Hn. lia.
Qed.

(** ** The matcher finds exactly the matches *)

Lemma last_of_app (x1 x2 : str) (p : option ascii) :
  last_of (x1 ++ x2) p = last_of x2 (last_of x1 p).
Proof. revert p; induction x1 as [|c x1 IH]; intros p; simpl; auto. Qed.

Lemma last_of_not_nil (x : str) (p q : option ascii) :
  x <> [] -> last_of x p = last_of x q.
Proof. destruct x; [congruence | reflexivity]. Qed.

Lemma many_splits_spec (p : ascii -> bool) (rest x y : str) :
  In (x, y) (many_splits p rest) <-> rest = x ++ y /\ forallb p x = true.
Proof.
  revert x y; induction rest as [|c tl IH]; intros x y; simpl.
  - split.
    + intros [H|[]]. injection H as <- <-. split; reflexivity.
    + intros [H _]. symmetry in H. apply app_eq_nil in H.
      destruct H as [-> ->]. left; reflexivity.
  - destruct (p c) eqn:Hc.
    + rewrite in_app_iff, in_map_iff. split.
      * intros [[[x' y'] [H Hin]]|[H|[]]].
        -- simpl in H. injection H as <- <-. apply IH in Hin.
           destruct Hin as [-> Hall]. simpl. rewrite Hc. split; auto.
        -- injection H as <- <-. split; reflexivity.
      * intros [H Hall]. destruct x as [|d x].
        -- simpl in H. subst y. right; left; reflexivity.
        -- simpl in H. injection H as <- ->. simpl in Hall.
           apply andb_prop in Hall. destruct Hall as [_ Hall].
           left. exists (x, y). split; [reflexivity|].
           apply IH. split; auto.
    + split.
      * intros [H|[]]. injection H as <- <-. split; reflexivity.
      * intros [H Hall]. destruct x as [|d x].
        -- simpl in H. subst y. left; reflexivity.
        -- simpl in H. injection H as <- ->. simpl in Hall.
           rewrite Hc in Hall. discriminate.
Qed.

(** Soundness and completeness of the list of successes. *)
Lemma matches_spec (r : regex) :
  forall prev rest x y,
    In (x, y) (matches r prev rest) <-> rest = x ++ y /\ lang r prev x y.
Proof.
  induction r as [| p | | a IHa b IHb | a IHa | k p];
    intros prev rest x y; simpl.
  - split.
    + intros [H|[]]. injection H as <- <-. split; reflexivity.
    + intros [-> ->]. left; reflexivity.
  - destruct rest as [|c tl].
    + split; [intros []|]. intros [H [c [-> _]]]. discriminate.
    + destruct (p c) eqn:Hc.
      * split.
        -- intros [H|[]]. injection H as <- <-. split; [reflexivity|].
           exists c. split; auto.
        -- intros [H [d [-> Hd]]]. simpl in H. injection H as -> ->.
           left; reflexivity.
      * split; [intros []|]. intros [H [d [-> Hd]]]. simpl in H.
        injection H as -> ->. congruence.
  - destruct (boundary prev (hd_error rest)) eqn:Hb.
    + split.
      * intros [H|[]]. injection H as <- <-. split; [reflexivity|].
        split; auto.
      * intros [-> [-> _]]. left; reflexivity.
    + split; [intros []|]. intros [-> [-> H]]. simpl in Hb. congruence.
  - rewrite in_flat_map. split.
    + intros [[x1 y1] [H1 H2]]. simpl in H2. rewrite in_map_iff in H2.
      destruct H2 as [[x2 y2] [E H2]]. simpl in E. injection E as <- <-.
      apply IHa in H1. destruct H1 as [-> La].
      apply IHb in H2. destruct H2 as [-> Lb].
      split; [rewrite app_assoc; reflexivity|].
      exists x1, x2. auto.
    + intros [-> [x1 [x2 [-> [La Lb]]]]].
      exists (x1, x2 ++ y). split.
      * apply IHa. split; [rewrite app_assoc; reflexivity | exact La].
      * simpl. rewrite in_map_iff. exists (x2, y). split; [reflexivity|].
        apply IHb. split; [reflexivity | exact Lb].
  - rewrite in_app_iff. split.
    + intros [H|[H|[]]].
      * apply IHa in H. destruct H as [-> La]. split; auto.
      * injection H as <- <-. split; auto.
    + intros [-> [La| ->]].
      * left. apply IHa. split; auto.
      * right; left; reflexivity.
  - rewrite filter_In, many_splits_spec. simpl. rewrite Nat.leb_le. tauto.
Qed.

Lemma match_here_some (r : regex) (prev : option ascii) (rest x : str) :
  match_here r prev rest = Some x ->
  exists y, rest = x ++ y /\ lang r prev x y.
Proof.
  unfold match_here. destruct (matches r prev rest) as [|[x' y] l] eqn:E;
    [discriminate|].
  intros H. injection H as ->. exists y. apply (matches_spec r prev rest x y).
  rewrite E. left; reflexivity.
Qed.

Lemma match_here_none (r : regex) (prev : option ascii) (rest : str) :
  match_here r prev rest = None ->
  forall x y, rest = x ++ y -> ~ lang r prev x y.
Proof.
  unfold match_here. destruct (matches r prev rest) as [|[x' y'] l] eqn:E;
    [|discriminate].
  intros _ x y Hr Hl.
  assert (H : In (x, y) (matches r prev rest)) by (apply matches_spec; auto).
  rewrite E in H. exact H.
Qed.

Lemma no_lang_match_here (r : regex) (prev : option ascii) (rest : str) :
  (forall x y, rest = x ++ y -> ~ lang r prev x y) ->
  match_here r prev rest = None.
Proof.
  intros H. unfold match_here.
  destruct (matches r prev rest) as [|[x y] l] eqn:E; [reflexivity|].
  exfalso. assert (Hin : In (x, y) (matches r prev rest))
    by (rewrite E; left; reflexivity).
  apply matches_spec in Hin. destruct Hin as [Hr Hl]. exact (H x y Hr Hl).
Qed.

(** ** The static checks are sound *)

Lemma all_ascii_complete (c : ascii) : In c all_ascii.
Proof.
  unfold all_ascii. rewrite in_map_iff. exists (nat_of_ascii c). split.
  - apply ascii_nat_embedding.
  - apply in_seq. pose proof (nat_ascii_bounded c). lia.
Qed.

Lemma class_sub_spec (p q : ascii -> bool) (c : ascii) :
  class_sub p q = true -> p c = true -> q c = true.
Proof.
  unfold class_sub. rewrite forallb_forall. intros H Hp.
  specialize (H c (all_ascii_complete c)). rewrite Hp in H. exact H.
Qed.

Lemma class_sub_forallb (p q : ascii -> bool) (x : str) :
  class_sub p q = true -> forallb p x = true -> forallb q x = true.
Proof.
  intros H. rewrite !forallb_forall. intros Hp c Hc.
  apply (class_sub_spec p q c H). apply Hp. exact Hc.
Qed.

(** A pattern without [\b] does not look at the text around the match. *)
Lemma lang_bnd_free (r : regex) :
  bnd_free r = true ->
  forall prev x y prev' y', lang r prev x y -> lang r prev' x y'.
Proof.
  induction r as [| p | | a IHa b IHb | a IHa | k p]; simpl; intros Hf;
    try discriminate; intros prev x y prev' y' H; auto.
  - apply andb_prop in Hf. destruct Hf as [Ha Hb].
    destruct H as [x1 [x2 [-> [La Lb]]]]. exists x1, x2.
    split; [reflexivity|]. split.
    + exact (IHa Ha _ _ _ _ _ La).
    + exact (IHb Hb _ _ _ _ _ Lb).
  - destruct H as [H| ->]; [left | right; reflexivity].
    exact (IHa Hf _ _ _ _ _ H).
Qed.

Lemma nullable_false (r : regex) :
  nullable r = false -> forall prev x y, lang r prev x y -> x <> [].
Proof.
  induction r as [| p | | a IHa b IHb | a IHa | k p]; simpl; intros Hn;
    try discriminate; intros prev x y H.
  - destruct H as [c [-> _]]. discriminate.
  - destruct H as [x1 [x2 [-> [La Lb]]]]. intros E.
    apply app_eq_nil in E. destruct E as [-> ->].
    apply andb_false_iff in Hn. destruct Hn as [Hn|Hn].
    + exact (IHa Hn _ _ _ La eq_refl).
    + exact (IHb Hn _ _ _ Lb eq_refl).
  - destruct H as [Hk _]. apply Nat.eqb_neq in Hn.
    destruct x; [simpl in Hk; lia | discriminate].
Qed.

Lemma chars_in_spec (q : ascii -> bool) (r : regex) :
  chars_in q r = true ->
  forall prev x y, lang r prev x y -> forallb q x = true.
Proof.
  induction r as [| p | | a IHa b IHb | a IHa | k p]; simpl; intros Hq;
    intros prev x y H.
  - subst x; reflexivity.
  - destruct H as [c [-> Hc]]. simpl.
    rewrite (class_sub_spec p q c Hq Hc). reflexivity.
  - destruct H as [-> _]; reflexivity.
  - apply andb_prop in Hq. destruct Hq as [Ha Hb].
    destruct H as [x1 [x2 [-> [La Lb]]]]. rewrite forallb_app.
    rewrite (IHa Ha _ _ _ La), (IHb Hb _ _ _ Lb). reflexivity.
  - destruct H as [H| ->]; [|reflexivity]. exact (IHa Hq _ _ _ H).
  - destruct H as [_ H]. exact (class_sub_forallb p q x Hq H).
Qed.

Lemma first_in_spec (q : ascii -> bool) (r : regex) :
  first_in q r = true ->
  forall prev c x y, lang r prev (c :: x) y -> q c = true.
Proof.
  induction r as [| p | | a IHa b IHb | a IHa | k p]; simpl; intros Hq;
    intros prev c x y H.
  - discriminate.
  - destruct H as [d [E Hd]]. injection E as -> ->.
    exact (class_sub_spec p q d Hq Hd).
  - destruct H as [E _]; discriminate.
  - apply andb_prop in Hq. destruct Hq as [Ha Hb].
    destruct H as [x1 [x2 [E [La Lb]]]].
    destruct x1 as [|d x1].
    + simpl in E. subst x2.
      destruct (nullable a) eqn:Hn.
      * exact (IHb Hb _ _ _ _ Lb).
      * exfalso. exact (nullable_false a Hn _ _ _ La eq_refl).
    + simpl in E. injection E as -> ->. exact (IHa Ha _ _ _ _ La).
  - destruct H as [H|E]; [|discriminate]. exact (IHa Hq _ _ _ _ H).
  - destruct H as [_ H]. simpl in H. apply andb_prop in H.
    destruct H as [Hc _]. exact (class_sub_spec p q c Hq Hc).
Qed.

Lemma last_of_forallb (q : ascii -> bool) (x : str) (p : option ascii)
    (c : ascii) :
  x <> [] -> forallb q x = true -> last_of x p = Some c -> q c = true.
Proof.
  revert p; induction x as [|d x IH]; intros p Hne Hall Hl; [congruence|].
  simpl in *. apply andb_prop in Hall. destruct Hall as [Hd Hall].
  destruct x as [|e x].
  - simpl in Hl. injection Hl as <-. exact Hd.
  - apply (IH (Some d)); [discriminate | exact Hall | exact Hl].
Qed.

Lemma last_in_spec (q : ascii -> bool) (r : regex) :
  last_in q r = true ->
  forall prev x y c, lang r prev x y -> x <> [] ->
                     last_of x None = Some c -> q c = true.
Proof.
  induction r as [| p | | a IHa b IHb | a IHa | k p]; simpl; intros Hq;
    intros prev x y c H Hne Hl.
  - congruence.
  - destruct H as [d [-> Hd]]. simpl in Hl. injection Hl as <-.
    exact (class_sub_spec p q d Hq Hd).
  - destruct H as [-> _]; congruence.
  - apply andb_prop in Hq. destruct Hq as [Hb Ha].
    destruct H as [x1 [x2 [-> [La Lb]]]].
    rewrite last_of_app in Hl.
    destruct x2 as [|d x2].
    + simpl in Hl. rewrite app_nil_r in Hne.
      destruct (nullable b) eqn:Hn.
      * exact (IHa Ha _ _ _ _ La Hne Hl).
      * exfalso. exact (nullable_false b Hn _ _ _ Lb eq_refl).
    + apply (IHb Hb _ _ _ _ Lb); [discriminate | exact Hl].
  - destruct H as [H| ->]; [|congruence]. exact (IHa Hq _ _ _ _ H Hne Hl).
  - destruct H as [_ H].
    exact (last_of_forallb q x None c Hne (class_sub_forallb p q x Hq H) Hl).
Qed.

Lemma must_have_spec (q : ascii -> bool) (r : regex) :
  must_have q r = true ->
  forall prev x y, lang r prev x y -> existsb q x = true.
Proof.
  induction r as [| p | | a IHa b IHb | a IHa | k p]; simpl; intros Hq;
    try discriminate; intros prev x y H.
  - destruct H as [c [-> Hc]]. simpl.
    rewrite (class_sub_spec p q c Hq Hc). reflexivity.
  - destruct H as [x1 [x2 [-> [La Lb]]]]. rewrite existsb_app.
    apply orb_prop in Hq. destruct Hq as [Hq|Hq].
    + rewrite (IHa Hq _ _ _ La). reflexivity.
    + rewrite (IHb Hq _ _ _ Lb). apply orb_true_r.
  - apply andb_prop in Hq. destruct Hq as [Hk Hs].
    assert (Hk1 : 1 <= k) by (destruct k; [discriminate | lia]).
    destruct H as [Hlen H].
    destruct x as [|c x]; [simpl in Hlen; lia|].
    simpl in *. apply andb_prop in H. destruct H as [Hc _].
    rewrite (class_sub_spec p q c Hs Hc). reflexivity.
Qed.

(** ** Patterns of the form [\b core \b] *)

Lemma hd_error_app_not_nil {A} (x y : list A) :
  x <> [] -> hd_error (x ++ y) = hd_error x.
Proof. destruct x; [congruence | reflexivity]. Qed.

Lemma lang_bounded (core : regex) (prev : option ascii) (x y : str) :
  bnd_free core = true -> nullable core = false ->
  (lang (bounded core) prev x y <->
   lang core None x [] /\
   boundary prev (hd_error x) = true /\
   boundary (last_of x prev) (hd_error y) = true).
Proof.
  intros Hf Hn. unfold bounded. simpl. split.
  - intros [x1 [x2 [-> [[-> Hb1] [x3 [x4 [-> [Lc [-> Hb2]]]]]]]]].
    simpl in *. rewrite app_nil_r in *.
    assert (Hne : x3 <> []) by exact (nullable_false core Hn _ _ _ Lc).
    rewrite hd_error_app_not_nil in Hb1 by exact Hne.
    split; [exact (lang_bnd_free core Hf _ _ _ None [] Lc)|]. auto.
  - intros [Lc [Hb1 Hb2]].
    assert (Hne : x <> []) by exact (nullable_false core Hn _ _ _ Lc).
    exists [], x. split; [reflexivity|]. split.
    + split; [reflexivity|]. rewrite hd_error_app_not_nil by exact Hne.
      exact Hb1.
    + exists x, []. split; [rewrite app_nil_r; reflexivity|]. split.
      * exact (lang_bnd_free core Hf _ _ _ prev ([] ++ y) Lc).
      * split; [reflexivity | exact Hb2].
Qed.

Lemma bounded_not_nil (core : regex) (prev : option ascii) (x y : str) :
  bnd_free core = true -> nullable core = false ->
  lang (bounded core) prev x y -> x <> [].
Proof.
  intros Hf Hn H. apply (lang_bounded core prev x y Hf Hn) in H.
  destruct H as [Lc _]. exact (nullable_false core Hn _ _ _ Lc).
Qed.

(** ** The scan *)

Lemma scan_cons (r : regex) (prev : option ascii) (c : ascii) (tl : str) :
  scan r prev (c :: tl) 0 =
  match match_here r prev (c :: tl) with
  | Some (_ :: x') => Hit (c :: x') :: scan r (Some c) tl (length x')
  | _ => Keep c :: scan r (Some c) tl 0
  end.
Proof. reflexivity. Qed.

Lemma scan_skip (r : regex) (x y : str) (p : option ascii) :
  scan r p (x ++ y) (length x) = scan r (last_of x p) y 0.
Proof.
  revert p; induction x as [|c x IH]; intros p; simpl.
  - destruct y; reflexivity.
  - apply IH.
Qed.

Lemma original_app (s1 s2 : list segment) :
  original (s1 ++ s2) = original s1 ++ original s2.
Proof. unfold original. apply flat_map_app. Qed.

Lemma original_keeps (x : str) : original (map Keep x) = x.
Proof.
  induction x as [|c x IH]; simpl; [reflexivity | rewrite IH; reflexivity].
Qed.

(** The scan of a pattern that never matches the empty text cuts the text
    into kept characters, where nothing matches, and matches. *)
Lemma scan_well_scanned (r : regex) :
  (forall prev x y, lang r prev x y -> x <> []) ->
  forall n rest prev, length rest <= n ->
    well_scanned r prev (scan r prev rest 0) /\
    original (scan r prev rest 0) = rest.
Proof.
  intros Hne. induction n as [|n IH]; intros rest prev Hlen.
  - destruct rest; [|simpl in Hlen; lia]. split; [constructor | reflexivity].
  - destruct rest as [|c tl]; [split; [constructor | reflexivity]|].
    simpl in Hlen. rewrite scan_cons.
    destruct (match_here r prev (c :: tl)) as [[|d x']|] eqn:Hm.
    + exfalso. apply match_here_some in Hm. destruct Hm as [y [_ Hl]].
      exact (Hne _ _ _ Hl eq_refl).
    + apply match_here_some in Hm. destruct Hm as [y [E Hl]].
      simpl in E. injection E as <- ->.
      rewrite scan_skip.
      destruct (IH y (last_of x' (Some c))) as [Hw Ho].
      { rewrite length_app in Hlen. lia. }
      split.
      * apply ws_hit; [discriminate | rewrite Ho; exact Hl | exact Hw].
      * simpl. rewrite Ho. reflexivity.
    + destruct (IH tl (Some c)) as [Hw Ho]; [lia|].
      split.
      * apply ws_keep; [|exact Hw]. rewrite Ho.
        exact (match_here_none r prev (c :: tl) Hm).
      * simpl. rewrite Ho. reflexivity.
Qed.

Lemma well_scanned_app (r : regex) (s1 s2 : list segment) :
  forall prev, well_scanned r prev (s1 ++ s2) ->
               well_scanned r (last_of (original s1) prev) s2.
Proof.
  induction s1 as [|sg s1 IH]; intros prev H; [exact H|].
  simpl in H. inversion H as [|? c s Hk Hw|? x s Hx Hl Hw]; subst.
  - simpl. apply IH. exact Hw.
  - simpl. rewrite last_of_app. apply IH. exact Hw.
Qed.

(** Where nothing matches, the scan keeps every character. *)
Lemma scan_no_match (r : regex) (text : str) :
  forall prev, no_match r prev text -> scan r prev text 0 = map Keep text.
Proof.
  induction text as [|c tl IH]; intros prev Hno; [reflexivity|].
  rewrite scan_cons.
  rewrite (no_lang_match_here r prev (c :: tl)).
  - simpl. f_equal. apply IH. intros a x b E.
    apply (Hno (c :: a) x b). simpl. rewrite E. reflexivity.
  - intros x y E. apply (Hno [] x y). exact E.
Qed.

(** ** Matches in a redacted text *)

Lemma chr_in_open (c : ascii) : chr_in "[" c = true -> not_bracket c = false.
Proof.
  unfold chr_in, lit. cbn [list_ascii_of_string existsb].
  destruct (ascii_dec "[" c) as [<-|]; [reflexivity | discriminate].
Qed.

Lemma chr_in_close (c : ascii) : chr_in "]" c = true -> not_bracket c = false.
Proof.
  unfold chr_in, lit. cbn [list_ascii_of_string existsb].
  destruct (ascii_dec "]" c) as [<-|]; [reflexivity | discriminate].
Qed.

Lemma good_core_parts (core : regex) :
  good_core core = true ->
  bnd_free core = true /\ nullable core = false /\
  chars_in not_bracket core = true /\ must_have digit_or_at core = true /\
  first_in not_space core = true /\ last_in not_space core = true.
Proof.
  unfold good_core. intros H.
  repeat (apply andb_prop in H; destruct H as [H ?]).
  apply negb_true_iff in H4. auto 10.
Qed.

Section Transfer.

Variables (core core' : regex) (P : str).
Hypothesis Hcore : good_core core = true.
Hypothesis Hcore' : good_core core' = true.
Hypothesis HP : good_placeholder P = true.

Lemma placeholder_parts :
  exists c P' d, P = c :: P' /\ not_bracket c = false /\
                 last_of P None = Some d /\ not_bracket d = false /\
                 forallb (fun c => negb (digit_or_at c) && not_space c) P = true.
Proof.
  unfold good_placeholder in HP.
  apply andb_prop in HP. destruct HP as [H12 H3].
  apply andb_prop in H12. destruct H12 as [H1 H2].
  destruct P as [|c P']; [discriminate|].
  destruct (last_of (c :: P') None) as [d|] eqn:Hl; [|discriminate].
  exists c, P', d. repeat split; auto using chr_in_open, chr_in_close.
Qed.

(** A text without brackets that begins where a segment begins runs over
    kept characters only. *)
Lemma keep_run (x : str) :
  forallb not_bracket x = true ->
  forall segs b, render P segs = x ++ b ->
    exists s2, segs = map Keep x ++ s2 /\ render P s2 = b.
Proof.
  destruct placeholder_parts as [c0 [P' [d0 [EP [Hc0 _]]]]].
  induction x as [|c x IH]; intros Hx segs b E.
  - exists segs. split; [reflexivity | exact E].
  - simpl in Hx. apply andb_prop in Hx. destruct Hx as [Hc Hx].
    destruct segs as [|[d|m] s]; simpl in E.
    + discriminate.
    + injection E as -> E. destruct (IH Hx s b E) as [s2 [-> Hs2]].
      exists s2. split; [reflexivity | exact Hs2].
    + rewrite EP in E. simpl in E. injection E as -> _. congruence.
Qed.

Lemma hit_boundaries (prev : option ascii) (m : str) (s : list segment) :
  well_scanned (bounded core') prev (Hit m :: s) ->
  boundary prev (hd_error (original (Hit m :: s))) = true /\
  boundary (last_of m prev) (hd_error (original s)) = true.
Proof.
  destruct (good_core_parts core' Hcore') as [Hf [Hn _]].
  intros H. inversion H as [| |? x s' Hx Hl Hw]; subst.
  apply (lang_bounded core' prev m (original s) Hf Hn) in Hl.
  destruct Hl as [_ [B1 B2]]. split; [|exact B2].
  simpl. rewrite hd_error_app_not_nil by exact Hx. exact B1.
Qed.

(** A match of [core] that begins where a segment of the scan of [core']
    begins was a match of the scanned text already. *)
Lemma transfer_here (segs : list segment) (prevT prevO : option ascii)
    (x b : str) :
  well_scanned (bounded core') prevT segs ->
  prevO = prevT \/ boundary prevT (hd_error (original segs)) = true ->
  render P segs = x ++ b ->
  lang (bounded core) prevO x b ->
  exists s2, segs = map Keep x ++ s2 /\
             lang (bounded core) prevT x (original s2).
Proof.
  destruct (good_core_parts core Hcore) as [Hf [Hn [Hch _]]].
  intros Hw Hrel E Hl.
  apply (lang_bounded core prevO x b Hf Hn) in Hl.
  destruct Hl as [Lc [B1 B2]].
  assert (Hne : x <> []) by exact (nullable_false core Hn _ _ _ Lc).
  destruct (keep_run x (chars_in_spec _ _ Hch _ _ _ Lc) segs b E)
    as [s2 [-> Hb]].
  exists s2. split; [reflexivity|].
  apply (lang_bounded core prevT x (original s2) Hf Hn).
  split; [exact Lc|]. split.
  - destruct Hrel as [->|Hrel]; [exact B1|].
    rewrite original_app, original_keeps in Hrel.
    rewrite hd_error_app_not_nil in Hrel by exact Hne. exact Hrel.
  - rewrite (last_of_not_nil x prevT prevO Hne).
    apply well_scanned_app in Hw. rewrite original_keeps in Hw.
    destruct s2 as [|[d|m] s3].
    + simpl in Hb. subst b. exact B2.
    + simpl in Hb. subst b. exact B2.
    + apply hit_boundaries in Hw. destruct Hw as [Hw _].
      rewrite (last_of_not_nil x prevO prevT Hne). exact Hw.
Qed.

Lemma placeholder_overlap (a l x b R : str) :
  P = a ++ l -> l <> [] -> x ++ b = l ++ R ->
  lang core None x [] -> False.
Proof.
  destruct (good_core_parts core Hcore) as [Hf [Hn [Hch [Hmh _]]]].
  destruct placeholder_parts as [c0 [P' [d0 [_ [_ [Hl0 [Hd0 Hall]]]]]]].
  intros EP Hl E Lc.
  pose proof (chars_in_spec _ _ Hch _ _ _ Lc) as Hx.
  pose proof (must_have_spec _ _ Hmh _ _ _ Lc) as Hex.
  apply app_eq_app in E. destruct E as [l2 [[E1 E2]|[E1 E2]]].
  - (* the placeholder ends inside the match *)
    subst x. rewrite forallb_app in Hx. apply andb_prop in Hx.
    destruct Hx as [Hx _].
    rewrite EP, last_of_app in Hl0.
    rewrite (last_of_not_nil l _ None Hl) in Hl0.
    pose proof (last_of_forallb not_bracket l None d0 Hl Hx Hl0). congruence.
  - (* the match lies inside the placeholder *)
    subst l. rewrite EP in Hall. rewrite !forallb_app in Hall.
    apply andb_prop in Hall. destruct Hall as [_ Hall].
    apply andb_prop in Hall. destruct Hall as [Hall _].
    apply existsb_exists in Hex. destruct Hex as [c [Hin Hc]].
    rewrite forallb_forall in Hall. specialize (Hall c Hin).
    rewrite Hc in Hall. discriminate.
Qed.

(** Every match of [core] in the text redacted for [core'] was a match in
    the text before, over characters the scan kept. *)
Lemma transfer (segs : list segment) :
  forall prevT prevO a x b,
    well_scanned (bounded core') prevT segs ->
    prevO = prevT \/ boundary prevT (hd_error (original segs)) = true ->
    render P segs = a ++ x ++ b ->
    lang (bounded core) (last_of a prevO) x b ->
    exists s1 s2, segs = s1 ++ map Keep x ++ s2 /\
                  lang (bounded core) (last_of (original s1) prevT) x
                       (original s2).
Proof.
  destruct (good_core_parts core Hcore) as [Hf [Hn _]].
  induction segs as [|sg s IH]; intros prevT prevO a x b Hw Hrel E Hl.
  - exfalso. simpl in E. symmetry in E. apply app_eq_nil in E.
    destruct E as [_ E]. apply app_eq_nil in E. destruct E as [-> _].
    exact (bounded_not_nil core _ _ _ Hf Hn Hl eq_refl).
  - destruct a as [|d a].
    { simpl in E, Hl.
      destruct (transfer_here (sg :: s) prevT prevO x b Hw Hrel E Hl)
        as [s2 [Es Hl2]].
      exists [], s2. split; [exact Es | exact Hl2]. }
    destruct sg as [c|m].
    + simpl in E. injection E as <- E.
      inversion Hw as [|? ? ? Hk Hw'|]; subst.
      destruct (IH (Some c) (Some c) a x b Hw' (or_introl eq_refl) E Hl)
        as [s1 [s2 [-> Hl2]]].
      exists (Keep c :: s1), s2. split; [reflexivity | exact Hl2].
    + pose proof (hit_boundaries prevT m s Hw) as [_ HB].
      inversion Hw as [| |? ? ? Hm Hlm Hw']; subst.
      change (render P (Hit m :: s)) with (P ++ render P s) in E.
      apply app_eq_app in E. destruct E as [l [[E1 E2]|[E1 E2]]].
      * destruct l as [|e l].
        -- rewrite app_nil_r in E1. simpl in E2. rewrite <- E1 in Hl.
           destruct (transfer_here s (last_of m prevT) (last_of P prevO)
                                   x b Hw' (or_intror HB)
                                   (eq_sym E2) Hl) as [s2 [-> Hl2]].
           exists [Hit m], s2. split; [reflexivity|].
           simpl. rewrite app_nil_r. exact Hl2.
        -- exfalso.
           apply (lang_bounded core _ x b Hf Hn) in Hl.
           destruct Hl as [Lc _].
           apply (placeholder_overlap (d :: a) (e :: l) x b (render P s));
             [exact E1 | discriminate | exact E2 | exact Lc].
      * rewrite E1, last_of_app in Hl.
        destruct (IH (last_of m prevT) (last_of P prevO) l x b Hw'
                     (or_intror HB) E2 Hl) as [s1 [s2 [-> Hl2]]].
        exists (Hit m :: s1), s2. split; [reflexivity|].
        simpl. rewrite last_of_app. exact Hl2.
Qed.

(** Redacting for [core'] leaves no match of [core] that was not there. *)
Lemma sub_preserves_no_match (text : str) :
  no_match (bounded core) None text ->
  no_match (bounded core) None (sub (bounded core') P text).
Proof.
  destruct (good_core_parts core' Hcore') as [Hf' [Hn' _]].
  intros Hno a x b E Hl. unfold sub in E.
  destruct (scan_well_scanned (bounded core')
              (fun prev x y => bounded_not_nil core' prev x y Hf' Hn')
              (length text) text None (le_n _)) as [Hw Ho].
  destruct (transfer _ None None a x b Hw (or_introl eq_refl) E Hl)
    as [s1 [s2 [Es Hl2]]].
  apply (Hno (original s1) x (original s2)); [|exact Hl2].
  rewrite <- Ho, Es, !original_app, original_keeps. reflexivity.
Qed.

End Transfer.

(** Redacting for [core] leaves no match of [core]: a match in the result
    would have been a match the scan passed over. *)
Lemma sub_leaves_no_match (core : regex) (P text : str) :
  good_core core = true -> good_placeholder P = true ->
  no_match (bounded core) None (sub (bounded core) P text).
Proof.
  intros Hcore HP.
  destruct (good_core_parts core Hcore) as [Hf [Hn _]].
  intros a x b E Hl. unfold sub in E.
  destruct (scan_well_scanned (bounded core)
              (fun prev x y => bounded_not_nil core prev x y Hf Hn)
              (length text) text None (le_n _)) as [Hw Ho].
  destruct (transfer core core P Hcore Hcore HP _ None None a x b Hw
                     (or_introl eq_refl) E Hl) as [s1 [s2 [Es Hl2]]].
  pose proof (bounded_not_nil core _ _ _ Hf Hn Hl2) as Hne.
  destruct x as [|c x]; [congruence|].
  rewrite Es in Hw. apply well_scanned_app in Hw. simpl in Hw.
  inversion Hw as [|? ? ? Hk _|]; subst.
  apply (Hk (c :: x) (original s2)); [|exact Hl2].
  rewrite original_app, original_keeps. reflexivity.
Qed.

(** ** One entry of [pii_patterns] at a time *)

Lemma pii_patterns_good : Forall good_entry pii_patterns.
Proof.
  unfold pii_patterns.
  repeat (constructor;
          [eexists; split; [reflexivity|]; split; vm_compute; reflexivity|]).
  constructor.
Qed.

Lemma render_without_hit (P : str) (segs : list segment) :
  flat_map (fun sg => match sg with Hit x => [x] | Keep _ => [] end) segs = []
  -> render P segs = original segs.
Proof.
  induction segs as [|[c|x] s IH]; simpl; intros H.
  - reflexivity.
  - rewrite IH by exact H. reflexivity.
  - discriminate.
Qed.

(** The guard [if matches:] changes nothing: without a match [sub] returns
    the document as it is. *)
Lemma redact_one_sub (e : str * regex) (doc : str) :
  good_entry e ->
  redact_one doc e = sub (snd e) (placeholder (fst e)) doc.
Proof.
  intros [core [Er [Hcore _]]].
  destruct (good_core_parts core Hcore) as [Hf [Hn _]].
  unfold redact_one, findall, sub.
  destruct (flat_map _ (scan (snd e) None doc 0)) eqn:Hfa; simpl;
    [|reflexivity].
  rewrite (render_without_hit _ _ Hfa). rewrite Er.
  destruct (scan_well_scanned (bounded core)
              (fun prev x y => bounded_not_nil core prev x y Hf Hn)
              (length doc) doc None (le_n _)) as [_ Ho].
  symmetry. exact Ho.
Qed.

Lemma redact_one_no_match (e : str * regex) (doc : str) :
  no_match (snd e) None doc -> redact_one doc e = doc.
Proof.
  intros Hno. unfold redact_one, findall.
  rewrite (scan_no_match _ _ None Hno).
  replace (flat_map _ (map Keep doc)) with (@nil str); [reflexivity|].
  clear Hno. induction doc as [|c doc IH]; [reflexivity|]. simpl. exact IH.
Qed.

Lemma redact_one_establishes (e : str * regex) (doc : str) :
  good_entry e -> no_match (snd e) None (redact_one doc e).
Proof.
  intros He. rewrite (redact_one_sub e doc He).
  destruct He as [core [-> [Hcore HP]]].
  apply sub_leaves_no_match; assumption.
Qed.

Lemma redact_one_preserves (e e' : str * regex) (doc : str) :
  good_entry e -> good_entry e' ->
  no_match (snd e) None doc -> no_match (snd e) None (redact_one doc e').
Proof.
  intros He He' Hno. rewrite (redact_one_sub e' doc He').
  destruct He as [core [Er [Hcore _]]].
  destruct He' as [core' [-> [Hcore' HP']]]. rewrite Er in *.
  apply sub_preserves_no_match; assumption.
Qed.

Lemma fold_redact_preserves (e : str * regex) (es : list (str * regex)) :
  good_entry e -> Forall good_entry es ->
  forall doc, no_match (snd e) None doc ->
              no_match (snd e) None (fold_left redact_one es doc).
Proof.
  intros He Hes. induction Hes as [|e' es He' Hes IH]; intros doc Hno;
    [exact Hno|].
  simpl. apply IH. apply redact_one_preserves; assumption.
Qed.

Lemma fold_redact_establishes (es : list (str * regex)) :
  Forall good_entry es ->
  forall doc,
    Forall (fun e => no_match (snd e) None (fold_left redact_one es doc)) es.
Proof.
  intros Hes. induction Hes as [|e es He Hes IH]; intros doc; [constructor|].
  simpl. constructor.
  - apply fold_redact_preserves; [exact He | exact Hes|].
    apply redact_one_establishes. exact He.
  - apply IH.
Qed.

Lemma fold_redact_no_match (es : list (str * regex)) (doc : str) :
  Forall (fun e => no_match (snd e) None doc) es ->
  fold_left redact_one es doc = doc.
Proof.
  induction es as [|e es IH]; intros H; [reflexivity|].
  inversion H as [|? ? He Hes]; subst. simpl.
  rewrite (redact_one_no_match e doc He). apply IH. exact Hes.
Qed.

(** ** Tokens of a redacted text *)

Lemma ends_inword_last (x : str) :
  forall c, exists d, last_of x (Some c) = Some d /\
                      ends_inword (negb (is_space c)) x = negb (is_space d).
Proof.
  induction x as [|e x IH]; intros c; simpl.
  - exists c. split; reflexivity.
  - apply IH.
Qed.

Lemma core_match_solid (core : regex) (x : str) :
  good_core core = true -> lang core None x [] -> solid x.
Proof.
  intros Hcore Lc.
  destruct (good_core_parts core Hcore) as [_ [Hn [_ [_ [Hfi Hla]]]]].
  pose proof (nullable_false core Hn _ _ _ Lc) as Hne.
  destruct x as [|c x]; [congruence|]. split.
  - pose proof (first_in_spec _ _ Hfi _ _ _ _ Lc) as H.
    apply negb_true_iff in H. exact H.
  - simpl. destruct (ends_inword_last x c) as [d [Hd ->]].
    exact (last_in_spec _ _ Hla _ _ _ d Lc Hne Hd).
Qed.

Lemma good_placeholder_token (P : str) :
  good_placeholder P = true -> is_token P.
Proof.
  unfold good_placeholder. intros H.
  apply andb_prop in H. destruct H as [H12 H3].
  apply andb_prop in H12. destruct H12 as [H1 _].
  split; [destruct P; [discriminate | discriminate]|].
  rewrite forallb_forall in *. intros c Hc. specialize (H3 c Hc).
  apply andb_prop in H3. destruct H3 as [_ H3]. exact H3.
Qed.

Lemma render_tokens (core : regex) (P : str) (segs : list segment) :
  good_core core = true -> is_token P ->
  forall prev b, well_scanned (bounded core) prev segs ->
                 ntok b (render P segs) <= ntok b (original segs).
Proof.
  intros Hcore HP.
  destruct (good_core_parts core Hcore) as [Hf [Hn _]].
  induction segs as [|sg s IH]; intros prev b Hw; [simpl; lia|].
  inversion Hw as [|? c ? Hk Hw'|? x ? Hx Hl Hw']; subst.
  - simpl. specialize (IH _ false Hw') as IHf.
    specialize (IH _ true Hw') as IHt.
    destruct (is_space c); lia.
  - change (render P (Hit x :: s)) with (P ++ render P s).
    change (original (Hit x :: s)) with (x ++ original s).
    apply (lang_bounded core prev x (original s) Hf Hn) in Hl.
    destruct Hl as [Lc _].
    pose proof (core_match_solid core x Hcore Lc) as Hs.
    rewrite !ntok_app.
    destruct (token_ntok P b HP) as [E1 E2]. rewrite E1, E2.
    rewrite (solid_ends x b Hs).
    pose proof (solid_ntok_lower x b Hs).
    specialize (IH _ true Hw'). lia.
Qed.

Lemma redact_one_tokens (e : str * regex) (doc : str) :
  good_entry e -> token_count (redact_one doc e) <= token_count doc.
Proof.
  intros He. rewrite (redact_one_sub e doc He).
  destruct He as [core [-> [Hcore HP]]].
  destruct (good_core_parts core Hcore) as [Hf [Hn _]].
  destruct (scan_well_scanned (bounded core)
              (fun prev x y => bounded_not_nil core prev x y Hf Hn)
              (length doc) doc None (le_n _)) as [Hw Ho].
  rewrite !token_count_ntok. unfold sub. rewrite <- Ho at 2.
  apply (render_tokens core _ _ Hcore (good_placeholder_token _ HP) None).
  exact Hw.
Qed.

Lemma fold_redact_tokens (es : list (str * regex)) :
  Forall good_entry es ->
  forall doc, token_count (fold_left redact_one es doc) <= token_count doc.
Proof.
  intros Hes. induction Hes as [|e es He Hes IH]; intros doc; simpl; [lia|].
  etransitivity; [apply IH|]. apply redact_one_tokens. exact He.
Qed.

(* ================================================================= *)
(** * The claims                                                      *)
(* ================================================================= *)

(** ** The PII redactor *)

(** C3 (as the code has it).  Each entry of [pii_patterns] replaces every
    match of its pattern by [[NAME_REMOVED]], where NAME is the key of the
    entry in upper case; on the input
    "Contact me at john@example.com or 555-123-4567" the redactor produces
    "Contact me at [EMAIL_REMOVED] or [PHONE_REMOVED]". *)
Theorem remove_pii_placeholders :
  Forall (fun e => forall doc,
            redact_one doc e =
            sub (snd e) (lit "[" ++ upper (fst e) ++ lit "_REMOVED]") doc)
         pii_patterns /\
  remove_pii_doc (lit "Contact me at john@example.com or 555-123-4567") =
  lit "Contact me at [EMAIL_REMOVED] or [PHONE_REMOVED]".
Proof.
  split.
  - pose proof pii_patterns_good as H.
    rewrite Forall_forall in *. intros e He doc.
    exact (redact_one_sub e doc (H e He)).
  - vm_compute. reflexivity.
Qed.

(** C3 fails as stated: the output for the example of the specification is
    not "Contact me at [EMAIL] or [PHONE]". *)
Lemma remove_pii_example_not_short_placeholders :
  remove_pii_doc (lit "Contact me at john@example.com or 555-123-4567") <>
  lit "Contact me at [EMAIL] or [PHONE]".
Proof. vm_compute. discriminate. Qed.

(** C7.  The redactor is idempotent: redacting its own output changes
    nothing, and no pattern of [pii_patterns] finds a match in that output
    (in particular none in the placeholders it wrote). *)
Theorem remove_pii_idempotent (doc : str) :
  remove_pii_doc (remove_pii_doc doc) = remove_pii_doc doc /\
  Forall (fun e => findall (snd e) (remove_pii_doc doc) = []) pii_patterns.
Proof.
  pose proof (fold_redact_establishes pii_patterns pii_patterns_good doc)
    as Hno.
  split.
  - unfold remove_pii_doc at 1. apply fold_redact_no_match. exact Hno.
  - rewrite Forall_forall in *. intros e He. specialize (Hno e He).
    fold (remove_pii_doc doc) in Hno. unfold findall.
    rewrite (scan_no_match _ _ None Hno).
    generalize (remove_pii_doc doc). intros t.
    induction t as [|c t IH]; [reflexivity | exact IH].
Qed.

(** C8.  Neither the redactor nor the compressor adds tokens: the number of
    whitespace-separated tokens of the output is at most that of the input
    document, for the compressor with any window and any threshold. *)
Theorem token_count_not_increased (doc : str) :
  token_count (remove_pii_doc doc) <= token_count doc /\
  forall max_ngram threshold,
    token_count (remove_repetitive_ngrams_doc max_ngram threshold doc)
    <= token_count doc.
Proof.
  split.
  - apply fold_redact_tokens. exact pii_patterns_good.
  - intros. apply compressor_tokens.
Qed.

(** ** The repetition compressor *)

(** C4 fails as stated: in "a b x a b y a b z" the phrase "a b" occurs three
    times with other text in between, and the compressor deletes the second
    and the third occurrence. *)
Lemma non_adjacent_repetitions_are_removed :
  remove_repetitive_ngrams_doc 3 3 (lit "a b x a b y a b z") =
  lit "a b x  y  z" /\
  remove_repetitive_ngrams_doc 3 3 (lit "a b x a b y a b z") <>
  lit "a b x a b y a b z".
Proof. split; vm_compute; [reflexivity | discriminate]. Qed.

Lemma fold_left_flat_map {A B C : Type} (f : A -> B -> A) (g : C -> list B)
    (l : list C) (a : A) :
  fold_left f (flat_map g l) a =
  fold_left (fun acc c => fold_left f (g c) acc) l a.
Proof.
  revert a; induction l as [|c l IH]; intros a; simpl; [reflexivity|].
  rewrite fold_left_app. apply IH.
Qed.

(** C5 (as the code has it).  The words of the document are computed once,
    before the first pass: the phrases of all passes, and the order they are
    rewritten in, are those of the n-grams of the original document, for n
    from 2 up to the window. *)
Theorem ngram_counts_from_original_words (max_ngram threshold : Z)
    (doc : str) :
  remove_repetitive_ngrams_doc max_ngram threshold doc =
  if (Z.of_nat (length (split_ws doc)) <? max_ngram)%Z then doc
  else fold_left (rewrite_if_frequent threshold)
         (flat_map (fun n => count_ngrams
                               (ngrams_of (split_ws doc) (Z.to_nat n)))
                   (py_range 2 (max_ngram + 1)))
         doc.
Proof.
  unfold remove_repetitive_ngrams_doc.
  destruct (Z.of_nat (length (split_ws doc)) <? max_ngram)%Z; [reflexivity|].
  rewrite fold_left_flat_map. reflexivity.
Qed.

(** C5 fails as stated: on this document the pass for n = 3 of the code,
    which counts over the original words, rewrites nothing, while a pass
    that tokenizes the text left by the pass for n = 2 finds "p xy r" three
    times and rewrites. *)
Lemma later_pass_counts_original_words :
  remove_repetitive_ngrams_doc 3 3
    (lit "a b a b a b p xy r p xa by r p xa by r") =
  lit "a b   p xy r p xy r p xy r" /\
  remove_repetitive_ngrams_doc_retokenizing 3 3
    (lit "a b a b a b p xy r p xa by r p xa by r") =
  lit "a b   p xy r  ".
Proof. split; vm_compute; reflexivity. Qed.

(** ** The credit-card pattern *)

Lemma filter_none {A} (f : A -> bool) (l : list A) :
  forallb (fun c => negb (f c)) l = true -> filter f l = [].
Proof.
  induction l as [|c l IH]; simpl; [reflexivity|]. intros H.
  apply andb_prop in H. destruct H as [Hc Hl].
  apply negb_true_iff in Hc. rewrite Hc. apply IH. exact Hl.
Qed.

Lemma count_exact_spec (q : ascii -> bool) (r : regex) :
  forall n, count_exact q r = Some n ->
  forall prev x y, lang r prev x y -> length (filter q x) = n.
Proof.
  induction r as [| p | | a IHa b IHb | a IHa | k p]; simpl; intros n Hn;
    intros prev x y H.
  - injection Hn as <-. subst x. reflexivity.
  - destruct H as [c [-> Hc]]. simpl.
    destruct (class_sub p q) eqn:E1.
    + injection Hn as <-. rewrite (class_sub_spec p q c E1 Hc). reflexivity.
    + destruct (class_sub p (fun c => negb (q c))) eqn:E2; [|discriminate].
      injection Hn as <-.
      pose proof (class_sub_spec p _ c E2 Hc) as Hq.
      apply negb_true_iff in Hq. rewrite Hq. reflexivity.
  - injection Hn as <-. destruct H as [-> _]. reflexivity.
  - destruct (count_exact q a) as [m|]; [|discriminate].
    destruct (count_exact q b) as [m'|]; [|discriminate].
    injection Hn as <-. destruct H as [x1 [x2 [-> [La Lb]]]].
    rewrite filter_app, length_app.
    rewrite (IHa m eq_refl _ _ _ La), (IHb m' eq_refl _ _ _ Lb). reflexivity.
  - destruct (count_exact q a) as [[|m]|]; try discriminate.
    injection Hn as <-. destruct H as [H| ->]; [|reflexivity].
    exact (IHa 0 eq_refl _ _ _ H).
  - destruct (class_sub p (fun c => negb (q c))) eqn:E; [|discriminate].
    injection Hn as <-. destruct H as [_ H].
    rewrite filter_none; [reflexivity|].
    exact (class_sub_forallb p _ x E H).
Qed.

Lemma len_bounds (r : regex) :
  forall prev x y, lang r prev x y ->
    min_len r <= length x /\ forall m, max_len r = Some m -> length x <= m.
Proof.
  induction r as [| p | | a IHa b IHb | a IHa | k p]; simpl;
    intros prev x y H.
  - subst x. split; [lia|]. intros m Hm. simpl. lia.
  - destruct H as [c [-> _]]. split; [simpl; lia|].
    intros m Hm. injection Hm as <-. simpl. lia.
  - destruct H as [-> _]. split; [lia|]. intros m Hm. simpl. lia.
  - destruct H as [x1 [x2 [-> [La Lb]]]].
    destruct (IHa _ _ _ La) as [A1 A2]. destruct (IHb _ _ _ Lb) as [B1 B2].
    rewrite length_app. split; [lia|]. intros m Hm.
    destruct (max_len a) as [ma|]; [|discriminate].
    destruct (max_len b) as [mb|]; [|discriminate].
    injection Hm as <-. specialize (A2 ma eq_refl).
    specialize (B2 mb eq_refl). lia.
  - split; [lia|]. intros m Hm. destruct H as [H| ->]; [|simpl; lia].
    destruct (IHa _ _ _ H) as [_ A2]. exact (A2 m Hm).
  - destruct H as [Hk _]. split; [exact Hk | discriminate].
Qed.

Lemma well_scanned_hit_lang (r : regex) (segs : list segment) (x : str) :
  forall prev, well_scanned r prev segs -> In (Hit x) segs ->
               exists p y, lang r p x y.
Proof.
  induction segs as [|sg s IH]; intros prev Hw Hin; [destruct Hin|].
  inversion Hw as [|? c ? Hk Hw'|? m ? Hm Hl Hw']; subst.
  - destruct Hin as [E|Hin]; [discriminate|]. exact (IH _ Hw' Hin).
  - destruct Hin as [E|Hin]; [|exact (IH _ Hw' Hin)].
    injection E as ->. exists prev, (original s). exact Hl.
Qed.

Lemma findall_hit (r : regex) (doc x : str) :
  In x (findall r doc) -> In (Hit x) (scan r None doc 0).
Proof.
  unfold findall. rewrite in_flat_map. intros [[c|m] [Hin Hx]].
  - destruct Hx.
  - destruct Hx as [->|[]]. exact Hin.
Qed.

(** Every match the scan of an entry of [pii_patterns] finds is a match of
    the core of the entry, and is not empty. *)
Lemma findall_core (core : regex) (doc x : str) :
  bnd_free core = true -> nullable core = false ->
  In x (findall (bounded core) doc) -> lang core None x [].
Proof.
  intros Hf Hn Hin. apply findall_hit in Hin.
  destruct (scan_well_scanned (bounded core)
              (fun prev x y => bounded_not_nil core prev x y Hf Hn)
              (length doc) doc None (le_n _)) as [Hw _].
  destruct (well_scanned_hit_lang _ _ x None Hw Hin) as [p [y Hl]].
  apply (lang_bounded core p x y Hf Hn) in Hl. tauto.
Qed.

(** None of the four patterns matches the empty text. *)
Lemma pii_match_not_nil (e : str * regex) (prev : option ascii) (x y : str) :
  In e pii_patterns -> lang (snd e) prev x y -> x <> [].
Proof.
  intros He Hl. pose proof pii_patterns_good as H.
  rewrite Forall_forall in H. destruct (H e He) as [core [Er [Hcore _]]].
  destruct (good_core_parts core Hcore) as [Hf [Hn _]].
  rewrite Er in Hl. exact (bounded_not_nil core prev x y Hf Hn Hl).
Qed.

(** C6 fails as stated: an ungrouped run of 12 digits and one of 19 digits
    are not matched by the credit-card pattern, and the redactor leaves
    them as they are. *)
Lemma twelve_and_nineteen_digit_runs_not_redacted :
  findall (bounded credit_card_core) (lit "card 123456789012 end") = [] /\
  findall (bounded credit_card_core) (lit "card 1234567890123456789 end") = []
  /\
  remove_pii_doc (lit "card 123456789012 end") =
  lit "card 123456789012 end" /\
  remove_pii_doc (lit "card 1234567890123456789 end") =
  lit "card 1234567890123456789 end".
Proof. repeat split; vm_compute; reflexivity. Qed.

(** ** The stages on lists of documents *)

Lemma filter_indexed_Subseq {A} (f : nat -> A -> bool) (l : list A) :
  forall start, Subseq (filter_indexed f start l) l.
Proof.
  induction l as [|x l IH]; intros start; simpl; [constructor|].
  destruct (f start x); constructor; apply IH.
Qed.

Lemma filter_indexed_In {A} (f : nat -> A -> bool) (l : list A) :
  forall start i x, nth_error l i = Some x -> f (start + i) x = true ->
                    In x (filter_indexed f start l).
Proof.
  induction l as [|y l IH]; intros start i x Hn Hf.
  - destruct i; discriminate.
  - destruct i as [|i]; simpl in *.
    + injection Hn as ->. rewrite Nat.add_0_r in Hf. rewrite Hf.
      left; reflexivity.
    + assert (Hin : In x (filter_indexed f (S start) l)).
      { apply (IH (S start) i x Hn).
        replace (S start + i) with (start + S i) by lia. exact Hf. }
      destruct (f start y); [right|]; exact Hin.
Qed.

Lemma detect_language_result (L : Libs) (docs : list str)
    (self : DataCleaner) :
  result_of (detect_language L docs) self =
  Returned (filter_indexed (language_accepted L (target_languages self))
                           0 docs).
Proof. reflexivity. Qed.

Lemma clean_html_result (L : Libs) (docs : list str) (self : DataCleaner) :
  result_of (clean_html L docs) self =
  Returned (filter (fun text => negb (is_nil text))
                   (map (html_text L) docs)).
Proof.
  unfold result_of, clean_html, bind, update_stats, ret. simpl. f_equal.
  induction docs as [|d docs IH]; simpl; [reflexivity|].
  destruct (html_text L d); simpl; rewrite IH; reflexivity.
Qed.

Lemma filter_Subseq {A} (f : A -> bool) (l : list A) : Subseq (filter f l) l.
Proof.
  induction l as [|x l IH]; simpl; [constructor|].
  destruct (f x); constructor; exact IH.
Qed.

(** C9.  Order preservation.  [detect_language] returns its input with some
    documents left out; [clean_html] returns the extracted texts of its
    input, in the order of the input, with the empty ones left out;
    [remove_repetitive_ngrams] rewrites each document in its place. *)
Theorem stages_preserve_order (L : Libs) (self : DataCleaner)
    (docs : list str) (max_ngram threshold : Z) :
  (exists out, result_of (detect_language L docs) self = Returned out /\
               Subseq out docs) /\
  (exists out, result_of (clean_html L docs) self = Returned out /\
               Subseq out (map (html_text L) docs)) /\
  (exists out,
     result_of (remove_repetitive_ngrams docs max_ngram threshold) self =
     Returned out /\
     length out = length docs /\
     forall i doc, nth_error docs i = Some doc ->
       nth_error out i =
       Some (remove_repetitive_ngrams_doc max_ngram threshold doc)).
Proof.
  split; [|split].
  - eexists. split; [apply detect_language_result|].
    apply filter_indexed_Subseq.
  - eexists. split; [apply clean_html_result|]. apply filter_Subseq.
  - eexists. split; [reflexivity|]. split; [apply length_map|].
    intros i doc Hi. rewrite nth_error_map, Hi. reflexivity.
Qed.

(** ** The near-duplicate detector *)

Lemma lit_inj (a b : string) : lit a = lit b -> a = b.
Proof.
  unfold lit. intros H.
  rewrite <- (string_of_list_ascii_of_string a),
          <- (string_of_list_ascii_of_string b), H. reflexivity.
Qed.

(** The key of a document tells its position. *)
Lemma doc_id_inj (i j : nat) : doc_id i = doc_id j -> i = j.
Proof.
  unfold doc_id. intros H. apply app_inv_head in H. apply lit_inj in H.
  apply DecimalNat.Unsigned.to_uint_inj.
  pose proof (DecimalString.NilEmpty.usu (Nat.to_uint i)) as Hi.
  pose proof (DecimalString.NilEmpty.usu (Nat.to_uint j)) as Hj.
  rewrite H in Hi. rewrite Hi in Hj. injection Hj as ->. reflexivity.
Qed.

Lemma str_eqb_eq (a b : str) : str_eqb a b = true <-> a = b.
Proof.
  unfold str_eqb. destruct (list_eq_dec ascii_dec a b); split; congruence.
Qed.

Lemma dict_set_keys_fresh {V} (k : str) (v : V) (d : list (str * V)) :
  ~ In k (map fst d) -> map fst (dict_set k v d) = map fst d ++ [k].
Proof.
  induction d as [|[k' v'] d IH]; simpl; intros Hk; [reflexivity|].
  destruct (str_eqb k' k) eqn:E.
  - apply str_eqb_eq in E. tauto.
  - simpl. rewrite IH by tauto. reflexivity.
Qed.

Lemma dedup_step_keys (L : Libs) (st : dedup_state L) (i : nat) (doc : str) :
  keys_below L st i -> keys_below L (dedup_step L st i doc) (S i).
Proof.
  intros [Hnd Hk]. unfold dedup_step.
  destruct (is_nil (lsh_query L (lsh L st) (create_minhash L doc 128))).
  - assert (Hfresh : ~ In (doc_id i) (map fst (doc_hashes L st))).
    { intros Hin. destruct (Hk _ Hin) as [j [Hj E]].
      apply doc_id_inj in E. lia. }
    split; simpl; rewrite (dict_set_keys_fresh _ _ _ Hfresh).
    + apply NoDup_app; [exact Hnd | constructor; [intros [] | constructor]|].
      intros k Hin [<-|[]]. exact (Hfresh Hin).
    + intros k Hin. apply in_app_or in Hin. destruct Hin as [Hin|[<-|[]]].
      * destruct (Hk k Hin) as [j [Hj E]]. exists j. split; [lia | exact E].
      * exists i. split; [lia | reflexivity].
  - split; [exact Hnd|]. intros k Hin.
    destruct (Hk k Hin) as [j [Hj E]]. exists j. split; [lia | exact E].
Qed.

(** No key is inserted twice, so [insert] never meets a key already in the
    index. *)
Lemma dedup_keys_NoDup (L : Libs) (index : MinHashLSH L) (docs : list str) :
  NoDup (map fst (doc_hashes L (dedup_loop L (mkDedup L index [] []) 0 docs))).
Proof.
  assert (G : forall docs st i, keys_below L st i ->
                exists n, keys_below L (dedup_loop L st i docs) n).
  { clear docs. induction docs as [|d docs IH]; intros st i H; simpl.
    - exists i. exact H.
    - apply (IH _ (S i)). apply dedup_step_keys. exact H. }
  destruct (G docs (mkDedup L index [] []) 0) as [n [H _]]; [|exact H].
  split; [constructor | intros k []].
Qed.

Lemma dedup_loop_Subseq (L : Libs) (docs : list str) :
  forall st i, exists kept,
    unique_docs L (dedup_loop L st i docs) = unique_docs L st ++ kept /\
    Subseq kept docs.
Proof.
  induction docs as [|d docs IH]; intros st i; simpl.
  - exists []. split; [rewrite app_nil_r; reflexivity | constructor].
  - destruct (IH (dedup_step L st i d) (S i)) as [kept [E Hs]].
    unfold dedup_step in *.
    destruct (is_nil (lsh_query L (lsh L st) (create_minhash L d 128))).
    + simpl in E. exists (d :: kept). split.
      * rewrite E, <- app_assoc. reflexivity.
      * apply Subseq_take. exact Hs.
    + exists kept. split; [exact E | apply Subseq_skip; exact Hs].
Qed.

Lemma is_nil_true {A} (l : list A) : is_nil l = true <-> l = [].
Proof. destruct l; simpl; split; congruence. Qed.

Lemma is_nil_false {A} (l : list A) : is_nil l = false <-> l <> [].
Proof. destruct l; simpl; split; congruence. Qed.

Lemma dedup_loop_app (L : Libs) (l1 l2 : list str) :
  forall st i,
    dedup_loop L st i (l1 ++ l2) =
    dedup_loop L (dedup_loop L st i l1) (i + length l1) l2.
Proof.
  induction l1 as [|d l1 IH]; intros st i; simpl.
  - rewrite Nat.add_0_r. reflexivity.
  - rewrite IH. f_equal. lia.
Qed.

(** The loop of [deduplicate_minhash] makes the greedy pass. *)
Lemma dedup_loop_greedy (L : Libs) (docs : list str) :
  forall st i, exists kept,
    unique_docs L (dedup_loop L st i docs) = unique_docs L st ++ kept /\
    greedy_pass L (lsh L st) i docs kept (lsh L (dedup_loop L st i docs)).
Proof.
  induction docs as [|d docs IH]; intros st i; simpl.
  - exists []. split; [rewrite app_nil_r; reflexivity | constructor].
  - destruct (IH (dedup_step L st i d) (S i)) as [kept [E Hg]].
    unfold dedup_step in *. fold (signature L d) in *.
    destruct (lsh_query L (lsh L st) (signature L d)) as [|k ks] eqn:Eq;
      simpl in *.
    + exists (d :: kept). split.
      * rewrite E, <- app_assoc. reflexivity.
      * apply greedy_accept; [exact Eq | exact Hg].
    + exists kept. split; [exact E|].
      apply greedy_reject; [rewrite Eq; discriminate | exact Hg].
Qed.

(** The greedy pass has one outcome. *)
Lemma greedy_pass_functional (L : Libs) (index : MinHashLSH L) (i : nat)
    (docs out1 out2 : list str) (final1 final2 : MinHashLSH L) :
  greedy_pass L index i docs out1 final1 ->
  greedy_pass L index i docs out2 final2 ->
  out1 = out2 /\ final1 = final2.
Proof.
  intros H1. revert out2 final2.
  induction H1 as [index i|index i doc docs out final Hq H1 IH
                   |index i doc docs out final Hq H1 IH];
    intros out2 final2 H2; inversion H2; subst.
  - split; reflexivity.
  - apply IH. assumption.
  - congruence.
  - congruence.
  - match goal with
    | H : greedy_pass L _ (S i) docs _ final2 |- _ =>
        destruct (IH _ _ H) as [-> ->]
    end.
    split; reflexivity.
Qed.

(** C2.  The detector is one greedy pass in input order.  What
    [deduplicate_minhash] returns is exactly what the greedy pass over the
    whole input accepts, starting at position 0 with the new index: every
    document, in order, is queried for; one whose query returns something is
    rejected and the index stays as it is; one whose query returns nothing
    is accepted, its signature inserted under the key of its position, which
    no other position has, and it is emitted.  The same holds of one step of
    the loop on its state (index, stored signatures, accepted documents).
    Of two equal documents in a row the second is never accepted, and the
    list of two equal documents alone comes back as the first one.  The two
    assumptions are on the index of the library: a new index answers every
    query with nothing, and a signature just inserted is found by a query
    for it. *)
Theorem deduplicate_greedy_first_occurrence (L : Libs)
    (Hnew : forall threshold n index m,
        MinHashLSH_new L threshold n = Returned index ->
        lsh_query L index m = [])
    (Hins : forall index key m,
        lsh_query L (lsh_insert L index key m) m <> []) :
  (forall self docs out,
      result_of (deduplicate_minhash L docs) self = Returned out <->
      exists index final,
        MinHashLSH_new L (similarity_threshold self) 128 = Returned index /\
        greedy_pass L index 0 docs out final) /\
  (forall st i doc,
      lsh_query L (lsh L st) (create_minhash L doc 128) <> [] ->
      dedup_step L st i doc = st) /\
  (forall st i doc,
      lsh_query L (lsh L st) (create_minhash L doc 128) = [] ->
      dedup_step L st i doc =
      mkDedup L (lsh_insert L (lsh L st) (doc_id i) (create_minhash L doc 128))
                (dict_set (doc_id i) (create_minhash L doc 128)
                          (doc_hashes L st))
                (unique_docs L st ++ [doc])) /\
  (forall i j, doc_id i = doc_id j -> i = j) /\
  (forall self docs out,
      result_of (deduplicate_minhash L docs) self = Returned out ->
      Subseq out docs) /\
  (forall pre doc post self out,
      result_of (deduplicate_minhash L (pre ++ doc :: doc :: post)) self =
      Returned out ->
      exists out_pre out_post,
        Subseq out_pre pre /\ Subseq out_post post /\
        (out = out_pre ++ out_post \/ out = out_pre ++ doc :: out_post)) /\
  (forall st i doc,
      dedup_step L (dedup_step L st i doc) (S i) doc =
      dedup_step L st i doc) /\
  (forall self index doc,
      MinHashLSH_new L (similarity_threshold self) 128 = Returned index ->
      result_of (deduplicate_minhash L [doc; doc]) self = Returned [doc]).
Proof.
  assert (Hrej : forall st i doc,
             lsh_query L (lsh L st) (create_minhash L doc 128) <> [] ->
             dedup_step L st i doc = st).
  { intros st i doc H. unfold dedup_step.
    apply is_nil_false in H. rewrite H. reflexivity. }
  assert (Hacc : forall st i doc,
             lsh_query L (lsh L st) (create_minhash L doc 128) = [] ->
             dedup_step L st i doc =
             mkDedup L (lsh_insert L (lsh L st) (doc_id i)
                                   (create_minhash L doc 128))
                     (dict_set (doc_id i) (create_minhash L doc 128)
                               (doc_hashes L st))
                     (unique_docs L st ++ [doc])).
  { intros st i doc H. unfold dedup_step. rewrite H. reflexivity. }
  assert (Htwice : forall st i doc,
             dedup_step L (dedup_step L st i doc) (S i) doc =
             dedup_step L st i doc).
  { intros st i doc. apply Hrej.
    destruct (lsh_query L (lsh L st) (create_minhash L doc 128)) eqn:E.
    - rewrite (Hacc st i doc E). simpl. apply Hins.
    - rewrite Hrej; rewrite E; discriminate. }
  assert (Hrun : forall self docs index,
             MinHashLSH_new L (similarity_threshold self) 128
             = Returned index ->
             result_of (deduplicate_minhash L docs) self =
             Returned (unique_docs L (dedup_loop L (mkDedup L index [] []) 0
                                                 docs))).
  { intros self docs index Hidx.
    unfold result_of, deduplicate_minhash, bind, get_self, lift,
      update_stats, ret. simpl. rewrite Hidx. reflexivity. }
  split; [|split; [exact Hrej|]; split; [exact Hacc|];
           split; [exact doc_id_inj|]; split; [|split; [|split]]].
  - intros self docs out. split.
    + intros H.
      destruct (MinHashLSH_new L (similarity_threshold self) 128)
        as [index|e] eqn:Hidx.
      * rewrite (Hrun self docs index Hidx) in H. injection H as <-.
        destruct (dedup_loop_greedy L docs (mkDedup L index [] []) 0)
          as [kept [E Hg]].
        exists index, (lsh L (dedup_loop L (mkDedup L index [] []) 0 docs)).
        split; [reflexivity|]. rewrite E. exact Hg.
      * exfalso. revert H.
        unfold result_of, deduplicate_minhash, bind, get_self, lift,
          update_stats, ret. simpl. rewrite Hidx. discriminate.
    + intros [index [final [Hidx Hg]]].
      rewrite (Hrun self docs index Hidx). f_equal.
      destruct (dedup_loop_greedy L docs (mkDedup L index [] []) 0)
        as [kept [E Hg']].
      rewrite E. simpl.
      destruct (greedy_pass_functional L _ _ _ _ _ _ _ Hg' Hg) as [-> _].
      reflexivity.
  - intros self docs out. unfold result_of, deduplicate_minhash, bind,
      get_self, lift, update_stats, ret. simpl.
    destruct (MinHashLSH_new L (similarity_threshold self) 128) as [index|e];
      simpl; [|discriminate].
    intros H. injection H as <-.
    destruct (dedup_loop_Subseq L docs (mkDedup L index [] []) 0)
      as [kept [E Hs]].
    rewrite E. exact Hs.
  - intros pre doc post self out H.
    destruct (MinHashLSH_new L (similarity_threshold self) 128)
      as [index|e] eqn:Hidx.
    + rewrite (Hrun self _ index Hidx) in H. injection H as <-.
      rewrite dedup_loop_app. cbn [dedup_loop]. rewrite Htwice.
      set (st1 := dedup_loop L (mkDedup L index [] []) 0 pre).
      destruct (dedup_loop_Subseq L pre (mkDedup L index [] []) 0)
        as [out_pre [E1 Hs1]].
      fold st1 in E1. simpl in E1.
      match goal with
      | |- context [dedup_loop L ?st ?k post] =>
          destruct (dedup_loop_Subseq L post st k) as [out_post [E2 Hs2]]
      end.
      rewrite E2. exists out_pre, out_post.
      split; [exact Hs1|]. split; [exact Hs2|].
      unfold dedup_step.
      destruct (is_nil (lsh_query L (lsh L st1) (create_minhash L doc 128)));
        simpl; rewrite E1.
      * right. rewrite <- app_assoc. reflexivity.
      * left. reflexivity.
    + exfalso. revert H.
      unfold result_of, deduplicate_minhash, bind, get_self, lift,
        update_stats, ret. simpl. rewrite Hidx. discriminate.
  - exact Htwice.
  - intros self index doc Hidx.
    rewrite (Hrun self _ index Hidx). simpl.
    rewrite Htwice. rewrite Hacc by (apply (Hnew _ _ _ _ Hidx)).
    reflexivity.
Qed.

Lemma Toy_new_index_empty (threshold : Q) (n : nat) (index : Toy.MinHashLSH)
    (m : Toy.MinHash) :
  Toy.MinHashLSH_new threshold n = Returned index ->
  Toy.lsh_query index m = [].
Proof.
  unfold Toy.MinHashLSH_new.
  destruct (Qle_bool 0 threshold && Qle_bool threshold 1); [|discriminate].
  intros H. injection H as <-. reflexivity.
Qed.

Lemma Toy_inserted_found (index : Toy.MinHashLSH) (key : str)
    (m : Toy.MinHash) :
  Toy.lsh_query (Toy.lsh_insert index key m) m <> [].
Proof.
  unfold Toy.lsh_query, Toy.lsh_insert. rewrite filter_app, map_app. simpl.
  unfold Toy.minhash_eqb.
  destruct (list_eq_dec (list_eq_dec ascii_dec) m m); [|congruence].
  simpl. intros H. apply app_eq_nil in H. destruct H as [_ H]. discriminate.
Qed.

Lemma deduplicate_greedy_first_occurrence_witness :
  let doc := lit "This is a clean English document without any HTML tags." in
  let self := mkDataCleaner (7 # 10) [lit "en"; lit "zh-cn"]
                            (mkStats 0 0 0 0 0 0 0 0) in
  MinHashLSH_new Toy.libs (similarity_threshold self) 128 = Returned [] /\
  result_of (deduplicate_minhash Toy.libs [doc; doc]) self = Returned [doc].
Proof.
  intros doc self.
  assert (Hidx : MinHashLSH_new Toy.libs (similarity_threshold self) 128
                 = Returned []) by reflexivity.
  split; [exact Hidx|].
  exact (proj2 (proj2 (proj2 (proj2 (proj2 (proj2 (proj2
           (deduplicate_greedy_first_occurrence Toy.libs
              Toy_new_index_empty Toy_inserted_found)))))))
           self [] doc Hidx).
Defined.

(** ** Configuration *)

Lemma py_range_empty (lo hi : Z) : (hi <= lo)%Z -> py_range lo hi = [].
Proof.
  intros H. unfold py_range. replace (Z.to_nat (hi - lo)) with 0 by lia.
  reflexivity.
Qed.

Lemma compressor_small_window (max_ngram threshold : Z) (doc : str) :
  (max_ngram < 2)%Z ->
  remove_repetitive_ngrams_doc max_ngram threshold doc = doc.
Proof.
  intros H. unfold remove_repetitive_ngrams_doc.
  destruct (Z.of_nat (length (split_ws doc)) <? max_ngram)%Z; [reflexivity|].
  rewrite py_range_empty by lia. reflexivity.
Qed.

(** C1 (as the code has it).  Nothing validates the configuration.  The
    constructor stores any threshold and any list of languages and returns;
    the window and the repetition threshold are arguments of the compressor,
    which returns for all integers and, for a window below 2, returns the
    documents as they are.  When the index of the library refuses the
    threshold, [process_pipeline] raises that error at the deduplication
    stage: language detection and HTML cleaning have processed the documents
    and written their counts by then.  When the library accepts the
    threshold, the pipeline returns. *)
Theorem configuration_is_not_validated :
  (forall threshold languages,
      __init__ threshold languages =
      Returned (mkDataCleaner threshold languages
                              (mkStats 0 0 0 0 0 0 0 0))) /\
  (forall docs max_ngram threshold self,
      result_of (remove_repetitive_ngrams docs max_ngram threshold) self =
      Returned (map (remove_repetitive_ngrams_doc max_ngram threshold) docs))
  /\
  (forall docs max_ngram threshold self,
      (max_ngram < 2)%Z ->
      result_of (remove_repetitive_ngrams docs max_ngram threshold) self =
      Returned docs) /\
  (forall L self docs e,
      MinHashLSH_new L (similarity_threshold self) 128 = Raised e ->
      let accepted :=
        filter_indexed (language_accepted L (target_languages self)) 0 docs in
      let cleaned :=
        filter (fun text => negb (is_nil text)) (map (html_text L) accepted) in
      result_of (process_pipeline L docs) self = Raised e /\
      after_language_detection
        (stats (self_after (process_pipeline L docs) self)) = length accepted
      /\
      after_html_cleaning
        (stats (self_after (process_pipeline L docs) self)) = length cleaned)
  /\
  (forall L self docs index,
      MinHashLSH_new L (similarity_threshold self) 128 = Returned index ->
      exists out, result_of (process_pipeline L docs) self = Returned out).
Proof.
  split; [reflexivity|]. split; [reflexivity|]. split; [|split].
  - intros docs max_ngram threshold self H.
    unfold result_of, remove_repetitive_ngrams, bind, update_stats, ret.
    simpl. f_equal. induction docs as [|d docs IH]; simpl; [reflexivity|].
    rewrite IH, (compressor_small_window _ _ _ H). reflexivity.
  - intros L self docs e He accepted cleaned.
    pose proof (clean_html_result L accepted
                  (mkDataCleaner (similarity_threshold self)
                                 (target_languages self)
                                 (mkStats 0 0 0 0 0 0 0 0))) as Hc.
    unfold result_of, clean_html, bind, update_stats, ret in Hc.
    simpl in Hc. injection Hc as Hc.
    unfold result_of, self_after, process_pipeline, detect_language,
      clean_html, deduplicate_minhash, bind, get_self, lift,
      update_stats, ret.
    simpl. rewrite He. simpl. fold accepted. rewrite Hc. fold cleaned.
    repeat split; reflexivity.
  - intros L self docs index Hidx.
    unfold result_of, process_pipeline, detect_language,
      clean_html, deduplicate_minhash, remove_pii, remove_repetitive_ngrams,
      bind, get_self, lift, update_stats, ret.
    simpl. rewrite Hidx. simpl. eexists. reflexivity.
Qed.

Lemma configuration_is_not_validated_witness :
  let L := Toy.libs in
  let docs := [lit "This is a clean English document.";
               lit "<script>var tracking = 1234567;</script>"] in
  let self := mkDataCleaner (3 # 2) [lit "en"] (mkStats 0 0 0 0 0 0 0 0) in
  let e := ValueError (lit "threshold must be in [0.0, 1.0]") in
  MinHashLSH_new L (similarity_threshold self) 128 = Raised e /\
  result_of (process_pipeline L docs) self = Raised e /\
  after_language_detection
    (stats (self_after (process_pipeline L docs) self)) = 1 /\
  after_html_cleaning
    (stats (self_after (process_pipeline L docs) self)) = 1.
Proof.
  intros L docs self e.
  assert (He : MinHashLSH_new L (similarity_threshold self) 128 = Raised e)
    by reflexivity.
  split; [exact He|].
  exact (proj1 (proj2 (proj2 (proj2 configuration_is_not_validated)))
           L self docs e He).
Defined.

(** C1 fails as stated: a cleaner is constructed with the threshold 3/2, and
    with the threshold 0; the compressor, given the window 2 and the
    repetition threshold 1, processes its document and returns. *)
Lemma invalid_configuration_is_accepted :
  __init__ (3 # 2) [lit "en"] =
  Returned (mkDataCleaner (3 # 2) [lit "en"] (mkStats 0 0 0 0 0 0 0 0)) /\
  __init__ 0 [lit "en"] =
  Returned (mkDataCleaner 0 [lit "en"] (mkStats 0 0 0 0 0 0 0 0)) /\
  result_of (remove_repetitive_ngrams [lit "a b a b"] 2 1)
            (mkDataCleaner (7 # 10) [lit "en"] (mkStats 0 0 0 0 0 0 0 0)) =
  Returned [lit "a b "] /\
  result_of (remove_repetitive_ngrams [lit "a b a b"] 1 1)
            (mkDataCleaner (7 # 10) [lit "en"] (mkStats 0 0 0 0 0 0 0 0)) =
  Returned [lit "a b a b"].
Proof. repeat split; vm_compute; reflexivity. Qed.

(* ================================================================= *)
(** * Further properties of the code                                  *)
(* ================================================================= *)

(** ** Subsequences and token counts *)

Lemma Subseq_refl {A} (l : list A) : Subseq l l.
Proof. induction l; [apply Subseq_nil | apply Subseq_take; assumption]. Qed.

Lemma Subseq_nil_l {A} (l : list A) : Subseq [] l.
Proof. induction l; [apply Subseq_nil | apply Subseq_skip; assumption]. Qed.

Lemma Subseq_trans {A} (l1 l2 l3 : list A) :
  Subseq l1 l2 -> Subseq l2 l3 -> Subseq l1 l3.
Proof.
  intros H12 H23. revert l1 H12.
  induction H23 as [|x l2 l3 H IH|x l2 l3 H IH]; intros l1 H12.
  - exact H12.
  - apply Subseq_skip. apply IH. exact H12.
  - inversion H12 as [|y a b H'|y a b H']; subst.
    + apply Subseq_skip. apply IH. exact H'.
    + apply Subseq_take. apply IH. exact H'.
Qed.

Lemma Subseq_map {A B} (f : A -> B) (l1 l2 : list A) :
  Subseq l1 l2 -> Subseq (map f l1) (map f l2).
Proof.
  induction 1; simpl;
    [apply Subseq_nil | apply Subseq_skip | apply Subseq_take]; assumption.
Qed.

Lemma Subseq_app {A} (a1 a2 b1 b2 : list A) :
  Subseq a1 a2 -> Subseq b1 b2 -> Subseq (a1 ++ b1) (a2 ++ b2).
Proof.
  induction 1; simpl; intros Hb;
    [exact Hb | apply Subseq_skip; auto | apply Subseq_take; auto].
Qed.

Lemma Subseq_length {A} (l1 l2 : list A) :
  Subseq l1 l2 -> length l1 <= length l2.
Proof. induction 1; simpl; lia. Qed.

Lemma Subseq_In {A} (l1 l2 : list A) (x : A) :
  Subseq l1 l2 -> In x l1 -> In x l2.
Proof.
  induction 1; simpl; intros Hin; [exact Hin | right; auto|].
  destruct Hin as [->|Hin]; [left; reflexivity | right; auto].
Qed.

Lemma count_tokens_from (docs : list str) (n : nat) :
  fold_left (fun total doc => total + token_count doc) docs n =
  n + list_sum (map token_count docs).
Proof.
  revert n; induction docs as [|d docs IH]; intros n; simpl; [lia|].
  rewrite IH. lia.
Qed.

Lemma count_tokens_sum (docs : list str) :
  count_tokens docs = list_sum (map token_count docs).
Proof. unfold count_tokens. rewrite count_tokens_from. reflexivity. Qed.

Lemma count_tokens_Subseq (l1 l2 : list str) :
  Subseq l1 l2 -> count_tokens l1 <= count_tokens l2.
Proof.
  rewrite !count_tokens_sum. induction 1; simpl; lia.
Qed.

Lemma count_tokens_map_le (f : str -> str) (docs : list str) :
  (forall d, token_count (f d) <= token_count d) ->
  count_tokens (map f docs) <= count_tokens docs.
Proof.
  intros Hf. rewrite !count_tokens_sum.
  induction docs as [|d docs IH]; simpl; [lia|]. specialize (Hf d). lia.
Qed.

(** ** A run of the pipeline, stage by stage *)

Lemma flat_map_nonempty_filter (L : Libs) (docs : list str) :
  flat_map (fun doc => if is_nil (html_text L doc) then []
                       else [html_text L doc]) docs =
  filter (fun text => negb (is_nil text)) (map (html_text L) docs).
Proof.
  induction docs as [|d docs IH]; simpl; [reflexivity|].
  destruct (html_text L d); simpl; rewrite IH; reflexivity.
Qed.

(** What a run returns and the counters it leaves, when the library accepts
    the threshold. *)
Lemma process_pipeline_run (L : Libs) (self : DataCleaner)
    (docs : list str) (index : MinHashLSH L) :
  MinHashLSH_new L (similarity_threshold self) 128 = Returned index ->
  process_pipeline L docs self =
  (Returned (after_compress L self index docs),
   mkDataCleaner (similarity_threshold self) (target_languages self)
     (mkStats (length docs) (count_tokens docs)
              (length (after_detect L self docs))
              (length (after_clean L self docs))
              (length (after_dedup L self index docs))
              (length (map remove_pii_doc (after_dedup L self index docs)))
              (length (after_compress L self index docs))
              (count_tokens (after_compress L self index docs)))).
Proof.
  intros Hidx.
  unfold process_pipeline, detect_language, clean_html, deduplicate_minhash,
    remove_pii, remove_repetitive_ngrams, bind, get_self, lift,
    update_stats, ret.
  simpl. rewrite Hidx. simpl.
  unfold after_compress, after_dedup, after_clean, after_detect.
  rewrite !flat_map_nonempty_filter. reflexivity.
Qed.

Lemma after_dedup_Subseq (L : Libs) (self : DataCleaner)
    (index : MinHashLSH L) (docs : list str) :
  Subseq (after_dedup L self index docs) (after_clean L self docs).
Proof.
  unfold after_dedup.
  destruct (dedup_loop_Subseq L (after_clean L self docs)
                              (mkDedup L index [] []) 0) as [kept [E Hs]].
  rewrite E. exact Hs.
Qed.

Lemma after_clean_Subseq (L : Libs) (self : DataCleaner) (docs : list str) :
  Subseq (after_clean L self docs) (map (html_text L) docs).
Proof.
  unfold after_clean.
  apply Subseq_trans with (map (html_text L) (after_detect L self docs)).
  - apply filter_Subseq.
  - apply Subseq_map. apply filter_indexed_Subseq.
Qed.

(** X1.  When the library accepts the threshold, a run of the pipeline
    returns, and the counters it leaves are consistent: [initial_docs] is
    the number of input documents, each of the three filtering stages
    (language detection, HTML cleaning, deduplication) passes on at most as
    many documents as it received, redaction and compression pass on
    exactly as many, the last document counter is the number of documents
    returned, and the two token counters are the token counts of the input
    and of the returned documents. *)
Theorem pipeline_counters_consistent (L : Libs) (self : DataCleaner)
    (docs : list str) (index : MinHashLSH L) :
  MinHashLSH_new L (similarity_threshold self) 128 = Returned index ->
  exists out,
    result_of (process_pipeline L docs) self = Returned out /\
    let s := stats (self_after (process_pipeline L docs) self) in
    initial_docs s = length docs /\
    after_language_detection s <= initial_docs s /\
    after_html_cleaning s <= after_language_detection s /\
    after_deduplication s <= after_html_cleaning s /\
    after_pii_removal s = after_deduplication s /\
    after_ngram_removal s = after_pii_removal s /\
    length out = after_ngram_removal s /\
    initial_tokens s = count_tokens docs /\
    final_tokens s = count_tokens out.
Proof.
  intros Hidx. exists (after_compress L self index docs).
  unfold result_of, self_after.
  rewrite (process_pipeline_run L self docs index Hidx). simpl.
  split; [reflexivity|]. split; [reflexivity|]. split.
  { apply Subseq_length. apply filter_indexed_Subseq. }
  split.
  { unfold after_clean.
    etransitivity; [apply Subseq_length, filter_Subseq|].
    rewrite length_map. apply le_n. }
  split; [apply Subseq_length, after_dedup_Subseq|].
  split; [apply length_map|].
  unfold after_compress. rewrite !length_map. repeat split; reflexivity.
Qed.

Lemma pipeline_counters_consistent_witness :
  let L := Toy.libs in
  let docs := [lit "This is a clean English document.";
               lit "<script>var tracking = 1234567;</script>";
               lit "This is a clean English document."] in
  let self := mkDataCleaner (7 # 10) [lit "en"] (mkStats 0 0 0 0 0 0 0 0) in
  MinHashLSH_new L (similarity_threshold self) 128 = Returned [] /\
  exists out,
    result_of (process_pipeline L docs) self = Returned out /\
    let s := stats (self_after (process_pipeline L docs) self) in
    initial_docs s = length docs /\
    after_language_detection s <= initial_docs s /\
    after_html_cleaning s <= after_language_detection s /\
    after_deduplication s <= after_html_cleaning s /\
    after_pii_removal s = after_deduplication s /\
    after_ngram_removal s = after_pii_removal s /\
    length out = after_ngram_removal s /\
    initial_tokens s = count_tokens docs /\
    final_tokens s = count_tokens out.
Proof.
  intros L docs self.
  assert (Hidx : MinHashLSH_new L (similarity_threshold self) 128
                 = Returned []) by reflexivity.
  split; [exact Hidx|].
  exact (pipeline_counters_consistent L self docs [] Hidx).
Defined.

(** X2.  When the library accepts the threshold, the documents a run
    returns are cleaned texts of input documents, in the order of the
    input: the returned list is the list of the cleaned texts (extracted,
    redacted, compressed) of all input documents with some left out. *)
Theorem pipeline_output_in_input_order (L : Libs) (self : DataCleaner)
    (docs : list str) (index : MinHashLSH L) :
  MinHashLSH_new L (similarity_threshold self) 128 = Returned index ->
  exists out,
    result_of (process_pipeline L docs) self = Returned out /\
    Subseq out (map (cleaned_text L) docs).
Proof.
  intros Hidx. exists (after_compress L self index docs).
  unfold result_of. rewrite (process_pipeline_run L self docs index Hidx).
  split; [reflexivity|].
  unfold after_compress.
  replace (map (cleaned_text L) docs)
    with (map (remove_repetitive_ngrams_doc 3 3)
              (map remove_pii_doc (map (html_text L) docs)))
    by (rewrite !map_map; reflexivity).
  apply Subseq_map, Subseq_map.
  apply Subseq_trans with (after_clean L self docs).
  - apply after_dedup_Subseq.
  - apply after_clean_Subseq.
Qed.

Lemma pipeline_output_in_input_order_witness :
  let L := Toy.libs in
  let docs := [lit "This is a clean English document.";
               lit "<script>var tracking = 1234567;</script>";
               lit "<p>Call me at 555-123-4567 today please</p>"] in
  let self := mkDataCleaner (7 # 10) [lit "en"] (mkStats 0 0 0 0 0 0 0 0) in
  MinHashLSH_new L (similarity_threshold self) 128 = Returned [] /\
  exists out,
    result_of (process_pipeline L docs) self = Returned out /\
    Subseq out (map (cleaned_text L) docs).
Proof.
  intros L docs self.
  assert (Hidx : MinHashLSH_new L (similarity_threshold self) 128
                 = Returned []) by reflexivity.
  split; [exact Hidx|].
  exact (pipeline_output_in_input_order L self docs [] Hidx).
Defined.

(** X3.  When the library accepts the threshold, [final_tokens] is at most
    the number of tokens of the extracted texts of the input documents:
    after HTML cleaning no stage adds a token. *)
Theorem pipeline_final_tokens_bounded (L : Libs) (self : DataCleaner)
    (docs : list str) (index : MinHashLSH L) :
  MinHashLSH_new L (similarity_threshold self) 128 = Returned index ->
  final_tokens (stats (self_after (process_pipeline L docs) self))
  <= count_tokens (map (html_text L) docs).
Proof.
  intros Hidx. unfold self_after.
  rewrite (process_pipeline_run L self docs index Hidx). simpl.
  unfold after_compress.
  etransitivity; [apply count_tokens_map_le; intros d;
                  apply compressor_tokens|].
  etransitivity; [apply count_tokens_map_le; intros d;
                  apply fold_redact_tokens, pii_patterns_good|].
  apply count_tokens_Subseq.
  apply Subseq_trans with (after_clean L self docs).
  - apply after_dedup_Subseq.
  - apply after_clean_Subseq.
Qed.

Lemma pipeline_final_tokens_bounded_witness :
  let L := Toy.libs in
  let docs := [lit "This is a clean English document.";
               lit "<p>Call me at 555 123 4567 today please</p>"] in
  let self := mkDataCleaner (7 # 10) [lit "en"] (mkStats 0 0 0 0 0 0 0 0) in
  MinHashLSH_new L (similarity_threshold self) 128 = Returned [] /\
  final_tokens (stats (self_after (process_pipeline L docs) self))
  <= count_tokens (map (html_text L) docs).
Proof.
  intros L docs self.
  assert (Hidx : MinHashLSH_new L (similarity_threshold self) 128
                 = Returned []) by reflexivity.
  split; [exact Hidx|].
  exact (pipeline_final_tokens_bounded L self docs [] Hidx).
Defined.

(** X4.  A run of the pipeline never changes the configuration of the
    cleaner: the threshold and the target languages are the same after the
    run as before, whether the run returns or raises. *)
Theorem pipeline_keeps_configuration (L : Libs) (self : DataCleaner)
    (docs : list str) :
  similarity_threshold (self_after (process_pipeline L docs) self) =
  similarity_threshold self /\
  target_languages (self_after (process_pipeline L docs) self) =
  target_languages self.
Proof.
  unfold self_after, process_pipeline, detect_language, clean_html,
    deduplicate_minhash, remove_pii, remove_repetitive_ngrams, bind,
    get_self, lift, update_stats, ret.
  simpl.
  destruct (MinHashLSH_new L (similarity_threshold self) 128);
    simpl; split; reflexivity.
Qed.

(** ** Whitespace normalization in [clean_html] *)

Lemma lit_blank : lit " " = [" "%char].
Proof. reflexivity. Qed.

Lemma is_token_not_nil (cur : str) : is_token cur -> is_nil cur = false.
Proof. intros [H _]. destruct cur; [congruence | reflexivity]. Qed.

Lemma join_blank_cons (t : str) (rest : list str) :
  rest <> [] ->
  join (lit " ") (t :: rest) = t ++ " "%char :: join (lit " ") rest.
Proof. intros H. rewrite join_cons by exact H. reflexivity. Qed.

(** Collapsing the runs of spaces gives the words joined by single blanks,
    followed by at most a run of spaces. *)
Lemma collapse_ws_from_join (s : str) :
  (exists trail, forallb is_space trail = true /\
     collapse_ws_from true s = join (lit " ") (split_ws_from [] s) ++ trail)
  /\
  (forall cur, is_token cur ->
     exists trail, forallb is_space trail = true /\
       cur ++ collapse_ws_from false s =
       join (lit " ") (split_ws_from cur s) ++ trail).
Proof.
  induction s as [|c tl [IHt IHf]].
  - split.
    + exists []. split; reflexivity.
    + intros cur Hcur. exists []. simpl.
      rewrite (is_token_not_nil cur Hcur). simpl.
      split; [reflexivity | rewrite app_nil_r; reflexivity].
  - destruct (is_space c) eqn:Hc.
    + split.
      * simpl. rewrite Hc. simpl. exact IHt.
      * intros cur Hcur. simpl. rewrite Hc.
        rewrite (is_token_not_nil cur Hcur).
        destruct IHt as [trail [Ht E]]. rewrite E.
        destruct (split_ws_from [] tl) as [|t2 rest] eqn:Es.
        -- exists (" "%char :: trail). simpl. split; [exact Ht|].
           reflexivity.
        -- exists trail. split; [exact Ht|].
           change (join [" "%char] (cur :: t2 :: rest))
             with (cur ++ [" "%char] ++ join (lit " ") (t2 :: rest)).
           rewrite <- !app_assoc. reflexivity.
    + assert (Hsnoc : forall cur, cur = [] \/ is_token cur ->
                exists trail, forallb is_space trail = true /\
                  cur ++ c :: collapse_ws_from false tl =
                  join (lit " ") (split_ws_from (cur ++ [c]) tl) ++ trail).
      { intros cur Hcur.
        destruct (IHf (cur ++ [c]) (is_token_snoc cur c Hcur Hc))
          as [trail [Ht E]].
        exists trail. split; [exact Ht|]. rewrite <- E, <- app_assoc.
        reflexivity. }
      split.
      * simpl. rewrite Hc. apply (Hsnoc []). left; reflexivity.
      * intros cur Hcur. simpl. rewrite Hc. apply Hsnoc. right; exact Hcur.
Qed.

Lemma collapse_ws_shape (s : str) :
  exists lead trail,
    forallb is_space lead = true /\ forallb is_space trail = true /\
    collapse_ws s = lead ++ join (lit " ") (split_ws s) ++ trail.
Proof.
  unfold collapse_ws, split_ws. destruct s as [|c tl].
  - exists [], []. repeat split; reflexivity.
  - destruct (collapse_ws_from_join tl) as [IHt IHf].
    simpl. destruct (is_space c) eqn:Hc.
    + destruct IHt as [trail [Ht E]]. exists [" "%char], trail.
      rewrite E. split; [reflexivity|]. split; [exact Ht | reflexivity].
    + destruct (IHf [c] (is_token_snoc [] c (or_introl eq_refl) Hc))
        as [trail [Ht E]].
      exists [], trail. simpl in E. rewrite E.
      split; [reflexivity|]. split; [exact Ht | reflexivity].
Qed.

Lemma lstrip_spaces (lead x : str) :
  forallb is_space lead = true -> lstrip (lead ++ x) = lstrip x.
Proof.
  induction lead as [|c lead IH]; simpl; intros H; [reflexivity|].
  apply andb_prop in H. destruct H as [Hc H]. rewrite Hc. apply IH. exact H.
Qed.

Lemma lstrip_all_space (x : str) : forallb is_space x = true -> lstrip x = [].
Proof.
  intros H. rewrite <- (app_nil_r x). rewrite lstrip_spaces by exact H.
  reflexivity.
Qed.

Lemma forallb_rev {A} (f : A -> bool) (l : list A) :
  forallb f l = true -> forallb f (rev l) = true.
Proof.
  rewrite !forallb_forall. intros H x Hx. apply H. apply in_rev. exact Hx.
Qed.

Lemma solid_last (m : str) :
  solid m -> exists m0 d, m = m0 ++ [d] /\ is_space d = false.
Proof.
  intros Hs. pose proof (solid_ends m false Hs) as He.
  destruct m as [|c m]; [simpl in Hs; tauto|].
  destruct (exists_last (l := c :: m)) as [m0 [d E]]; [discriminate|].
  exists m0, d. split; [exact E|].
  rewrite E, ends_inword_app in He. simpl in He.
  apply negb_true_iff in He. exact He.
Qed.

Lemma strip_shape (lead m trail : str) :
  forallb is_space lead = true -> forallb is_space trail = true ->
  m = [] \/ solid m ->
  strip (lead ++ m ++ trail) = m.
Proof.
  intros Hl Ht Hm. unfold strip, rstrip. rewrite lstrip_spaces by exact Hl.
  destruct Hm as [->|Hs].
  - simpl. rewrite (lstrip_all_space trail Ht). reflexivity.
  - destruct (solid_last m Hs) as [m0 [d [E Hd]]].
    destruct m as [|c m']; [simpl in Hs; tauto|]. destruct Hs as [Hc _].
    simpl. rewrite Hc.
    change (c :: m' ++ trail) with ((c :: m') ++ trail).
    rewrite rev_app_distr, lstrip_spaces by (apply forallb_rev; exact Ht).
    rewrite E, rev_app_distr. simpl. rewrite Hd. simpl.
    rewrite rev_involutive. reflexivity.
Qed.

Lemma join_tokens_solid (toks : list str) :
  Forall is_token toks -> join (lit " ") toks = [] \/ solid (join (lit " ") toks).
Proof.
  intros H. destruct toks as [|t toks]; [left; reflexivity|].
  right. apply (ngram_str_solid (t :: toks)); [discriminate | exact H].
Qed.

(** [re.sub(r'\s+', ' ', text).strip()] is [' '.join(text.split())]. *)
Lemma normalize_join (s : str) :
  strip (collapse_ws s) = join (lit " ") (split_ws s).
Proof.
  destruct (collapse_ws_shape s) as [lead [trail [Hl [Ht E]]]]. rewrite E.
  apply strip_shape; [exact Hl | exact Ht|].
  apply join_tokens_solid. apply split_ws_tokens.
Qed.

Lemma split_ws_from_token_app (t s cur : str) :
  forallb (fun c => negb (is_space c)) t = true ->
  split_ws_from cur (t ++ s) = split_ws_from (cur ++ t) s.
Proof.
  revert cur; induction t as [|c t IH]; intros cur H; simpl.
  - rewrite app_nil_r. reflexivity.
  - simpl in H. apply andb_prop in H. destruct H as [Hc H].
    apply negb_true_iff in Hc. rewrite Hc. rewrite IH by exact H.
    rewrite <- app_assoc. reflexivity.
Qed.

(** Splitting the words joined by blanks gives the words back. *)
Lemma split_ws_join (toks : list str) :
  Forall is_token toks -> split_ws (join (lit " ") toks) = toks.
Proof.
  unfold split_ws. induction toks as [|t toks IH]; intros H; [reflexivity|].
  inversion H as [|? ? Ht Htoks]; subst.
  destruct toks as [|t2 toks].
  - simpl. rewrite <- (app_nil_r t) at 1.
    rewrite split_ws_from_token_app by (destruct Ht; assumption).
    simpl. rewrite (is_token_not_nil t Ht). reflexivity.
  - rewrite join_blank_cons by discriminate.
    rewrite split_ws_from_token_app by (destruct Ht; assumption).
    simpl. rewrite (is_token_not_nil t Ht). f_equal. apply IH. exact Htoks.
Qed.

(** X5.  The text [clean_html] extracts from a document is the words of the
    text of the document without its script and style elements, joined by
    single blanks ([' '.join(text.split())]); in particular it has the same
    words, hence as many tokens, as that text. *)
Theorem html_text_is_words_joined (L : Libs) (doc : str) :
  let text := get_text L (decompose_all L [lit "script"; lit "style"]
                                        (BeautifulSoup L doc)) in
  html_text L doc = join (lit " ") (split_ws text) /\
  split_ws (html_text L doc) = split_ws text /\
  token_count (html_text L doc) = token_count text.
Proof.
  intros text. unfold html_text. fold text.
  rewrite normalize_join.
  assert (E : split_ws (join (lit " ") (split_ws text)) = split_ws text)
    by (apply split_ws_join, split_ws_tokens).
  split; [reflexivity|]. split; [exact E|].
  unfold token_count. rewrite E. reflexivity.
Qed.

(** X6.  Every text [clean_html] returns is normalized: it is not empty, it
    begins and ends with a character that is not a space, it has at least
    one token, its words are separated by single blanks (it is the join of
    its own words), and normalizing it again changes nothing. *)
Theorem clean_html_returns_normalized_texts (L : Libs) (self : DataCleaner)
    (docs : list str) :
  exists out,
    result_of (clean_html L docs) self = Returned out /\
    Forall (fun t => t <> [] /\ solid t /\ 1 <= token_count t /\
                     t = join (lit " ") (split_ws t) /\
                     strip (collapse_ws t) = t) out.
Proof.
  eexists. split; [apply clean_html_result|].
  apply Forall_forall. intros t Ht.
  apply filter_In in Ht. destruct Ht as [Hin Hne].
  apply in_map_iff in Hin. destruct Hin as [d [<- _]].
  unfold html_text in *.
  set (text := get_text L (decompose_all L [lit "script"; lit "style"]
                                         (BeautifulSoup L d))) in *.
  rewrite normalize_join in *.
  pose proof (split_ws_tokens text) as Htok.
  pose proof (split_ws_join (split_ws text) Htok) as E.
  assert (Hnil : join (lit " ") (split_ws text) <> [])
    by (destruct (join (lit " ") (split_ws text)); [discriminate Hne
                                                    | discriminate]).
  split; [exact Hnil|].
  split; [destruct (join_tokens_solid _ Htok); [congruence | assumption]|].
  split.
  - unfold token_count. rewrite E.
    destruct (split_ws text); [simpl in Hnil; congruence | simpl; lia].
  - split; [rewrite E; reflexivity|].
    rewrite normalize_join, E. reflexivity.
Qed.

(** ** Language detection *)

Lemma filter_indexed_In_inv {A} (f : nat -> A -> bool) (l : list A) :
  forall start x, In x (filter_indexed f start l) ->
                  exists i, nth_error l i = Some x /\ f (start + i) x = true.
Proof.
  induction l as [|y l IH]; intros start x Hin; [destruct Hin|].
  simpl in Hin. destruct (f start y) eqn:Hf.
  - destruct Hin as [->|Hin].
    + exists 0. rewrite Nat.add_0_r. split; [reflexivity | exact Hf].
    + destruct (IH _ _ Hin) as [i [Hn Hi]]. exists (S i).
      split; [exact Hn|]. replace (start + S i) with (S start + i) by lia.
      exact Hi.
  - destruct (IH _ _ Hin) as [i [Hn Hi]]. exists (S i).
    split; [exact Hn|]. replace (start + S i) with (S start + i) by lia.
    exact Hi.
Qed.

Lemma filter_indexed_false {A} (f : nat -> A -> bool) (l : list A) :
  (forall i x, f i x = false) -> forall start, filter_indexed f start l = [].
Proof.
  intros Hf. induction l as [|y l IH]; intros start; simpl; [reflexivity|].
  rewrite Hf. apply IH.
Qed.

(** X7.  [detect_language] returns only documents of the input whose text,
    stripped, has at least 10 characters and whose detected language is one
    of the target languages: a document too short, one the detector fails
    on, and one of another language are left out.  With no target language
    nothing is returned.  The counter it writes is the number of documents
    returned. *)
Theorem detect_language_keeps_only_targets (L : Libs) (self : DataCleaner)
    (docs : list str) :
  exists out,
    result_of (detect_language L docs) self = Returned out /\
    (forall d, In d out ->
       exists i lang,
         nth_error docs i = Some d /\
         10 <= length (strip (get_text L (BeautifulSoup L d))) /\
         detect L i (get_text L (BeautifulSoup L d)) = Some lang /\
         In lang (target_languages self)) /\
    (target_languages self = [] -> out = []) /\
    after_language_detection
      (stats (self_after (detect_language L docs) self)) = length out.
Proof.
  eexists. split; [apply detect_language_result|]. split; [|split].
  - intros d Hin. apply filter_indexed_In_inv in Hin.
    destruct Hin as [i [Hn Hacc]]. simpl in Hacc.
    unfold language_accepted in Hacc.
    destruct (length (strip (get_text L (BeautifulSoup L d))) <? 10) eqn:E;
      [discriminate|].
    apply Nat.ltb_ge in E.
    destruct (detect L i (get_text L (BeautifulSoup L d))) as [lang|] eqn:Hd;
      [|discriminate].
    apply existsb_exists in Hacc. destruct Hacc as [t [Ht Heq]].
    apply str_eqb_eq in Heq. subst t.
    exists i, lang. auto.
  - intros Hnone. apply filter_indexed_false. intros i x.
    unfold language_accepted. rewrite Hnone.
    destruct (length (strip (get_text L (BeautifulSoup L x))) <? 10);
      [reflexivity|].
    destruct (detect L i (get_text L (BeautifulSoup L x))); reflexivity.
  - reflexivity.
Qed.

(** ** More on the near-duplicate detector *)

Lemma signature_tokens (L : Libs) (d1 d2 : str) :
  split_ws (lower d1) = split_ws (lower d2) -> signature L d1 = signature L d2.
Proof. unfold signature, create_minhash. intros ->. reflexivity. Qed.

Lemma dedup_step_invariant (L : Libs)
    (Hins : forall index key m,
        lsh_query L (lsh_insert L index key m) m <> [])
    (Hmono : forall index key m m',
        lsh_query L index m <> [] ->
        lsh_query L (lsh_insert L index key m') m <> [])
    (st : dedup_state L) (i : nat) (doc : str) :
  dedup_invariant L st -> dedup_invariant L (dedup_step L st i doc).
Proof.
  intros [Hq Hnd]. unfold dedup_step. fold (signature L doc).
  destruct (lsh_query L (lsh L st) (signature L doc)) as [|k ks] eqn:E;
    simpl; [|split; assumption].
  split; simpl.
  - intros d Hin. apply in_app_or in Hin. destruct Hin as [Hin|[<-|[]]].
    + apply Hmono. apply Hq. exact Hin.
    + apply Hins.
  - rewrite map_app. simpl. apply NoDup_app; [exact Hnd| |].
    + constructor; [intros [] | constructor].
    + intros m Hin [<-|[]].
      apply in_map_iff in Hin. destruct Hin as [d [Hd Hin]].
      apply (Hq d Hin). rewrite Hd. exact E.
Qed.

Lemma dedup_loop_invariant (L : Libs)
    (Hins : forall index key m,
        lsh_query L (lsh_insert L index key m) m <> [])
    (Hmono : forall index key m m',
        lsh_query L index m <> [] ->
        lsh_query L (lsh_insert L index key m') m <> [])
    (docs : list str) :
  forall st i, dedup_invariant L st ->
               dedup_invariant L (dedup_loop L st i docs).
Proof.
  induction docs as [|d docs IH]; intros st i H; simpl; [exact H|].
  apply IH. apply dedup_step_invariant; assumption.
Qed.

(** X8.  On an index where a query finds a signature once it is inserted,
    also after later insertions, the documents [deduplicate_minhash] returns
    have pairwise different signatures.  Hence no two returned documents
    are equal, and no two have the same sequence of lower-cased words: a
    document that repeats an accepted one up to letter case and spacing is
    dropped. *)
Theorem deduplicate_returns_distinct_signatures (L : Libs)
    (Hins : forall index key m,
        lsh_query L (lsh_insert L index key m) m <> [])
    (Hmono : forall index key m m',
        lsh_query L index m <> [] ->
        lsh_query L (lsh_insert L index key m') m <> [])
    (self : DataCleaner) (docs out : list str) :
  result_of (deduplicate_minhash L docs) self = Returned out ->
  NoDup (map (signature L) out) /\
  NoDup (map (fun d => split_ws (lower d)) out) /\
  NoDup out.
Proof.
  unfold result_of, deduplicate_minhash, bind, get_self, lift, update_stats,
    ret. simpl.
  destruct (MinHashLSH_new L (similarity_threshold self) 128) as [index|e];
    simpl; [|discriminate].
  intros H. injection H as <-.
  destruct (dedup_loop_invariant L Hins Hmono docs (mkDedup L index [] []) 0)
    as [_ Hnd].
  { split; simpl; [intros d [] | constructor]. }
  split; [exact Hnd|]. split.
  - apply (NoDup_map_inv
             (fun toks => fold_left (MinHash_update L) toks
                                    (MinHash_new L 128))).
    rewrite map_map. exact Hnd.
  - apply (NoDup_map_inv (signature L)). exact Hnd.
Qed.

Lemma Toy_query_monotone (index : Toy.MinHashLSH) (key : str)
    (m m' : Toy.MinHash) :
  Toy.lsh_query index m <> [] ->
  Toy.lsh_query (Toy.lsh_insert index key m') m <> [].
Proof.
  unfold Toy.lsh_query, Toy.lsh_insert. rewrite filter_app, map_app.
  intros H E. apply app_eq_nil in E. destruct E as [E _]. exact (H E).
Qed.

Lemma deduplicate_returns_distinct_signatures_witness :
  let L := Toy.libs in
  let docs := [lit "This is a clean English document.";
               lit "this is  a CLEAN english document.";
               lit "Another document."] in
  let out := [lit "This is a clean English document.";
              lit "Another document."] in
  let self := mkDataCleaner (7 # 10) [lit "en"] (mkStats 0 0 0 0 0 0 0 0) in
  result_of (deduplicate_minhash L docs) self = Returned out /\
  NoDup (map (signature L) out) /\
  NoDup (map (fun d => split_ws (lower d)) out) /\
  NoDup out.
Proof.
  intros L docs out self.
  assert (H : result_of (deduplicate_minhash L docs) self = Returned out)
    by (vm_compute; reflexivity).
  split; [exact H|].
  exact (deduplicate_returns_distinct_signatures L Toy_inserted_found
           Toy_query_monotone self docs out H).
Defined.

(** X9.  On an index that answers every query with nothing when new, the
    first document of a non-empty input is always accepted: the returned
    list begins with it, followed by documents of the rest of the input in
    their order. *)
Theorem deduplicate_keeps_first_document (L : Libs)
    (Hnew : forall threshold n index m,
        MinHashLSH_new L threshold n = Returned index ->
        lsh_query L index m = [])
    (self : DataCleaner) (doc : str) (docs out : list str) :
  result_of (deduplicate_minhash L (doc :: docs)) self = Returned out ->
  exists rest, out = doc :: rest /\ Subseq rest docs.
Proof.
  unfold result_of, deduplicate_minhash, bind, get_self, lift, update_stats,
    ret. simpl.
  destruct (MinHashLSH_new L (similarity_threshold self) 128) as [index|e]
    eqn:Hidx; simpl; [|discriminate].
  intros H. injection H as <-.
  unfold dedup_step. simpl. rewrite (Hnew _ _ _ _ Hidx). simpl.
  match goal with
  | |- context [dedup_loop L ?st 1 docs] =>
      destruct (dedup_loop_Subseq L docs st 1) as [kept [E Hs]]
  end.
  rewrite E. simpl. exists kept. split; [reflexivity | exact Hs].
Qed.

Lemma deduplicate_keeps_first_document_witness :
  let L := Toy.libs in
  let doc := lit "This is a clean English document." in
  let docs := [lit "This is a clean English document.";
               lit "Another document."] in
  let self := mkDataCleaner (7 # 10) [lit "en"] (mkStats 0 0 0 0 0 0 0 0) in
  result_of (deduplicate_minhash L (doc :: docs)) self =
  Returned [doc; lit "Another document."] /\
  exists rest, [doc; lit "Another document."] = doc :: rest /\
               Subseq rest docs.
Proof.
  intros L doc docs self.
  assert (H : result_of (deduplicate_minhash L (doc :: docs)) self =
              Returned [doc; lit "Another document."])
    by (vm_compute; reflexivity).
  split; [exact H|].
  exact (deduplicate_keeps_first_document L Toy_new_index_empty self doc docs
           [doc; lit "Another document."] H).
Defined.

Lemma dict_set_fresh {V} (k : str) (v : V) (d : list (str * V)) :
  ~ In k (map fst d) -> dict_set k v d = d ++ [(k, v)].
Proof.
  induction d as [|[k' v'] d IH]; simpl; intros Hk; [reflexivity|].
  destruct (str_eqb k' k) eqn:E.
  - apply str_eqb_eq in E. tauto.
  - rewrite IH by tauto. reflexivity.
Qed.

Lemma dedup_step_hashes (L : Libs) (st : dedup_state L) (i : nat)
    (doc : str) :
  keys_below L st i -> hashes_match L st ->
  hashes_match L (dedup_step L st i doc).
Proof.
  intros [_ Hk] Hm. unfold dedup_step, hashes_match in *.
  destruct (is_nil (lsh_query L (lsh L st) (create_minhash L doc 128)));
    [|exact Hm].
  simpl. rewrite dict_set_fresh.
  - rewrite !map_app, Hm. reflexivity.
  - intros Hin. destruct (Hk _ Hin) as [j [Hj E]].
    apply doc_id_inj in E. lia.
Qed.

Lemma keys_below_weaken (L : Libs) (st : dedup_state L) (i j : nat) :
  i <= j -> keys_below L st i -> keys_below L st j.
Proof.
  intros Hij [Hnd Hk]. split; [exact Hnd|]. intros k Hin.
  destruct (Hk k Hin) as [n [Hn E]]. exists n. split; [lia | exact E].
Qed.

Lemma dedup_loop_hashes (L : Libs) (docs : list str) :
  forall st i, keys_below L st i -> hashes_match L st ->
    keys_below L (dedup_loop L st i docs) (i + length docs) /\
    hashes_match L (dedup_loop L st i docs).
Proof.
  induction docs as [|d docs IH]; intros st i Hk Hm; simpl.
  - rewrite Nat.add_0_r. split; assumption.
  - replace (i + S (length docs)) with (S i + length docs) by lia.
    apply IH.
    + apply dedup_step_keys. exact Hk.
    + apply dedup_step_hashes; assumption.
Qed.

(** X10.  The dictionary [doc_hashes] of [deduplicate_minhash] ends with one
    entry for each accepted document, in order: its values are the
    signatures of the accepted documents, and its keys are pairwise
    different keys ["doc_" + str(j)] of positions [j] of the input.  So
    [insert], which is called with the same keys, never meets a key that
    is already in the index. *)
Theorem deduplicate_stores_one_signature_per_document (L : Libs)
    (index : MinHashLSH L) (docs : list str) :
  let final := dedup_loop L (mkDedup L index [] []) 0 docs in
  map snd (doc_hashes L final) = map (signature L) (unique_docs L final) /\
  length (doc_hashes L final) = length (unique_docs L final) /\
  NoDup (map fst (doc_hashes L final)) /\
  forall k, In k (map fst (doc_hashes L final)) ->
            exists j, j < length docs /\ k = doc_id j.
Proof.
  intros final.
  destruct (dedup_loop_hashes L docs (mkDedup L index [] []) 0)
    as [[Hnd Hk] Hm].
  { split; [constructor | intros k []]. }
  { reflexivity. }
  fold final in Hnd, Hk, Hm. unfold hashes_match in Hm.
  split; [exact Hm|]. split.
  - rewrite <- (length_map snd), Hm, length_map. reflexivity.
  - split; [exact Hnd | exact Hk].
Qed.

(** ** More on the PII redactor *)

Lemma no_digit_no_match (e : str * regex) (doc : str) :
  good_entry e ->
  forallb (fun c => negb (digit_or_at c)) doc = true ->
  no_match (snd e) None doc.
Proof.
  intros [core [Er [Hcore _]]] Hdoc a x b E Hl.
  destruct (good_core_parts core Hcore) as [Hf [Hn [_ [Hmh _]]]].
  rewrite Er in Hl. apply (lang_bounded core _ x b Hf Hn) in Hl.
  destruct Hl as [Lc _].
  pose proof (must_have_spec _ _ Hmh _ _ _ Lc) as Hex.
  apply existsb_exists in Hex. destruct Hex as [c [Hin Hc]].
  rewrite forallb_forall in Hdoc.
  assert (Hd : In c doc).
  { rewrite E. apply in_or_app. right. apply in_or_app. left. exact Hin. }
  specialize (Hdoc c Hd). rewrite Hc in Hdoc. discriminate.
Qed.

(** X11.  A document without a digit and without an at sign is returned by
    the redactor exactly as it is: none of the four patterns can match. *)
Theorem remove_pii_leaves_text_without_digits (doc : str) :
  forallb (fun c => negb (digit_or_at c)) doc = true ->
  remove_pii_doc doc = doc.
Proof.
  intros Hdoc. unfold remove_pii_doc. apply fold_redact_no_match.
  pose proof pii_patterns_good as Hg. rewrite Forall_forall in *.
  intros e He. apply no_digit_no_match; [exact (Hg e He) | exact Hdoc].
Qed.

Lemma remove_pii_leaves_text_without_digits_witness :
  let doc := lit "Clean unique content (no numbers) [for testing]." in
  forallb (fun c => negb (digit_or_at c)) doc = true /\
  remove_pii_doc doc = doc.
Proof.
  intros doc.
  assert (H : forallb (fun c => negb (digit_or_at c)) doc = true)
    by reflexivity.
  split; [exact H|].
  exact (remove_pii_leaves_text_without_digits doc H).
Defined.

Lemma count_bounds_spec (q : ascii -> bool) (r : regex) :
  forall prev x y, lang r prev x y ->
    count_min q r <= length (filter q x) /\
    forall m, count_max q r = Some m -> length (filter q x) <= m.
Proof.
  induction r as [| p | | a IHa b IHb | a IHa | k p]; simpl;
    intros prev x y H.
  - subst x. split; [lia|]. intros m Hm. simpl. lia.
  - destruct H as [c [-> Hc]]. simpl. split.
    + destruct (class_sub p q) eqn:E; [|lia].
      rewrite (class_sub_spec p q c E Hc). simpl. lia.
    + intros m Hm.
      destruct (class_sub p (fun c => negb (q c))) eqn:E.
      * pose proof (class_sub_spec p _ c E Hc) as Hq.
        apply negb_true_iff in Hq. rewrite Hq. simpl. lia.
      * injection Hm as <-. destruct (q c); simpl; lia.
  - destruct H as [-> _]. split; [lia|]. intros m Hm. simpl. lia.
  - destruct H as [x1 [x2 [-> [La Lb]]]].
    destruct (IHa _ _ _ La) as [A1 A2]. destruct (IHb _ _ _ Lb) as [B1 B2].
    rewrite filter_app, length_app. split; [lia|]. intros m Hm.
    destruct (count_max q a) as [ma|]; [|discriminate].
    destruct (count_max q b) as [mb|]; [|discriminate].
    injection Hm as <-. specialize (A2 ma eq_refl).
    specialize (B2 mb eq_refl). lia.
  - split; [lia|]. intros m Hm. destruct H as [H| ->]; [|simpl; lia].
    destruct (IHa _ _ _ H) as [_ A2]. exact (A2 m Hm).
  - destruct H as [Hk Hall]. split.
    + destruct (class_sub p q) eqn:E; [|lia].
      pose proof (class_sub_forallb p q x E Hall) as Hq.
      assert (Hf : filter q x = x).
      { clear Hk Hall. induction x as [|c x IH]; [reflexivity|].
        simpl in *. apply andb_prop in Hq. destruct Hq as [Hc Hq].
        rewrite Hc, IH by exact Hq. reflexivity. }
      rewrite Hf. exact Hk.
    + intros m Hm.
      destruct (class_sub p (fun c => negb (q c))) eqn:E; [|discriminate].
      injection Hm as <-.
      rewrite filter_none; [simpl; lia|].
      exact (class_sub_forallb p _ x E Hall).
Qed.

(** X12.  What the SSN pattern and the phone pattern match.  A match of the
    SSN pattern is 11 characters long, has 9 digits, and is made of digits
    and hyphens.  A match of the phone pattern has 10 or 11 digits and is 10
    to 17 characters long. *)
Theorem ssn_and_phone_match_shapes (doc x : str) :
  (In x (findall (bounded ssn_core) doc) ->
   length x = 11 /\ length (filter is_digit x) = 9 /\
   forallb (fun c => is_digit c || chr_in "-" c) x = true) /\
  (In x (findall (bounded phone_core) doc) ->
   10 <= length (filter is_digit x) <= 11 /\ 10 <= length x <= 17).
Proof.
  split; intros Hin.
  - assert (Lc : lang ssn_core None x []).
    { apply (findall_core ssn_core doc x); [reflexivity | reflexivity|].
      exact Hin. }
    destruct (len_bounds ssn_core None x [] Lc) as [Hmin Hmax].
    specialize (Hmax 11 eq_refl). simpl in Hmin.
    split; [lia|]. split.
    + exact (count_exact_spec is_digit ssn_core 9 eq_refl None x [] Lc).
    + refine (chars_in_spec (fun c => is_digit c || chr_in "-" c)
                            ssn_core _ None x [] Lc).
      vm_compute. reflexivity.
  - assert (Lc : lang phone_core None x []).
    { apply (findall_core phone_core doc x); [reflexivity | reflexivity|].
      exact Hin. }
    destruct (len_bounds phone_core None x [] Lc) as [Hmin Hmax].
    specialize (Hmax 17 eq_refl). simpl in Hmin.
    destruct (count_bounds_spec is_digit phone_core None x [] Lc)
      as [Cmin Cmax].
    specialize (Cmax 11 eq_refl).
    assert (E : count_min is_digit phone_core = 10) by (vm_compute; reflexivity).
    rewrite E in Cmin. lia.
Qed.

Lemma ssn_and_phone_match_shapes_witness :
  let doc := lit "ssn 123-45-6789 or call +1 (555) 987-6543 now" in
  (In (lit "123-45-6789") (findall (bounded ssn_core) doc) /\
   In (lit "1 (555) 987-6543") (findall (bounded phone_core) doc)) /\
  (length (lit "123-45-6789") = 11 /\
   length (filter is_digit (lit "123-45-6789")) = 9 /\
   forallb (fun c => is_digit c || chr_in "-" c) (lit "123-45-6789") = true)
  /\
  (10 <= length (filter is_digit (lit "1 (555) 987-6543")) <= 11 /\
   10 <= length (lit "1 (555) 987-6543") <= 17).
Proof.
  intros doc.
  assert (H1 : In (lit "123-45-6789") (findall (bounded ssn_core) doc))
    by (vm_compute; left; reflexivity).
  assert (H2 : In (lit "1 (555) 987-6543")
                  (findall (bounded phone_core) doc))
    by (vm_compute; left; reflexivity).
  split; [split; assumption|]. split.
  - exact (proj1 (ssn_and_phone_match_shapes doc (lit "123-45-6789")) H1).
  - exact (proj2 (ssn_and_phone_match_shapes doc (lit "1 (555) 987-6543"))
                 H2).
Defined.

Lemma forallb_not_space_token (x : str) :
  x <> [] -> forallb not_space x = true -> is_token x.
Proof. intros Hne H. split; [exact Hne | exact H]. Qed.

(** X13.  What the email pattern matches: a text of at least 6 characters
    without a space, hence a single token, that has an at sign and a dot. *)
Theorem email_match_shape (doc x : str) :
  In x (findall (bounded email_core) doc) ->
  6 <= length x /\ forallb not_space x = true /\ token_count x = 1 /\
  existsb (chr_in "@") x = true /\ existsb (chr_in ".") x = true.
Proof.
  intros Hin.
  assert (Lc : lang email_core None x []).
  { apply (findall_core email_core doc x); [reflexivity | reflexivity|].
    exact Hin. }
  destruct (len_bounds email_core None x [] Lc) as [Hmin _]. simpl in Hmin.
  assert (Hns : forallb not_space x = true).
  { refine (chars_in_spec not_space email_core _ None x [] Lc).
    vm_compute. reflexivity. }
  split; [lia|]. split; [exact Hns|]. split.
  - rewrite token_count_ntok.
    assert (Hne : x <> []) by (destruct x; [simpl in Hmin; lia | discriminate]).
    destruct (token_ntok x false (forallb_not_space_token x Hne Hns))
      as [E _]. exact E.
  - split.
    + refine (must_have_spec (chr_in "@") email_core _ None x [] Lc).
      vm_compute. reflexivity.
    + refine (must_have_spec (chr_in ".") email_core _ None x [] Lc).
      vm_compute. reflexivity.
Qed.

Lemma email_match_shape_witness :
  let doc := lit "Contact us at info@example.com or call" in
  let x := lit "info@example.com" in
  In x (findall (bounded email_core) doc) /\
  6 <= length x /\ forallb not_space x = true /\ token_count x = 1 /\
  existsb (chr_in "@") x = true /\ existsb (chr_in ".") x = true.
Proof.
  intros doc x.
  assert (H : In x (findall (bounded email_core) doc))
    by (vm_compute; left; reflexivity).
  split; [exact H|].
  exact (email_match_shape doc x H).
Defined.

(** ** More on the repetition compressor *)

Lemma concat_join_Subseq (sep : str) (rest : list str) :
  Subseq (concat rest) (join sep rest).
Proof.
  induction rest as [|r rest IH]; [apply Subseq_nil|].
  destruct rest as [|r2 rest].
  - simpl. rewrite app_nil_r. apply Subseq_refl.
  - rewrite join_cons by discriminate.
    change (concat (r :: r2 :: rest)) with (r ++ [] ++ concat (r2 :: rest)).
    apply Subseq_app; [apply Subseq_refl|].
    apply Subseq_app; [apply Subseq_nil_l | exact IH].
Qed.

Lemma rewrite_ngram_Subseq (doc s : str) :
  s <> [] -> Subseq (rewrite_ngram doc s) doc.
Proof.
  intros Hs. pose proof (join_split_sep s doc Hs) as Hj.
  unfold rewrite_ngram.
  destruct (split_sep s doc) as [|p0 [|p1 rest]]; simpl;
    try apply Subseq_refl.
  rewrite <- Hj. rewrite join_cons by discriminate.
  apply Subseq_app; [apply Subseq_refl|].
  apply Subseq_app; [apply Subseq_refl|].
  apply (concat_join_Subseq s (p1 :: rest)).
Qed.

Lemma fold_rewrite_Subseq (threshold : Z) (items : Counter) (doc : str) :
  (forall g c, In (g, c) items -> ngram_str_of g <> []) ->
  Subseq (fold_left (rewrite_if_frequent threshold) items doc) doc.
Proof.
  revert doc; induction items as [|[g c] items IH]; intros doc H; simpl.
  - apply Subseq_refl.
  - eapply Subseq_trans.
    + apply IH. intros g' c' Hin. apply (H g' c'). right; exact Hin.
    + unfold rewrite_if_frequent. simpl.
      destruct (threshold <=? Z.of_nat c)%Z; [|apply Subseq_refl].
      apply rewrite_ngram_Subseq. apply (H g c). left; reflexivity.
Qed.

(** X14.  The compressor only deletes characters: its output is the
    document with some characters left out, in the same order, so it is
    never longer than the document and contains no character that the
    document does not. *)
Theorem compressor_only_deletes (max_ngram threshold : Z) (doc : str) :
  Subseq (remove_repetitive_ngrams_doc max_ngram threshold doc) doc /\
  length (remove_repetitive_ngrams_doc max_ngram threshold doc)
  <= length doc.
Proof.
  assert (H : Subseq (remove_repetitive_ngrams_doc max_ngram threshold doc)
                     doc).
  { unfold remove_repetitive_ngrams_doc.
    destruct (Z.of_nat (length (split_ws doc)) <? max_ngram)%Z;
      [apply Subseq_refl|].
    set (words := split_ws doc).
    assert (G : forall ns d,
               (forall n, In n ns -> (2 <= n)%Z) ->
               Subseq (fold_left (ngram_pass threshold words) ns d) d).
    { induction ns as [|n ns IH]; intros d Hns; simpl; [apply Subseq_refl|].
      eapply Subseq_trans.
      - apply IH. intros n' Hn'. apply Hns. right; exact Hn'.
      - unfold ngram_pass. apply fold_rewrite_Subseq.
        intros g c Hin. apply (ngram_str_not_nil doc (Z.to_nat n) g c).
        + specialize (Hns n (or_introl eq_refl)). lia.
        + exact Hin. }
    apply G. intros n Hn. apply py_range_In in Hn. lia. }
  split; [exact H | apply Subseq_length; exact H].
Qed.

Lemma ngram_eqb_eq (a b : ngram) : ngram_eqb a b = true <-> a = b.
Proof.
  unfold ngram_eqb.
  destruct (list_eq_dec (list_eq_dec ascii_dec) a b); split; congruence.
Qed.

Lemma ngram_eqb_neq (a b : ngram) : ngram_eqb a b = false <-> a <> b.
Proof.
  unfold ngram_eqb.
  destruct (list_eq_dec (list_eq_dec ascii_dec) a b); split; congruence.
Qed.

Lemma counter_get_incr (k g : ngram) (counts : Counter) :
  counter_get g (counter_incr k counts) =
  counter_get g counts + (if ngram_dec k g then 1 else 0).
Proof.
  induction counts as [|[k' n] rest IH]; simpl.
  - destruct (ngram_dec k g) as [->|Hne].
    + assert (E : ngram_eqb g g = true) by (apply ngram_eqb_eq; reflexivity).
      rewrite E. reflexivity.
    + apply ngram_eqb_neq in Hne. rewrite Hne. reflexivity.
  - destruct (ngram_eqb k' k) eqn:Ek; simpl.
    + apply ngram_eqb_eq in Ek. subst k'.
      destruct (ngram_dec k g) as [->|Hne].
      * assert (E : ngram_eqb g g = true) by (apply ngram_eqb_eq; reflexivity).
        rewrite E. lia.
      * apply ngram_eqb_neq in Hne. rewrite Hne. lia.
    + destruct (ngram_eqb k' g) eqn:Eg.
      * apply ngram_eqb_eq in Eg. subst k'.
        apply ngram_eqb_neq in Ek.
        destruct (ngram_dec k g); [congruence | lia].
      * exact IH.
Qed.

Lemma counter_get_fold (grams : list ngram) (g : ngram) (init : Counter) :
  counter_get g (fold_left (fun counts g0 => counter_incr g0 counts)
                           grams init) =
  counter_get g init + count_occ ngram_dec grams g.
Proof.
  revert init; induction grams as [|k grams IH]; intros init; simpl; [lia|].
  rewrite IH, counter_get_incr. destruct (ngram_dec k g); lia.
Qed.

Lemma counter_incr_keys_NoDup (k : ngram) (counts : Counter) :
  NoDup (map fst counts) -> NoDup (map fst (counter_incr k counts)).
Proof.
  intros Hnd.
  assert (G : map fst (counter_incr k counts) = map fst counts \/
              (~ In k (map fst counts) /\
               map fst (counter_incr k counts) = map fst counts ++ [k])).
  { clear Hnd. induction counts as [|[k' n] rest IH]; simpl.
    - right. split; [tauto | reflexivity].
    - destruct (ngram_eqb k' k) eqn:E; simpl; [left; reflexivity|].
      apply ngram_eqb_neq in E.
      destruct IH as [IH|[Hni IH]]; [left | right]; rewrite IH;
        [reflexivity|]. split; [|reflexivity].
      intros [H|H]; [congruence | tauto]. }
  destruct G as [->|[Hni ->]]; [exact Hnd|].
  apply NoDup_app; [exact Hnd | constructor; [intros [] | constructor]|].
  intros x Hx [<-|[]]. exact (Hni Hx).
Qed.

Lemma counter_sum_incr (k : ngram) (counts : Counter) :
  list_sum (map snd (counter_incr k counts)) =
  S (list_sum (map snd counts)).
Proof.
  induction counts as [|[k' n] rest IH]; simpl; [reflexivity|].
  destruct (ngram_eqb k' k); simpl; [lia | rewrite IH; lia].
Qed.

Lemma counter_get_In (g : ngram) (counts : Counter) :
  counter_get g counts <> 0 -> In (g, counter_get g counts) counts.
Proof.
  induction counts as [|[k n] rest IH]; simpl; [congruence|].
  destruct (ngram_eqb k g) eqn:E.
  - apply ngram_eqb_eq in E. subst k. intros _. left; reflexivity.
  - intros H. right. apply IH. exact H.
Qed.

Lemma counter_In_get (g : ngram) (c : nat) (counts : Counter) :
  NoDup (map fst counts) -> In (g, c) counts -> counter_get g counts = c.
Proof.
  induction counts as [|[k n] rest IH]; simpl; intros Hnd Hin; [tauto|].
  inversion Hnd as [|? ? Hni Hnd']; subst.
  destruct Hin as [H|Hin].
  - injection H as -> ->.
    assert (E : ngram_eqb g g = true) by (apply ngram_eqb_eq; reflexivity).
    rewrite E. reflexivity.
  - destruct (ngram_eqb k g) eqn:E.
    + apply ngram_eqb_eq in E. subst k. exfalso. apply Hni.
      apply in_map_iff. exists (g, c). split; [reflexivity | exact Hin].
    + apply IH; assumption.
Qed.

Lemma count_ngrams_facts (grams : list ngram) :
  NoDup (map fst (count_ngrams grams)) /\
  list_sum (map snd (count_ngrams grams)) = length grams /\
  forall g, counter_get g (count_ngrams grams) = count_occ ngram_dec grams g.
Proof.
  unfold count_ngrams.
  assert (G : forall init,
             NoDup (map fst init) ->
             NoDup (map fst (fold_left (fun counts g0 => counter_incr g0 counts)
                                       grams init)) /\
             list_sum (map snd (fold_left
                                  (fun counts g0 => counter_incr g0 counts)
                                  grams init)) =
             list_sum (map snd init) + length grams).
  { induction grams as [|k grams IH]; intros init Hnd; simpl.
    - split; [exact Hnd | lia].
    - destruct (IH (counter_incr k init) (counter_incr_keys_NoDup k init Hnd))
        as [H1 H2].
      split; [exact H1|]. rewrite H2, counter_sum_incr. lia. }
  destruct (G [] (NoDup_nil _)) as [H1 H2].
  split; [exact H1|]. split; [exact H2|].
  intros g. rewrite counter_get_fold. reflexivity.
Qed.

(** X15.  The counter of a pass holds every n-gram of the words once, with
    the number of its occurrences, which is at least 1; the counts add up to
    the number of n-grams, [len(words) - n + 1] or 0 when there are fewer
    than [n] words. *)
Theorem ngram_counts_are_occurrences (words : list str) (n : nat) :
  let grams := ngrams_of words n in
  let counts := count_ngrams grams in
  length grams = length words + 1 - n /\
  NoDup (map fst counts) /\
  (forall g c, In (g, c) counts <->
               c = count_occ ngram_dec grams g /\ 1 <= c) /\
  list_sum (map snd counts) = length words + 1 - n.
Proof.
  intros grams counts.
  destruct (count_ngrams_facts grams) as [Hnd [Hsum Hget]].
  fold counts in Hnd, Hsum, Hget.
  assert (Hlen : length grams = length words + 1 - n).
  { unfold grams, ngrams_of. rewrite length_map, length_seq. reflexivity. }
  split; [exact Hlen|]. split; [exact Hnd|]. split; [|lia].
  intros g c. split.
  - intros Hin. pose proof (counter_In_get g c counts Hnd Hin) as E.
    rewrite Hget in E. split; [symmetry; exact E|].
    apply count_ngrams_keys in Hin.
    apply (count_occ_In ngram_dec) in Hin. lia.
  - intros [-> Hc]. rewrite <- Hget. apply counter_get_In.
    rewrite Hget. lia.
Qed.

Lemma fold_rewrite_below (threshold : Z) (items : Counter) (doc : str) :
  (forall g c, In (g, c) items -> (Z.of_nat c < threshold)%Z) ->
  fold_left (rewrite_if_frequent threshold) items doc = doc.
Proof.
  revert doc; induction items as [|[g c] items IH]; intros doc H; simpl;
    [reflexivity|].
  unfold rewrite_if_frequent at 2. simpl.
  assert (Hc : (Z.of_nat c < threshold)%Z) by (apply (H g c); left; reflexivity).
  apply Z.leb_gt in Hc. rewrite Hc. apply IH.
  intros g' c' Hin. apply (H g' c'). right; exact Hin.
Qed.

Lemma count_occ_le_max (grams : list ngram) (g : ngram) :
  count_occ ngram_dec grams g <= list_max (map snd (count_ngrams grams)).
Proof.
  destruct (count_ngrams_facts grams) as [_ [_ Hget]]. rewrite <- Hget.
  generalize (count_ngrams grams). intros counts.
  induction counts as [|[k n] rest IH]; simpl; [lia|].
  destruct (ngram_eqb k g); lia.
Qed.

(** X16.  The compressor changes only documents in which some n-gram, for an
    [n] from 2 up to the window, occurs at least [threshold] times among the
    n-grams of the words: when every n-gram occurs fewer times, the document
    is returned exactly as it is. *)
Theorem compressor_unchanged_below_threshold (max_ngram threshold : Z)
    (doc : str) :
  (forall n g, (2 <= n <= max_ngram)%Z ->
     (Z.of_nat (count_occ ngram_dec
                          (ngrams_of (split_ws doc) (Z.to_nat n)) g)
      < threshold)%Z) ->
  remove_repetitive_ngrams_doc max_ngram threshold doc = doc.
Proof.
  intros H. unfold remove_repetitive_ngrams_doc.
  destruct (Z.of_nat (length (split_ws doc)) <? max_ngram)%Z; [reflexivity|].
  assert (G : forall ns d,
             (forall n, In n ns -> (2 <= n <= max_ngram)%Z) ->
             fold_left (ngram_pass threshold (split_ws doc)) ns d = d).
  { induction ns as [|n ns IH]; intros d Hns; simpl; [reflexivity|].
    unfold ngram_pass at 2. rewrite fold_rewrite_below.
    - apply IH. intros n' Hn'. apply Hns. right; exact Hn'.
    - intros g c Hin.
      destruct (count_ngrams_facts (ngrams_of (split_ws doc) (Z.to_nat n)))
        as [Hnd [_ Hget]].
      rewrite <- (counter_In_get g c _ Hnd Hin), Hget.
      apply H. apply Hns. left; reflexivity. }
  apply G. intros n Hn. apply py_range_In in Hn. lia.
Qed.

Lemma compressor_unchanged_below_threshold_witness :
  let doc := lit "the cat sat on the mat near the cat" in
  (forall n g, (2 <= n <= 3)%Z ->
     (Z.of_nat (count_occ ngram_dec
                          (ngrams_of (split_ws doc) (Z.to_nat n)) g)
      < 3)%Z) /\
  remove_repetitive_ngrams_doc 3 3 doc = doc.
Proof.
  intros doc.
  assert (H : forall n g, (2 <= n <= 3)%Z ->
     (Z.of_nat (count_occ ngram_dec
                          (ngrams_of (split_ws doc) (Z.to_nat n)) g)
      < 3)%Z).
  { intros n g Hn.
    assert (Hmax : forall k, k = 2 \/ k = 3 ->
              list_max (map snd (count_ngrams (ngrams_of (split_ws doc) k)))
              <= 2).
    { intros k [->| ->]; vm_compute; lia. }
    pose proof (count_occ_le_max (ngrams_of (split_ws doc) (Z.to_nat n)) g)
      as Hle.
    assert (Hk : Z.to_nat n = 2 \/ Z.to_nat n = 3) by lia.
    specialize (Hmax _ Hk). lia. }
  split; [exact H|].
  exact (compressor_unchanged_below_threshold 3 3 doc H).
Defined.

(** ** HTML cleaning after language detection *)

Lemma ntok_zero_spaces (s : str) :
  ntok false s = 0 <-> forallb is_space s = true.
Proof.
  induction s as [|c s IH]; simpl; [tauto|].
  destruct (is_space c); simpl; [exact IH|]. split; [lia | discriminate].
Qed.

Lemma strip_all_space (s : str) : forallb is_space s = true -> strip s = [].
Proof.
  intros H. unfold strip, rstrip. rewrite (lstrip_all_space s H). reflexivity.
Qed.

Lemma join_tokens_nil (toks : list str) :
  Forall is_token toks -> (join (lit " ") toks = [] <-> toks = []).
Proof.
  intros H. split; [|intros ->; reflexivity].
  destruct toks as [|t toks]; [reflexivity|]. intros E. exfalso.
  pose proof (ngram_str_solid (t :: toks) ltac:(discriminate) H) as Hs.
  unfold ngram_str_of in Hs. rewrite E in Hs. exact Hs.
Qed.

(** The normalized text is empty exactly when the text is all spaces. *)
Lemma normalize_nil (s : str) :
  strip (collapse_ws s) = [] <-> forallb is_space s = true.
Proof.
  rewrite normalize_join, (join_tokens_nil _ (split_ws_tokens s)).
  rewrite <- ntok_zero_spaces, <- token_count_ntok. unfold token_count.
  destruct (split_ws s); simpl; split; congruence.
Qed.

(** C10 (as the code has it).  [clean_html] drops exactly the documents
    whose extracted text is empty.  [detect_language] reads [get_text()] of
    the parsed document, and bs4 leaves script and style content out of that
    text as well: with a parser whose [get_text()] is the same before and
    after the script and style elements are taken out, a document is dropped
    by [clean_html] exactly when its text is all spaces, every document
    [detect_language] accepts has a non-empty extracted text, and
    [clean_html] keeps all the documents [detect_language] returns. *)
Theorem clean_html_keeps_detected_documents (L : Libs)
    (Hskip : forall doc,
        get_text L (decompose_all L [lit "script"; lit "style"]
                                  (BeautifulSoup L doc)) =
        get_text L (BeautifulSoup L doc))
    (self self' : DataCleaner) (docs : list str) :
  (forall documents,
     result_of (clean_html L documents) self' =
     Returned (filter (fun text => negb (is_nil text))
                      (map (html_text L) documents))) /\
  (forall d, html_text L d = [] <->
             forallb is_space (get_text L (BeautifulSoup L d)) = true) /\
  exists out,
    result_of (detect_language L docs) self = Returned out /\
    Forall (fun d => html_text L d <> []) out /\
    result_of (clean_html L out) self' = Returned (map (html_text L) out).
Proof.
  assert (Hnil : forall d, html_text L d = [] <->
             forallb is_space (get_text L (BeautifulSoup L d)) = true).
  { intros d. unfold html_text. rewrite Hskip. apply normalize_nil. }
  split; [intros documents; apply clean_html_result|].
  split; [exact Hnil|].
  eexists. split; [apply detect_language_result|].
  assert (Hall : Forall (fun d => html_text L d <> [])
                   (filter_indexed
                      (language_accepted L (target_languages self)) 0 docs)).
  { apply Forall_forall. intros d Hin.
    apply filter_indexed_In_inv in Hin. destruct Hin as [i [_ Hacc]].
    unfold language_accepted in Hacc.
    destruct (length (strip (get_text L (BeautifulSoup L d))) <? 10) eqn:E;
      [discriminate|].
    apply Nat.ltb_ge in E. intros Hempty. apply Hnil in Hempty.
    rewrite (strip_all_space _ Hempty) in E. simpl in E. lia. }
  split; [exact Hall|].
  rewrite clean_html_result. f_equal.
  induction Hall as [|d out Hd Hout IH]; simpl; [reflexivity|].
  destruct (html_text L d); [congruence|]. simpl. rewrite IH. reflexivity.
Qed.

Lemma filter_filter_imp {A} (f g : A -> bool) (l : list A) :
  (forall x, f x = true -> g x = true) ->
  filter f (filter g l) = filter f l.
Proof.
  intros H. induction l as [|x l IH]; simpl; [reflexivity|].
  destruct (g x) eqn:Eg; simpl.
  - rewrite IH. reflexivity.
  - destruct (f x) eqn:Ef; [|exact IH].
    rewrite (H x Ef) in Eg. discriminate.
Qed.

Lemma Toy_get_text_skips_scripts (doc : str) :
  Toy.get_text (Toy.decompose_all [lit "script"; lit "style"]
                                  (Toy.BeautifulSoup doc)) =
  Toy.get_text (Toy.BeautifulSoup doc).
Proof.
  unfold Toy.get_text, Toy.decompose_all. f_equal.
  apply filter_filter_imp. intros e.
  unfold Toy.visible, Toy.hidden_tags. cbn [existsb].
  destruct (str_eqb (fst e) (lit "script"));
    destruct (str_eqb (fst e) (lit "style")); simpl; auto.
Qed.

Lemma clean_html_keeps_detected_documents_witness :
  let L := Toy.libs in
  let docs := [lit "<p>This is a clean English document.</p>";
               lit "<script>var tracking = 1234567;</script>";
               lit "<div>Another one <script>alert(1)</script> here</div>"] in
  let self := mkDataCleaner (7 # 10) [lit "en"; lit "zh-cn"]
                            (mkStats 0 0 0 0 0 0 0 0) in
  (forall doc,
      get_text L (decompose_all L [lit "script"; lit "style"]
                                (BeautifulSoup L doc)) =
      get_text L (BeautifulSoup L doc)) /\
  exists out,
    result_of (detect_language L docs) self = Returned out /\
    Forall (fun d => html_text L d <> []) out /\
    result_of (clean_html L out) self = Returned (map (html_text L) out).
Proof.
  intros L docs self.
  split; [exact Toy_get_text_skips_scripts|].
  exact (proj2 (proj2 (clean_html_keeps_detected_documents
                         L Toy_get_text_skips_scripts self self docs))).
Defined.

(** C10 fails as stated: the text [detect_language] reads of a document
    whose only content lies inside script tags is empty, so the document is
    left out by [detect_language] and does not reach [clean_html]. *)
Lemma script_only_document_stops_at_language_detection :
  let L := Toy.libs in
  let d := lit "<script>var tracking = 1234567;</script>" in
  let self := mkDataCleaner (7 # 10) [lit "en"; lit "zh-cn"]
                            (mkStats 0 0 0 0 0 0 0 0) in
  get_text L (BeautifulSoup L d) = [] /\
  result_of (detect_language L [d]) self = Returned [].
Proof. intros L d self. split; vm_compute; reflexivity. Qed.

(** ** The compressor keeps first occurrences only *)

Lemma split_sep_from_skip (sep : str) (t : str) :
  forall cur k,
    split_sep_from sep cur t k = split_sep_from sep cur (skipn k t) 0.
Proof.
  induction t as [|c tl IH]; intros cur k.
  - destruct k; reflexivity.
  - destruct k as [|k]; [reflexivity|]. simpl. apply IH.
Qed.

Lemma concat_split_delete (sep : str) (t : str) :
  forall cur k,
    concat (split_sep_from sep cur t k) = cur ++ delete_all_from sep t k.
Proof.
  induction t as [|c tl IH]; intros cur k; simpl.
  - reflexivity.
  - destruct k as [|k]; [|apply IH].
    destruct (starts_with sep (c :: tl)); simpl.
    + rewrite IH. reflexivity.
    + rewrite IH, <- app_assoc. reflexivity.
Qed.

Lemma starts_with_nil_r (s : str) : s <> [] -> starts_with s [] = false.
Proof. destruct s; [congruence | reflexivity]. Qed.

Lemma find_first_cons (s : str) (c : ascii) (tl : str) :
  find_first s (c :: tl) =
  if starts_with s (c :: tl) then Some ([], skipn (length s) (c :: tl))
  else match find_first s tl with
       | Some (pre, post) => Some (c :: pre, post)
       | None => None
       end.
Proof. reflexivity. Qed.

(** [split] cuts at the first occurrence and goes on after it. *)
Lemma split_sep_from_find (s : str) :
  s <> [] ->
  forall t cur,
    split_sep_from s cur t 0 =
    match find_first s t with
    | None => [cur ++ t]
    | Some (pre, post) => (cur ++ pre) :: split_sep_from s [] post 0
    end.
Proof.
  intros Hs. induction t as [|c tl IH]; intros cur.
  - simpl. rewrite (starts_with_nil_r s Hs). rewrite app_nil_r. reflexivity.
  - rewrite find_first_cons.
    change (split_sep_from s cur (c :: tl) 0)
      with (if starts_with s (c :: tl)
            then cur :: split_sep_from s [] tl (length s - 1)
            else split_sep_from s (cur ++ [c]) tl 0).
    destruct (starts_with s (c :: tl)) eqn:E.
    + rewrite app_nil_r, split_sep_from_skip. f_equal. f_equal.
      destruct s as [|a s']; [congruence|]. simpl. rewrite Nat.sub_0_r.
      reflexivity.
    + rewrite IH. destruct (find_first s tl) as [[pre post]|].
      * rewrite <- app_assoc. reflexivity.
      * rewrite <- app_assoc. reflexivity.
Qed.

Lemma rewrite_ngram_keep_first (doc s : str) :
  s <> [] -> rewrite_ngram doc s = keep_first_only s doc.
Proof.
  intros Hs. unfold rewrite_ngram, keep_first_only, split_sep.
  rewrite (split_sep_from_find s Hs doc []).
  destruct (find_first s doc) as [[pre post]|]; [|reflexivity].
  pose proof (split_sep_from_not_nil s [] post 0) as Hne.
  pose proof (concat_split_delete s post [] 0) as Hc.
  destruct (split_sep_from s [] post 0) as [|p1 rest]; [congruence|].
  cbn [length Nat.ltb Nat.leb hd tl app]. rewrite Hc. reflexivity.
Qed.

Lemma find_first_some (s t pre post : str) :
  find_first s t = Some (pre, post) ->
  t = pre ++ s ++ post /\
  forall a b, t = a ++ s ++ b -> length pre <= length a.
Proof.
  revert pre post; induction t as [|c tl IH]; intros pre post H.
  - simpl in H. destruct (starts_with s []) eqn:E; [|discriminate].
    injection H as <- <-. apply starts_with_inv in E. destruct E as [r E].
    symmetry in E. apply app_eq_nil in E. destruct E as [-> ->].
    split; [reflexivity|]. intros; simpl; lia.
  - rewrite find_first_cons in H.
    destruct (starts_with s (c :: tl)) eqn:E.
    + injection H as <- <-. apply starts_with_inv in E. destruct E as [r E].
      rewrite E. rewrite skipn_app, Nat.sub_diag, skipn_all. simpl.
      split; [reflexivity|]. intros; lia.
    + destruct (find_first s tl) as [[pre' post']|] eqn:Ef; [|discriminate].
      injection H as <- <-. destruct (IH pre' post' eq_refl) as [Et Hmin].
      split; [simpl; rewrite <- Et; reflexivity|].
      intros a b Ea. destruct a as [|d a].
      * simpl in Ea. rewrite Ea, starts_with_app in E. discriminate.
      * simpl in Ea. injection Ea as <- Ea. simpl.
        specialize (Hmin a b Ea). lia.
Qed.

Lemma find_first_none (s t : str) :
  find_first s t = None -> forall a b, t <> a ++ s ++ b.
Proof.
  induction t as [|c tl IH]; intros H a b Ea.
  - simpl in H. destruct (starts_with s []) eqn:E; [discriminate|].
    symmetry in Ea. apply app_eq_nil in Ea. destruct Ea as [_ Ea].
    apply app_eq_nil in Ea. destruct Ea as [-> _]. discriminate.
  - rewrite find_first_cons in H.
    destruct (starts_with s (c :: tl)) eqn:E; [discriminate|].
    destruct (find_first s tl) as [[pre post]|] eqn:Ef; [discriminate|].
    destruct a as [|d a].
    + simpl in Ea. rewrite Ea, starts_with_app in E. discriminate.
    + simpl in Ea. injection Ea as _ Ea. exact (IH eq_refl a b Ea).
Qed.

Lemma delete_all_find (s t : str) :
  s <> [] ->
  delete_all s t =
  match find_first s t with
  | None => t
  | Some (pre, post) => pre ++ delete_all s post
  end.
Proof.
  intros Hs. unfold delete_all.
  pose proof (concat_split_delete s t [] 0) as Hc. simpl in Hc.
  rewrite <- Hc. rewrite (split_sep_from_find s Hs t []).
  destruct (find_first s t) as [[pre post]|].
  - simpl. rewrite (concat_split_delete s post [] 0). reflexivity.
  - simpl. rewrite app_nil_r. reflexivity.
Qed.

Lemma fold_left_ext_in {A B} (f g : A -> B -> A) (l : list B) :
  (forall b, In b l -> forall a, f a b = g a b) ->
  forall a, fold_left f l a = fold_left g l a.
Proof.
  induction l as [|b l IH]; intros H a; simpl; [reflexivity|].
  rewrite (H b (or_introl eq_refl)). apply IH.
  intros b' Hb'. apply H. right; exact Hb'.
Qed.

Lemma fold_rewrite_keep_first (threshold : Z) (items : Counter) :
  (forall g c, In (g, c) items -> ngram_str_of g <> []) ->
  forall doc,
    fold_left (rewrite_if_frequent threshold) items doc =
    fold_left (fun d s => keep_first_only s d)
              (map (fun item => ngram_str_of (fst item))
                   (filter (fun item => (threshold <=? Z.of_nat (snd item))%Z)
                           items))
              doc.
Proof.
  induction items as [|[g c] items IH]; intros H doc; simpl; [reflexivity|].
  assert (H' : forall g' c', In (g', c') items -> ngram_str_of g' <> [])
    by (intros g' c' Hin; apply (H g' c'); right; exact Hin).
  unfold rewrite_if_frequent at 2. simpl.
  destruct (threshold <=? Z.of_nat c)%Z; simpl.
  - rewrite (rewrite_ngram_keep_first doc _ (H g c (or_introl eq_refl))).
    apply IH. exact H'.
  - apply IH. exact H'.
Qed.

Lemma frequent_phrases_In (max_ngram threshold : Z) (words : list str)
    (s : str) :
  In s (frequent_phrases max_ngram threshold words) <->
  exists n g,
    (2 <= n <= max_ngram)%Z /\
    In g (ngrams_of words (Z.to_nat n)) /\
    (threshold <=
     Z.of_nat (count_occ ngram_dec (ngrams_of words (Z.to_nat n)) g))%Z /\
    s = ngram_str_of g.
Proof.
  unfold frequent_phrases. rewrite in_flat_map. split.
  - intros [n [Hn Hin]]. apply py_range_In in Hn.
    apply in_map_iff in Hin. destruct Hin as [[g c] [<- Hin]].
    apply filter_In in Hin. destruct Hin as [Hin Hc]. simpl in Hc.
    apply Z.leb_le in Hc.
    destruct (count_ngrams_facts (ngrams_of words (Z.to_nat n)))
      as [Hnd [_ Hget]].
    pose proof (counter_In_get g c _ Hnd Hin) as E. rewrite Hget in E.
    exists n, g. split; [lia|]. split.
    + exact (count_ngrams_keys _ g c Hin).
    + split; [rewrite E; exact Hc | reflexivity].
  - intros [n [g [Hn [Hg [Hc ->]]]]]. exists n. split.
    + unfold py_range. apply in_map_iff. exists (Z.to_nat (n - 2)).
      split; [lia|]. apply in_seq. lia.
    + apply in_map_iff.
      exists (g, count_occ ngram_dec (ngrams_of words (Z.to_nat n)) g).
      split; [reflexivity|]. apply filter_In. split.
      * destruct (count_ngrams_facts (ngrams_of words (Z.to_nat n)))
          as [_ [_ Hget]].
        rewrite <- Hget. apply counter_get_In. rewrite Hget.
        apply (count_occ_In ngram_dec) in Hg. lia.
      * simpl. apply Z.leb_le. exact Hc.
Qed.

(** C4 (as the code has it).  For every n-gram that occurs at least
    [threshold] times among the n-grams of the words (n from 2 up to the
    window), in the order the passes meet them, the compressor keeps the
    first occurrence of the text of the n-gram in the document and deletes
    every later occurrence, adjacent or not; the text between the
    occurrences is kept.  In detail: the compressor is the succession of
    [keep_first_only] for the frequent phrases; one rewriting step of the
    code for a non-empty phrase is [keep_first_only]; [find_first] gives the
    leftmost occurrence and none when the phrase does not occur; and
    [delete_all] deletes the leftmost occurrence and goes on in the text
    after it. *)
Theorem compressor_keeps_first_occurrence_only :
  (forall max_ngram threshold doc,
     remove_repetitive_ngrams_doc max_ngram threshold doc =
     if (Z.of_nat (length (split_ws doc)) <? max_ngram)%Z then doc
     else fold_left (fun d s => keep_first_only s d)
                    (frequent_phrases max_ngram threshold (split_ws doc))
                    doc) /\
  (forall max_ngram threshold words s,
     In s (frequent_phrases max_ngram threshold words) <->
     exists n g,
       (2 <= n <= max_ngram)%Z /\
       In g (ngrams_of words (Z.to_nat n)) /\
       (threshold <=
        Z.of_nat (count_occ ngram_dec (ngrams_of words (Z.to_nat n)) g))%Z /\
       s = ngram_str_of g) /\
  (forall doc s, s <> [] -> rewrite_ngram doc s = keep_first_only s doc) /\
  (forall s t pre post,
     find_first s t = Some (pre, post) ->
     t = pre ++ s ++ post /\
     forall a b, t = a ++ s ++ b -> length pre <= length a) /\
  (forall s t, find_first s t = None -> forall a b, t <> a ++ s ++ b) /\
  (forall s t,
     s <> [] ->
     delete_all s t =
     match find_first s t with
     | None => t
     | Some (pre, post) => pre ++ delete_all s post
     end).
Proof.
  split; [|split; [exact frequent_phrases_In|];
           split; [exact rewrite_ngram_keep_first|];
           split; [exact find_first_some|];
           split; [exact find_first_none | exact delete_all_find]].
  intros max_ngram threshold doc. unfold remove_repetitive_ngrams_doc.
  destruct (Z.of_nat (length (split_ws doc)) <? max_ngram)%Z; [reflexivity|].
  unfold frequent_phrases. rewrite fold_left_flat_map.
  apply fold_left_ext_in. intros n Hn d. apply py_range_In in Hn.
  unfold ngram_pass. apply fold_rewrite_keep_first.
  intros g c Hin. apply (ngram_str_not_nil doc (Z.to_nat n) g c); [lia|].
  exact Hin.
Qed.

Lemma compressor_keeps_first_occurrence_only_witness :
  let doc := lit "a b x a b y a b z" in
  let s := lit "a b" in
  s <> [] /\
  find_first s doc = Some ([], lit " x a b y a b z") /\
  rewrite_ngram doc s = keep_first_only s doc /\
  keep_first_only s doc = lit "a b x  y  z" /\
  remove_repetitive_ngrams_doc 3%Z 3%Z doc =
  fold_left (fun d s => keep_first_only s d)
            (frequent_phrases 3%Z 3%Z (split_ws doc)) doc.
Proof.
  intros doc s.
  assert (Hs : s <> []) by discriminate.
  split; [exact Hs|]. split; [reflexivity|]. split.
  - exact (proj1 (proj2 (proj2 compressor_keeps_first_occurrence_only))
             doc s Hs).
  - split; [vm_compute; reflexivity|].
    exact (proj1 compressor_keeps_first_occurrence_only 3%Z 3%Z doc).
Defined.

(** ** The credit-card pattern *)

Lemma lang_rep_cls (p : ascii -> bool) (n : nat) :
  forall prev x y,
    lang (rep n (Cls p)) prev x y <-> length x = n /\ forallb p x = true.
Proof.
  induction n as [|n IH]; intros prev x y; simpl.
  - split.
    + intros ->. split; reflexivity.
    + intros [H _]. destruct x; [reflexivity | discriminate].
  - split.
    + intros [x1 [x2 [-> [[c [-> Hc]] H]]]]. apply IH in H.
      destruct H as [Hl Hall]. simpl. rewrite Hl, Hc, Hall. split; reflexivity.
    + intros [Hl Hall]. destruct x as [|c x]; [discriminate|].
      simpl in Hl, Hall. apply andb_prop in Hall. destruct Hall as [Hc Hall].
      exists [c], x. split; [reflexivity|]. split.
      * exists c. split; [reflexivity | exact Hc].
      * apply IH. split; [lia | exact Hall].
Qed.

Lemma lang_seq_indep (a b : regex) (A B : str -> Prop) :
  (forall prev x y, lang a prev x y <-> A x) ->
  (forall prev x y, lang b prev x y <-> B x) ->
  forall prev x y,
    lang (Seq a b) prev x y <-> exists x1 x2, x = x1 ++ x2 /\ A x1 /\ B x2.
Proof.
  intros Ha Hb prev x y. simpl. split.
  - intros [x1 [x2 [E [La Lb]]]]. exists x1, x2. split; [exact E|].
    split; [exact (proj1 (Ha _ _ _) La) | exact (proj1 (Hb _ _ _) Lb)].
  - intros [x1 [x2 [E [HA HB]]]]. exists x1, x2. split; [exact E|].
    split; [exact (proj2 (Ha _ _ _) HA) | exact (proj2 (Hb _ _ _) HB)].
Qed.

Lemma lang_three_then (a b : regex) (A B : str -> Prop) :
  (forall prev x y, lang a prev x y <-> A x) ->
  (forall prev x y, lang b prev x y <-> B x) ->
  forall prev x y,
    lang (Seq (rep 3 a) b) prev x y <->
    exists x1 x2 x3 x4,
      x = x1 ++ x2 ++ x3 ++ x4 /\ A x1 /\ A x2 /\ A x3 /\ B x4.
Proof.
  intros Ha Hb prev x y. simpl. split.
  - intros [u [x4 [-> [[x1 [u2 [-> [L1 [x2 [u3 [-> [L2 [x3 [e [-> [L3 ->]]]]]]]]]]]]
                        L4]]]].
    exists x1, x2, x3, x4. rewrite app_nil_r, <- !app_assoc.
    split; [reflexivity|].
    split; [exact (proj1 (Ha _ _ _) L1)|].
    split; [exact (proj1 (Ha _ _ _) L2)|].
    split; [exact (proj1 (Ha _ _ _) L3) | exact (proj1 (Hb _ _ _) L4)].
  - intros [x1 [x2 [x3 [x4 [-> [A1 [A2 [A3 B4]]]]]]]].
    exists (x1 ++ x2 ++ x3), x4. split; [rewrite <- !app_assoc; reflexivity|].
    split; [|exact (proj2 (Hb _ _ _) B4)].
    exists x1, (x2 ++ x3). split; [reflexivity|].
    split; [exact (proj2 (Ha _ _ _) A1)|].
    exists x2, x3. split; [reflexivity|].
    split; [exact (proj2 (Ha _ _ _) A2)|].
    exists x3, []. split; [rewrite app_nil_r; reflexivity|].
    split; [exact (proj2 (Ha _ _ _) A3) | reflexivity].
Qed.

Lemma lang_four_digits (prev : option ascii) (x y : str) :
  lang (rep 4 (Cls is_digit)) prev x y <-> four_digits x.
Proof. apply lang_rep_cls. Qed.

Lemma lang_optional_separator (prev : option ascii) (x y : str) :
  lang (Opt (Cls dash_space)) prev x y <-> optional_separator x.
Proof. unfold optional_separator. simpl. tauto. Qed.

Lemma lang_card_group (prev : option ascii) (x y : str) :
  lang (Seq (rep 4 (Cls is_digit)) (Opt (Cls dash_space))) prev x y <->
  card_group x.
Proof.
  exact (lang_seq_indep _ _ four_digits optional_separator
           lang_four_digits lang_optional_separator prev x y).
Qed.

(** The pattern between the two [\b] matches exactly the texts of
    [card_shape]. *)
Lemma lang_credit_card_core (prev : option ascii) (x y : str) :
  lang credit_card_core prev x y <-> card_shape x.
Proof.
  exact (lang_three_then _ _ card_group four_digits
           lang_card_group lang_four_digits prev x y).
Qed.

Lemma lang_credit_card (prev : option ascii) (x y : str) :
  lang (bounded credit_card_core) prev x y <->
  card_shape x /\
  boundary prev (hd_error x) = true /\
  boundary (last_of x prev) (hd_error y) = true.
Proof.
  rewrite (lang_bounded credit_card_core prev x y eq_refl eq_refl).
  rewrite (lang_credit_card_core None x []). reflexivity.
Qed.

Lemma last_of_some (x : str) :
  x <> [] -> forall p, exists d, last_of x p = Some d /\ In d x.
Proof.
  induction x as [|c x IH]; intros Hne p; [congruence|].
  destruct x as [|e x].
  - exists c. split; [reflexivity | left; reflexivity].
  - destruct (IH ltac:(discriminate) (Some c)) as [d [Hd Hin]].
    exists d. split; [exact Hd | right; exact Hin].
Qed.

(** What a text of the shape is made of. *)
Lemma card_shape_facts (x : str) :
  card_shape x ->
  length (filter is_digit x) = 16 /\
  16 <= length x <= 19 /\
  forallb (fun c => is_digit c || dash_space c) x = true /\
  (exists c tl, x = c :: tl /\ is_digit c = true) /\
  (forall p, exists d, last_of x p = Some d /\ is_digit d = true).
Proof.
  intros Hx.
  assert (Lc : lang credit_card_core None x [])
    by (apply lang_credit_card_core; exact Hx).
  assert (Hne : x <> [])
    by exact (nullable_false credit_card_core eq_refl _ _ _ Lc).
  split; [|split; [|split; [|split]]].
  - exact (count_exact_spec is_digit credit_card_core 16 eq_refl None x [] Lc).
  - destruct (len_bounds credit_card_core None x [] Lc) as [Hmin Hmax].
    specialize (Hmax 19 eq_refl). simpl in Hmin. lia.
  - refine (chars_in_spec (fun c => is_digit c || dash_space c)
                          credit_card_core _ None x [] Lc).
    vm_compute. reflexivity.
  - destruct x as [|c tl]; [congruence|]. exists c, tl.
    split; [reflexivity|].
    refine (first_in_spec is_digit credit_card_core _ None c tl [] Lc).
    vm_compute. reflexivity.
  - intros p. destruct (last_of_some x Hne p) as [d [Hd _]].
    exists d. split; [exact Hd|].
    refine (last_in_spec is_digit credit_card_core _ None x [] d Lc Hne _).
    + vm_compute. reflexivity.
    + rewrite (last_of_not_nil x None p Hne). exact Hd.
Qed.

Lemma is_digit_word (c : ascii) : is_digit c = true -> is_word c = true.
Proof.
  apply (class_sub_spec is_digit is_word c). vm_compute. reflexivity.
Qed.

(** Two texts that begin at the same place, hold the same number of digits
    and end in a digit are the same text. *)
Lemma same_digits_same_text (x x' y y' : str) :
  x ++ y = x' ++ y' ->
  length (filter is_digit x) = length (filter is_digit x') ->
  (forall p, exists d, last_of x p = Some d /\ is_digit d = true) ->
  (forall p, exists d, last_of x' p = Some d /\ is_digit d = true) ->
  x = x'.
Proof.
  assert (Hmain : forall a l : str,
             length (filter is_digit (a ++ l)) = length (filter is_digit a) ->
             (forall p, exists d, last_of (a ++ l) p = Some d /\
                                  is_digit d = true) ->
             l = []).
  { intros a l Hlen Hlast. destruct l as [|c l]; [reflexivity|].
    exfalso. rewrite filter_app, length_app in Hlen.
    assert (Hz : filter is_digit (c :: l) = [])
      by (destruct (filter is_digit (c :: l)); [reflexivity|simpl in Hlen; lia]).
    destruct (Hlast None) as [d [Hd Hdig]]. rewrite last_of_app in Hd.
    destruct (last_of_some (c :: l) ltac:(discriminate) (last_of a None))
      as [d' [Hd' Hin]].
    rewrite Hd in Hd'. injection Hd' as <-.
    assert (Hf : In d (filter is_digit (c :: l)))
      by (apply filter_In; split; assumption).
    rewrite Hz in Hf. exact Hf. }
  intros E Hlen Hx Hx'. apply app_eq_app in E. destruct E as [l [[-> _]|[-> _]]].
  - rewrite (Hmain x' l Hlen Hx). apply app_nil_r.
  - rewrite (Hmain x l (eq_sym Hlen) Hx'). symmetry. apply app_nil_r.
Qed.

(** Where the text begins with a text of the shape, between two word
    boundaries, that text is the match the matcher prefers. *)
Lemma match_here_card (p : option ascii) (x post : str) :
  card_shape x ->
  opt_word p = false -> opt_word (hd_error post) = false ->
  match_here (bounded credit_card_core) p (x ++ post) = Some x.
Proof.
  intros Hx Hp Hpost.
  destruct (card_shape_facts x Hx) as [H16 [_ [_ [[c [tl [Ex Hc]]] Hlast]]]].
  assert (Hl : lang (bounded credit_card_core) p x post).
  { apply lang_credit_card. split; [exact Hx|]. split.
    - rewrite Ex. unfold boundary. simpl. rewrite Hp, (is_digit_word c Hc).
      reflexivity.
    - destruct (Hlast p) as [d [Hd Hdig]]. rewrite Hd. unfold boundary.
      simpl. rewrite Hpost, (is_digit_word d Hdig). reflexivity. }
  assert (Hin : In (x, post) (matches (bounded credit_card_core) p (x ++ post)))
    by (apply matches_spec; split; [reflexivity | exact Hl]).
  unfold match_here.
  destruct (matches (bounded credit_card_core) p (x ++ post))
    as [|[x1 y1] l] eqn:E; [destruct Hin|].
  assert (H1 : In (x1, y1) (matches (bounded credit_card_core) p (x ++ post)))
    by (rewrite E; left; reflexivity).
  apply matches_spec in H1. destruct H1 as [E1 L1].
  apply lang_credit_card in L1. destruct L1 as [Hx1 _].
  destruct (card_shape_facts x1 Hx1) as [H16' [_ [_ [_ Hlast']]]].
  f_equal. symmetry.
  apply (same_digits_same_text x x1 post y1 E1); [congruence | exact Hlast |
                                                 exact Hlast'].
Qed.

(** Before the first digit the scan keeps every character. *)
Lemma scan_card_prefix (pre t : str) :
  forallb (fun c => negb (is_digit c)) pre = true ->
  forall prev,
    scan (bounded credit_card_core) prev (pre ++ t) 0 =
    map Keep pre ++ scan (bounded credit_card_core) (last_of pre prev) t 0.
Proof.
  induction pre as [|c pre IH]; intros Hpre prev; [reflexivity|].
  simpl in Hpre. apply andb_prop in Hpre. destruct Hpre as [Hc Hpre].
  change ((c :: pre) ++ t) with (c :: pre ++ t). rewrite scan_cons.
  rewrite (no_lang_match_here (bounded credit_card_core) prev (c :: pre ++ t)).
  - simpl. f_equal. apply IH. exact Hpre.
  - intros x y E Hl. apply lang_credit_card in Hl. destruct Hl as [Hx _].
    destruct (card_shape_facts x Hx) as [_ [_ [_ [[d [tl [-> Hd]]] _]]]].
    simpl in E. injection E as <- _. rewrite Hd in Hc. discriminate.
Qed.

Lemma scan_card (pre x post : str) :
  card_shape x ->
  forallb (fun c => negb (is_digit c)) pre = true ->
  opt_word (last_of pre None) = false ->
  opt_word (hd_error post) = false ->
  scan (bounded credit_card_core) None (pre ++ x ++ post) 0 =
  map Keep pre ++
  Hit x :: scan (bounded credit_card_core) (last_of x None) post 0.
Proof.
  intros Hx Hpre Hp Hpost. rewrite (scan_card_prefix pre (x ++ post) Hpre None).
  f_equal.
  pose proof (match_here_card (last_of pre None) x post Hx Hp Hpost) as Hm.
  destruct (card_shape_facts x Hx) as [_ [_ [_ [[c [tl [Ex _]]] _]]]].
  subst x. change ((c :: tl) ++ post) with (c :: tl ++ post) in *.
  rewrite scan_cons, Hm. f_equal. rewrite scan_skip. reflexivity.
Qed.

Lemma render_app (P : str) (s1 s2 : list segment) :
  render P (s1 ++ s2) = render P s1 ++ render P s2.
Proof. unfold render. apply flat_map_app. Qed.

Lemma render_keeps (P x : str) : render P (map Keep x) = x.
Proof.
  induction x as [|c x IH]; [reflexivity|].
  change (render P (map Keep (c :: x))) with (c :: render P (map Keep x)).
  rewrite IH. reflexivity.
Qed.

Lemma redact_one_card (pre x post : str) :
  card_shape x ->
  forallb (fun c => negb (is_digit c)) pre = true ->
  opt_word (last_of pre None) = false ->
  opt_word (hd_error post) = false ->
  In x (findall (bounded credit_card_core) (pre ++ x ++ post)) /\
  redact_one (pre ++ x ++ post) (lit "credit_card", bounded credit_card_core) =
  pre ++ lit "[CREDIT_CARD_REMOVED]" ++
  render (lit "[CREDIT_CARD_REMOVED]")
         (scan (bounded credit_card_core) (last_of x None) post 0).
Proof.
  intros Hx Hpre Hp Hpost.
  pose proof (scan_card pre x post Hx Hpre Hp Hpost) as Hs.
  assert (Hin : In x (findall (bounded credit_card_core) (pre ++ x ++ post))).
  { unfold findall. rewrite Hs. apply in_flat_map. exists (Hit x).
    split; [|left; reflexivity]. apply in_or_app. right. left. reflexivity. }
  split; [exact Hin|].
  unfold redact_one. cbn [fst snd].
  destruct (findall (bounded credit_card_core) (pre ++ x ++ post)) eqn:Ef;
    [destruct Hin|].
  cbn [is_nil]. unfold sub. rewrite Hs, render_app, render_keeps.
  reflexivity.
Qed.

Lemma no_at_no_email (doc : str) :
  forallb (fun c => negb (chr_in "@" c)) doc = true ->
  no_match (bounded email_core) None doc.
Proof.
  intros Hdoc a x b E Hl.
  apply (lang_bounded email_core _ x b eq_refl eq_refl) in Hl.
  destruct Hl as [Lc _].
  assert (Hmh : must_have (chr_in "@") email_core = true)
    by (vm_compute; reflexivity).
  pose proof (must_have_spec _ _ Hmh _ _ _ Lc) as Hex.
  apply existsb_exists in Hex. destruct Hex as [c [Hin Hc]].
  rewrite forallb_forall in Hdoc.
  assert (Hd : In c doc).
  { rewrite E. apply in_or_app. right. apply in_or_app. left. exact Hin. }
  specialize (Hdoc c Hd). rewrite Hc in Hdoc. discriminate.
Qed.

(** A text of the shape that stands between texts without digit and at
    sign, and between two word boundaries, is what the redactor replaces,
    and nothing else. *)
Lemma remove_pii_card (pre x post : str) :
  card_shape x ->
  forallb (fun c => negb (digit_or_at c)) pre = true ->
  forallb (fun c => negb (digit_or_at c)) post = true ->
  opt_word (last_of pre None) = false ->
  opt_word (hd_error post) = false ->
  remove_pii_doc (pre ++ x ++ post) =
  pre ++ lit "[CREDIT_CARD_REMOVED]" ++ post.
Proof.
  intros Hx Hpre Hpost Hp Hq.
  assert (Hsub : forall l, forallb (fun c => negb (digit_or_at c)) l = true ->
                           forallb (fun c => negb (is_digit c)) l = true /\
                           forallb (fun c => negb (chr_in "@" c)) l = true).
  { intros l Hl. rewrite !forallb_forall in *.
    split; intros c Hc; specialize (Hl c Hc); unfold digit_or_at in Hl;
      apply negb_true_iff in Hl; apply orb_false_iff in Hl;
      destruct Hl as [H1 H2]; [rewrite H1 | rewrite H2]; reflexivity. }
  destruct (Hsub pre Hpre) as [Hpre_d Hpre_a].
  destruct (Hsub post Hpost) as [Hpost_d Hpost_a].
  destruct (card_shape_facts x Hx) as [_ [_ [Hchars _]]].
  assert (Hx_a : forallb (fun c => negb (chr_in "@" c)) x = true).
  { refine (class_sub_forallb (fun c => is_digit c || dash_space c) _ x _
              Hchars).
    vm_compute. reflexivity. }
  unfold remove_pii_doc, pii_patterns. cbn [fold_left].
  rewrite (redact_one_no_match (lit "email", bounded email_core)).
  2:{ apply no_at_no_email. rewrite !forallb_app, Hpre_a, Hx_a, Hpost_a.
      reflexivity. }
  destruct (redact_one_card pre x post Hx Hpre_d Hp Hq) as [_ ->].
  pose proof (scan_card_prefix post [] Hpost_d (last_of x None)) as Hsc.
  rewrite app_nil_r in Hsc. cbn [scan] in Hsc. rewrite app_nil_r in Hsc.
  rewrite Hsc, render_keeps.
  assert (Hclean : forallb (fun c => negb (digit_or_at c))
                           (pre ++ lit "[CREDIT_CARD_REMOVED]" ++ post) = true).
  { rewrite !forallb_app, Hpre, Hpost. reflexivity. }
  pose proof pii_patterns_good as Hg. rewrite Forall_forall in Hg.
  rewrite (redact_one_no_match (lit "phone", bounded phone_core)).
  2:{ apply no_digit_no_match; [|exact Hclean]. apply Hg.
      unfold pii_patterns. simpl. tauto. }
  rewrite (redact_one_no_match (lit "ssn", bounded ssn_core)).
  2:{ apply no_digit_no_match; [|exact Hclean]. apply Hg.
      unfold pii_patterns. simpl. tauto. }
  reflexivity.
Qed.

(** C6 (as the code has it).  The credit-card pattern matches exactly the
    texts of sixteen digits in four groups of four, each of the first three
    groups followed by at most one hyphen or white-space character, that
    stand between two word boundaries.  Every match the redactor finds has
    this shape, so sixteen digits and 16 to 19 characters.  Such a text,
    grouped or not, that follows a text without digits and stands between
    two word boundaries is found and replaced with [[CREDIT_CARD_REMOVED]];
    when the text around it has neither a digit nor an at sign, the redactor
    returns the document with this one replacement. *)
Theorem credit_card_matches_sixteen_digits_in_fours :
  (forall prev x y,
     lang (bounded credit_card_core) prev x y <->
     card_shape x /\
     boundary prev (hd_error x) = true /\
     boundary (last_of x prev) (hd_error y) = true) /\
  (forall doc x,
     In x (findall (bounded credit_card_core) doc) ->
     card_shape x /\ length (filter is_digit x) = 16 /\
     16 <= length x <= 19) /\
  (forall pre x post,
     card_shape x ->
     forallb (fun c => negb (is_digit c)) pre = true ->
     opt_word (last_of pre None) = false ->
     opt_word (hd_error post) = false ->
     In x (findall (bounded credit_card_core) (pre ++ x ++ post)) /\
     redact_one (pre ++ x ++ post)
                (lit "credit_card", bounded credit_card_core) =
     pre ++ lit "[CREDIT_CARD_REMOVED]" ++
     render (lit "[CREDIT_CARD_REMOVED]")
            (scan (bounded credit_card_core) (last_of x None) post 0)) /\
  (forall pre x post,
     card_shape x ->
     forallb (fun c => negb (digit_or_at c)) pre = true ->
     forallb (fun c => negb (digit_or_at c)) post = true ->
     opt_word (last_of pre None) = false ->
     opt_word (hd_error post) = false ->
     remove_pii_doc (pre ++ x ++ post) =
     pre ++ lit "[CREDIT_CARD_REMOVED]" ++ post).
Proof.
  split; [exact lang_credit_card|].
  split; [|split; [exact redact_one_card | exact remove_pii_card]].
  intros doc x Hin.
  assert (Lc : lang credit_card_core None x []).
  { apply (findall_core credit_card_core doc x); [reflexivity | reflexivity|].
    exact Hin. }
  apply lang_credit_card_core in Lc.
  destruct (card_shape_facts x Lc) as [H16 [Hlen _]]. auto.
Qed.

Lemma card_group_alone (g : str) : four_digits g -> card_group g.
Proof.
  intros Hg. exists g, []. split; [symmetry; apply app_nil_r|].
  split; [exact Hg | left; reflexivity].
Qed.

Lemma ungrouped_card_shape : card_shape (lit "4532123456789012").
Proof.
  exists (lit "4532"), (lit "1234"), (lit "5678"), (lit "9012").
  split; [reflexivity|].
  split; [apply card_group_alone; split; reflexivity|].
  split; [apply card_group_alone; split; reflexivity|].
  split; [apply card_group_alone; split; reflexivity|].
  split; reflexivity.
Qed.

Lemma credit_card_matches_sixteen_digits_in_fours_witness :
  let pre := lit "Credit card number: " in
  let x := lit "4532123456789012" in
  let post := lit " should be removed" in
  card_shape x /\
  forallb (fun c => negb (digit_or_at c)) pre = true /\
  forallb (fun c => negb (digit_or_at c)) post = true /\
  opt_word (last_of pre None) = false /\
  opt_word (hd_error post) = false /\
  remove_pii_doc (pre ++ x ++ post) =
  lit "Credit card number: [CREDIT_CARD_REMOVED] should be removed".
Proof.
  intros pre x post.
  assert (Hx : card_shape x) by exact ungrouped_card_shape.
  assert (Hpre : forallb (fun c => negb (digit_or_at c)) pre = true)
    by reflexivity.
  assert (Hpost : forallb (fun c => negb (digit_or_at c)) post = true)
    by reflexivity.
  assert (Hp : opt_word (last_of pre None) = false) by reflexivity.
  assert (Hq : opt_word (hd_error post) = false) by reflexivity.
  split; [exact Hx|]. split; [exact Hpre|]. split; [exact Hpost|].
  split; [exact Hp|]. split; [exact Hq|].
  exact (proj2 (proj2 (proj2 credit_card_matches_sixteen_digits_in_fours))
           pre x post Hx Hpre Hpost Hp Hq).
Defined.
